(** * WellDataChart: the depth-track renderer

    A shallow embedding of [src/components/WellDataChart.tsx]: the sort by
    depth, the value ranges, the colour table, the three scale functions and
    the layout the component draws (grid ticks, rock bars, the two line
    tracks and the legend), followed by the properties of the renderer.

    Numbers are modelled twice.
    - In the first part a finite JavaScript number is an exact rational
      ([Qc]), and the two infinities and NaN are kept ([number]) because
      the scale functions divide by a span that can be zero.  This part
      carries the properties that do not depend on how a result is
      rounded: the order of the sort, the colour table, the shape of the
      layout, where NaN appears and which bars carry a text.
    - In the second part the depth scale and the rock bars are written
      over an interface of arithmetic ([Arith.ops]) with two instances:
      the exact numbers, and binary64 ([binary64]), the numbers of
      JavaScript, given by the primitive floats of the prover, which
      compute as the hardware does, overflow and rounding included.  The
      properties of the depth track are proved once, for every arithmetic
      that keeps the laws of [ArithLaws], and the laws are proved for both
      instances; for binary64 they follow from the IEEE 754 specification
      of the prover's library, the monotonicity of the four rounded
      operations included.

    Other modelling choices.
    - The numeric fields of a data point are finite numbers: the
      component is handed records that were already validated.
    - [Array.prototype.sort] is the stable sort ECMAScript prescribes and
      [new Set] keeps first insertion order.
    - [colorMap] is a plain object: its own properties are a finite map,
      and the key ["__proto__"] is the accessor it inherits from
      [Object.prototype]. *)

From Stdlib Require Import QArith Qcanon Floats.
From stdpp Require Import numbers strings sorting gmap list.

Local Open Scope Qc_scope.

(** ** JavaScript numbers *)

Module JS.

Inductive number : Type :=
  | Fin (q : Qc)
  | PInf
  | NInf
  | NaN.

Global Instance number_eq_dec : EqDecision number.
Proof. solve_decision. Defined.

Definition is_finite (x : number) : bool :=
  match x with Fin _ => true | _ => false end.

(** Sign of a finite number: [Gt] positive, [Lt] negative, [Eq] zero. *)
Definition sgn (q : Qc) : comparison := (q ?= 0)%Qc.

Definition neg (x : number) : number :=
  match x with
  | Fin q => Fin (- q)
  | PInf => NInf
  | NInf => PInf
  | NaN => NaN
  end.

Definition add (x y : number) : number :=
  match x, y with
  | NaN, _ | _, NaN => NaN
  | Fin a, Fin b => Fin (a + b)
  | PInf, NInf | NInf, PInf => NaN
  | PInf, _ | _, PInf => PInf
  | NInf, _ | _, NInf => NInf
  end.

Definition sub (x y : number) : number := add x (neg y).

(** An infinity with the sign of [c], NaN when [c] is zero. *)
Definition inf_of (c : comparison) : number :=
  match c with Gt => PInf | Lt => NInf | Eq => NaN end.

Definition flip (c : comparison) : comparison := CompOpp c.

Definition mul (x y : number) : number :=
  match x, y with
  | NaN, _ | _, NaN => NaN
  | Fin a, Fin b => Fin (a * b)
  | PInf, Fin b | Fin b, PInf => inf_of (sgn b)
  | NInf, Fin b | Fin b, NInf => inf_of (flip (sgn b))
  | PInf, PInf | NInf, NInf => PInf
  | PInf, NInf | NInf, PInf => NInf
  end.

(** Division; a finite zero divisor stands for [+0]. *)
Definition div (x y : number) : number :=
  match x, y with
  | NaN, _ | _, NaN => NaN
  | Fin a, Fin b =>
      if decide (b = 0) then inf_of (sgn a) else Fin (a / b)
  | Fin _, (PInf | NInf) => Fin 0
  | PInf, Fin b => if decide (b < 0) then NInf else PInf
  | NInf, Fin b => if decide (b < 0) then PInf else NInf
  | (PInf | NInf), (PInf | NInf) => NaN
  end.

(** [x <= y]; false as soon as one side is NaN. *)
Definition le (x y : number) : Prop :=
  match x, y with
  | NaN, _ | _, NaN => False
  | NInf, _ | _, PInf => True
  | Fin a, Fin b => a ≤ b
  | _, _ => False
  end.

Definition lt (x y : number) : Prop :=
  match x, y with
  | NaN, _ | _, NaN => False
  | PInf, _ | _, NInf => False
  | Fin a, Fin b => a < b
  | _, _ => True
  end.

Global Instance le_dec : RelDecision le.
Proof. intros [a| | |] [b| | |]; simpl; apply _. Defined.

Global Instance lt_dec : RelDecision lt.
Proof. intros [a| | |] [b| | |]; simpl; apply _. Defined.

(** [x > y] as the source writes it. *)
Definition gt (x y : number) : bool := bool_decide (lt y x).

(** [Math.min(a, b)] and [Math.max(a, b)]. *)
Definition min2 (x y : number) : number :=
  match x, y with
  | NaN, _ | _, NaN => NaN
  | _, _ => if decide (le x y) then x else y
  end.

Definition max2 (x y : number) : number :=
  match x, y with
  | NaN, _ | _, NaN => NaN
  | _, _ => if decide (le x y) then y else x
  end.

(** [Math.min(...xs)] and [Math.max(...xs)]: with no argument they are
    [Infinity] and [-Infinity]. *)
Definition Math_min (xs : list Qc) : number :=
  foldr (λ x acc, min2 (Fin x) acc) PInf xs.

Definition Math_max (xs : list Qc) : number :=
  foldr (λ x acc, max2 (Fin x) acc) NInf xs.

(** [Math.round]: the integer nearest to [q], ties towards [+Infinity]. *)
Definition Math_round (x : number) : number :=
  match x with
  | Fin q =>
      let h := (q + Q2Qc (1 # 2))%Qc in
      Fin (Qc_of_Z (Qnum h / Zpos (Qden h)))
  | _ => x
  end.

(** [a || b] on strings: the empty string is falsy, and so is a missing
    property ([undefined]). *)
Definition or_else (a : option string) (b : string) : string :=
  match a with
  | Some s => if decide (s = EmptyString) then b else s
  | None => b
  end.

Section array_sort.
Context {A : Type} (cmp : A → A → number).

(** [x] moves past [y] only when the comparator says [x] comes after
    [y], that is when [cmp x y > 0]: equal elements keep their order. *)
Fixpoint insert_sorted (x : A) (l : list A) : list A :=
  match l with
  | [] => [x]
  | y :: l' =>
      if gt (cmp x y) (Fin 0) then y :: insert_sorted x l'
      else x :: y :: l'
  end.

(** [[...l].sort(cmp)] *)
Fixpoint Array_sort (l : list A) : list A :=
  match l with
  | [] => []
  | x :: l' => insert_sorted x (Array_sort l')
  end.
End array_sort.

(** [Array.from(new Set(l))]: the distinct elements of [l], each at the
    place of its first occurrence. *)
Definition Set_add {A} `{EqDecision A} (s : list A) (x : A) : list A :=
  if decide (x ∈ s) then s else s ++ [x].

Definition Set_from {A} `{EqDecision A} (l : list A) : list A :=
  foldl Set_add [] l.

(** A plain object [{}] used as a table from strings to strings.  Its own
    properties are a finite map.  The key ["__proto__"] is never one of
    them: it names the accessor inherited from [Object.prototype], whose
    setter ignores a string and whose getter gives the prototype object.
    That object is truthy, and an SVG attribute prints it as
    ["[object Object]"], the string that stands for it here.  The other
    properties of [Object.prototype] are methods that an assignment
    shadows; the component reads a key only after assigning it, so none
    of them is ever read. *)
Record object : Type := Object { own : gmap string string }.

Definition proto_key : string := "__proto__".
Definition Object_prototype : string := "[object Object]".

(** [o[k] = v] *)
Definition object_set (k v : string) (o : object) : object :=
  if decide (k = proto_key) then o else Object (<[k := v]> (own o)).

(** [o[k]] *)
Definition object_get (k : string) (o : object) : option string :=
  if decide (k = proto_key) then Some Object_prototype else own o !! k.

Global Instance object_eq_dec : EqDecision object.
Proof. solve_decision. Defined.

Global Instance object_lookup : Lookup string string object := object_get.

End JS.

Export JS.

Declare Scope js_scope.
Delimit Scope js_scope with js.
Infix "+" := JS.add : js_scope.
Infix "-" := JS.sub : js_scope.
Infix "*" := JS.mul : js_scope.
Infix "/" := JS.div : js_scope.
Infix "≤" := JS.le : js_scope.
Infix "<" := JS.lt : js_scope.

Coercion JS.Fin : Qc >-> JS.number.

(** Integer and decimal literals of the source. *)
Definition num (z : Z) : Qc := Qc_of_Z z.
Definition dec (n : Z) (d : positive) : Qc := Q2Qc (n # d).

(** ** The component *)

Record WellDataPoint : Type := {
  depth : Qc;
  rockComposition : string;
  DT : Qc;
  GR : Qc;
}.

Global Instance WellDataPoint_eq_dec : EqDecision WellDataPoint.
Proof. solve_decision. Defined.

(** What the SVG holds: a grid tick, a rock bar (its rectangle and its
    optional text), a point of a line track and a legend entry.  A numeric
    label is kept as the number it prints. *)
Record Tick : Type := {
  tick_y : number;
  tick_label : number;
}.

Record BarText : Type := {
  text_x : number;
  text_y : number;
  text_content : string;
}.

Record RockBar : Type := {
  bar_y1 : number;          (* local [y1], the rectangle's [y] *)
  bar_y2 : number;          (* local [y2] *)
  rect_x : number;
  rect_width : number;
  rect_height : number;     (* local [barHeight] *)
  rect_fill : string;
  bar_text : option BarText;
}.

Record LegendEntry : Type := {
  legend_color : option string;
  legend_name : string;
}.

Record Layout : Type := {
  depth_ticks : list Tick;
  DT_axis : number * number;
  GR_axis : number * number;
  rock_bars : list RockBar;
  DT_polyline : list (number * number);
  DT_circles : list (number * number);
  GR_polyline : list (number * number);
  GR_circles : list (number * number);
  legend : list LegendEntry;
}.

Inductive Rendered : Type :=
  | NoData               (* the "No data to display" placeholder *)
  | Chart (l : Layout).

Module WellDataChart.

Definition colors : list string := [
  "#8b5cf6"; "#ec4899"; "#f59e0b"; "#10b981"; "#3b82f6";
  "#ef4444"; "#14b8a6"; "#f97316"; "#a855f7"; "#06b6d4"
]%string.

Definition fallback_fill : string := "#64748b".

Definition chartHeight : Qc := num 600.
Definition chartWidth : Qc := num 900.
Definition padding_top : Qc := num 40.
Definition padding_right : Qc := num 40.
Definition padding_bottom : Qc := num 60.
Definition padding_left : Qc := num 80.
Definition plotHeight : Qc := chartHeight - padding_top - padding_bottom.
Definition plotWidth : Qc := chartWidth - padding_left - padding_right.
Definition columnWidth : Qc := plotWidth / num 3.
Definition depthTicks : nat := 10.

(** [colors[i % colors.length]]; the index is always in range, the
    default stands for [undefined]. *)
Definition color_at (i : nat) : string :=
  default EmptyString (colors !! (i `mod` length colors)).

(** The comparator [(a, b) => a.depth - b.depth]. *)
Definition by_depth (a b : WellDataPoint) : number := (depth a - depth b)%js.

Section component.
Variable data : list WellDataPoint.

Definition sortedData : list WellDataPoint := Array_sort by_depth data.

Definition minDepth : number := Math_min (depth <$> sortedData).
Definition maxDepth : number := Math_max (depth <$> sortedData).
Definition depthRange : number := (maxDepth - minDepth)%js.

Definition minDT : number := Math_min (DT <$> sortedData).
Definition maxDT : number := Math_max (DT <$> sortedData).
Definition minGR : number := Math_min (GR <$> sortedData).
Definition maxGR : number := Math_max (GR <$> sortedData).

Definition rockTypes : list string :=
  Set_from (rockComposition <$> sortedData).

(** [rockTypes.forEach((rock, i) => colorMap[rock] = ...)] *)
Definition colorMap : object :=
  foldl (λ m ir, object_set ir.2 (color_at ir.1) m) (Object ∅)
        (imap pair rockTypes).

Definition scaleDepth (d : number) : number :=
  (padding_top + ((d - minDepth) / depthRange) * plotHeight)%js.

Definition scaleDT (value : number) : number :=
  (padding_left + columnWidth * dec 1 10
   + ((value - minDT) / (maxDT - minDT)) * (columnWidth * dec 8 10))%js.

Definition scaleGR (value : number) : number :=
  (padding_left + columnWidth * dec 21 10
   + ((value - minGR) / (maxGR - minGR)) * (columnWidth * dec 8 10))%js.

Definition depthTickInterval : number :=
  (depthRange / num (Z.of_nat depthTicks))%js.

Definition depthTick (i : nat) : Tick :=
  let d := (minDepth + Qc_of_Z (Z.of_nat i) * depthTickInterval)%js in
  {| tick_y := scaleDepth d; tick_label := Math_round d |}.

Definition rockBar (i : nat) (point : WellDataPoint) : RockBar :=
  let nextPoint := sortedData !! (i + 1)%nat in
  let y1 := scaleDepth (depth point) in
  let y2 :=
    match nextPoint with
    | Some next => scaleDepth (depth next)
    | None => (chartHeight - padding_bottom)%js
    end in
  let barHeight := (y2 - y1)%js in
  {| bar_y1 := y1;
     bar_y2 := y2;
     rect_x := (padding_left + columnWidth * dec 1 10)%js;
     rect_width := (columnWidth * dec 8 10)%js;
     rect_height := barHeight;
     rect_fill :=
       or_else (colorMap !! rockComposition point) fallback_fill;
     bar_text :=
       if gt barHeight (num 20) then
         Some {| text_x := (padding_left + columnWidth / num 2)%js;
                 text_y := (y1 + barHeight / num 2)%js;
                 text_content := rockComposition point |}
       else None |}.

Definition DT_point (point : WellDataPoint) : number * number :=
  (scaleDT (DT point), scaleDepth (depth point)).

Definition GR_point (point : WellDataPoint) : number * number :=
  (scaleGR (GR point), scaleDepth (depth point)).

Definition legendEntry (rock : string) : LegendEntry :=
  {| legend_color := colorMap !! rock; legend_name := rock |}.

Definition layout : Layout :=
  {| depth_ticks := depthTick <$> seq 0 (depthTicks + 1);
     DT_axis := (minDT, maxDT);
     GR_axis := (minGR, maxGR);
     rock_bars := imap rockBar sortedData;
     DT_polyline := DT_point <$> sortedData;
     DT_circles := DT_point <$> sortedData;
     GR_polyline := GR_point <$> sortedData;
     GR_circles := GR_point <$> sortedData;
     legend := legendEntry <$> rockTypes |}.

(** [WellDataChart({ data })] *)
Definition render : Rendered :=
  match data with
  | [] => NoData
  | _ :: _ => Chart layout
  end.
End component.

End WellDataChart.

Import WellDataChart.

(** ** Notions the properties are stated with *)

(** Order and equality of records by depth. *)
Definition depth_le (p q : WellDataPoint) : Prop := depth p ≤ depth q.
Definition at_depth (d : Qc) (p : WellDataPoint) : Prop := depth p = d.

Global Instance depth_le_dec : RelDecision depth_le.
Proof. intros p q. unfold depth_le. apply _. Defined.
Global Instance at_depth_dec d : ∀ p, Decision (at_depth d p).
Proof. intros p. unfold at_depth. apply _. Defined.

(** The affine map every scale function is an instance of. *)
Definition affine (offset span lo hi v : number) : number :=
  (offset + ((v - lo) / (hi - lo)) * span)%js.

(** The middle of the pixel range a scale maps to. *)
Definition midpoint (offset span : Qc) : number :=
  Fin (offset + span / num 2).

(** Following the specification: the distinct categories of a list "in
    first-seen order".  To be compared with [Set_from], the model of what
    the code does. *)
Fixpoint first_seen (l : list string) : list string :=
  match l with
  | [] => []
  | x :: l' => x :: filter (λ y, y ≠ x) (first_seen l')
  end.

(** The table [forEach] builds over a list of categories. *)
Definition color_table (rocks : list string) : object :=
  foldl (λ m ir, object_set ir.2 (color_at ir.1) m) (Object ∅)
        (imap pair rocks).

(** The bars tile the span from [top] to [bottom]: the first one starts at
    [top], each one starts no lower than it ends and ends where the next
    one starts, and the last one ends at [bottom]. *)
Fixpoint tiles (top bottom : number) (bars : list RockBar) : Prop :=
  match bars with
  | [] => top = bottom
  | bar :: rest =>
      bar_y1 bar = top ∧ (bar_y1 bar ≤ bar_y2 bar)%js ∧
      tiles (bar_y2 bar) bottom rest
  end.

Global Instance tiles_dec top bottom bars : Decision (tiles top bottom bars).
Proof. revert top. induction bars; intros top; simpl; apply _. Defined.

Global Instance LegendEntry_eq_dec : EqDecision LegendEntry.
Proof. solve_decision. Defined.

(** ** Sample data *)

Definition point (d : Z) (rock : string) (dt gr : Z) : WellDataPoint :=
  {| depth := num d; rockComposition := rock; DT := num dt; GR := num gr |}.

(** The two records of the end-to-end example, deepest first. *)
Definition two_points : list WellDataPoint :=
  [point 200 "Sandstone" 90 60; point 100 "Shale" 80 40].

Definition one_point : list WellDataPoint := [point 100 "Shale" 80 40].

(** Four records whose categories, in depth order, are Sandstone, Shale,
    Sandstone, Limestone. *)
Definition four_points : list WellDataPoint :=
  [point 100 "Sandstone" 80 40; point 200 "Shale" 90 60;
   point 300 "Sandstone" 85 50; point 400 "Limestone" 70 30].

(** Three records, the last two at the same depth and shallower than the
    first. *)
Definition tie_points : list WellDataPoint :=
  [point 300 "Limestone" 70 30; point 100 "Shale" 80 40;
   point 100 "Sandstone" 90 60].

(** Two records, the shallower one of the category ["__proto__"]. *)
Definition proto_points : list WellDataPoint :=
  [point 100 "__proto__" 80 40; point 200 "Shale" 90 60].

(** Two records at the same depth, in both orders. *)
Definition shale_first : list WellDataPoint :=
  [point 100 "Shale" 80 40; point 100 "Sandstone" 90 60].
Definition sandstone_first : list WellDataPoint :=
  [point 100 "Sandstone" 90 60; point 100 "Shale" 80 40].

(** ** Texts of the rock bars *)

(** A rock bar carries a text. *)
Definition labelled (bar : RockBar) : Prop := is_Some (bar_text bar).

Global Instance labelled_dec bar : Decision (labelled bar).
Proof. unfold labelled. apply _. Defined.

(** ** The upload endpoint: from sheet rows to data points *)

Module Upload.

(** A cell of a parsed sheet, or the [undefined] of a missing column. *)
Inductive value : Type :=
  | VUndefined
  | VNull
  | VBool (b : bool)
  | VNum (x : number)
  | VStr (s : string).

Global Instance value_eq_dec : EqDecision value.
Proof. solve_decision. Defined.

(** What [||] tests: [undefined], [null], [false], [0], [NaN] and the
    empty string are falsy. *)
Definition truthy (v : value) : bool :=
  match v with
  | VUndefined | VNull => false
  | VBool b => b
  | VNum (Fin q) => bool_decide (q ≠ 0)
  | VNum NaN => false
  | VNum _ => true
  | VStr s => bool_decide (s ≠ EmptyString)
  end.

(** [a || b] *)
Definition or (a b : value) : value := if truthy a then a else b.

(** [row[key]] *)
Definition get (row : gmap string value) (key : string) : value :=
  default VUndefined (row !! key).

Record ParsedRow : Type := {
  row_depth : value;
  row_rockComposition : value;
  row_DT : value;
  row_GR : value;
}.

(** The callback of [jsonData.map]. *)
Definition parseRow (row : gmap string value) : ParsedRow :=
  {| row_depth :=
       or (or (or (get row "DEPTH") (get row "Depth")) (get row "depth"))
          (VNum (Fin 0));
     row_rockComposition :=
       or (or (or (or (get row "ROCK_COMPOSITION")
                      (get row "Rock Composition"))
                  (get row "Rock_Composition"))
              (get row "rock_composition"))
          (VStr EmptyString);
     row_DT := or (or (get row "DT") (get row "dt")) (VNum (Fin 0));
     row_GR := or (or (get row "GR") (get row "gr")) (VNum (Fin 0)) |}.

Definition parseSheet (jsonData : list (gmap string value))
  : list ParsedRow := parseRow <$> jsonData.

(** The parsed row as the data point the chart is typed to receive, when
    its fields have these types. *)
Definition as_point (r : ParsedRow) : option WellDataPoint :=
  match row_depth r, row_rockComposition r, row_DT r, row_GR r with
  | VNum (Fin d), VStr rock, VNum (Fin dt), VNum (Fin gr) =>
      Some {| depth := d; rockComposition := rock; DT := dt; GR := gr |}
  | _, _, _, _ => None
  end.

(** The column headers the callback looks up, and the row that a sheet
    with one such header for each field gives for a data point. *)
Definition depth_headers : list string := ["DEPTH"; "Depth"; "depth"].
Definition rock_headers : list string :=
  ["ROCK_COMPOSITION"; "Rock Composition"; "Rock_Composition";
   "rock_composition"].
Definition DT_headers : list string := ["DT"; "dt"].
Definition GR_headers : list string := ["GR"; "gr"].

Definition sheet_row (hd hr ht hg : string) (p : WellDataPoint)
  : gmap string value :=
  <[hd := VNum (Fin (depth p))]>
    (<[hr := VStr (rockComposition p)]>
       (<[ht := VNum (Fin (DT p))]> (<[hg := VNum (Fin (GR p))]> ∅))).

End Upload.

(** [v] is what a chain [row[h1] || row[h2] || ... || d] gives: the cell
    of [row] under the first of the [headers] whose cell is truthy, and
    the default [d] when no header has a truthy cell. *)
Definition first_truthy_cell (row : gmap string Upload.value)
    (headers : list string) (d v : Upload.value) : Prop :=
  (∃ i h, headers !! i = Some h ∧
          Upload.truthy (Upload.get row h) = true ∧ v = Upload.get row h ∧
          ∀ j h', (j < i)%nat → headers !! j = Some h' →
                  Upload.truthy (Upload.get row h') = false) ∨
  (v = d ∧ ∀ h, h ∈ headers → Upload.truthy (Upload.get row h) = false).

(** ** The chat endpoint: the summary of the data *)

Module ChatStats.

(** The object [dataStats] of the chat handler, without its two [avg]
    fields: they are sums and quotients of binary64 numbers, and no
    property below is about them. *)
Record DataStats : Type := {
  dataPoints : nat;
  depthRange_min : number;
  depthRange_max : number;
  stats_rockTypes : list string;
  dtRange_min : number;
  dtRange_max : number;
  grRange_min : number;
  grRange_max : number;
  sampleData : list WellDataPoint;
}.

Definition dataStats (data : list WellDataPoint) : DataStats :=
  {| dataPoints := length data;
     depthRange_min := Math_min (depth <$> data);
     depthRange_max := Math_max (depth <$> data);
     stats_rockTypes := Set_from (rockComposition <$> data);
     dtRange_min := Math_min (DT <$> data);
     dtRange_max := Math_max (DT <$> data);
     grRange_min := Math_min (GR <$> data);
     grRange_max := Math_max (GR <$> data);
     sampleData := take 10 data |}.

End ChatStats.

(** ** The depth track over an arithmetic *)

(** The operations on numbers that the depth scale and the rock bars
    use. *)
Module Arith.

Record ops : Type := {
  val : Type;
  add : val → val → val;
  sub : val → val → val;
  mul : val → val → val;
  div : val → val → val;
  ltb : val → val → bool;       (* [x < y] *)
  leb : val → val → bool;       (* [x <= y] *)
  min2 : val → val → val;       (* [Math.min(x, y)] *)
  max2 : val → val → val;       (* [Math.max(x, y)] *)
  pinf : val;                   (* [Infinity] *)
  ninf : val;                   (* [-Infinity] *)
  finite : val → bool;          (* [Number.isFinite(x)] *)
  lit : Z → val;                (* an integer literal *)
}.

Arguments add {A} _ _ : rename.
Arguments sub {A} _ _ : rename.
Arguments mul {A} _ _ : rename.
Arguments div {A} _ _ : rename.
Arguments ltb {A} _ _ : rename.
Arguments leb {A} _ _ : rename.
Arguments min2 {A} _ _ : rename.
Arguments max2 {A} _ _ : rename.
Arguments pinf {A} : rename.
Arguments ninf {A} : rename.
Arguments finite {A} _ : rename.
Arguments lit {A} _ : rename.

End Arith.

(** The exact numbers of the first part. *)
Definition exact : Arith.ops :=
  {| Arith.val := number;
     Arith.add := JS.add;
     Arith.sub := JS.sub;
     Arith.mul := JS.mul;
     Arith.div := JS.div;
     Arith.ltb := λ x y, bool_decide (JS.lt x y);
     Arith.leb := λ x y, bool_decide (JS.le x y);
     Arith.min2 := JS.min2;
     Arith.max2 := JS.max2;
     Arith.pinf := PInf;
     Arith.ninf := NInf;
     Arith.finite := JS.is_finite;
     Arith.lit := λ z, Fin (Qc_of_Z z) |}.

(** The numbers of JavaScript: IEEE 754 binary64, here the primitive floats
    of the prover, which compute as the hardware does. *)
Module Binary64.

(** [Math.min(x, y)] and [Math.max(x, y)]: NaN when an argument is NaN, and
    [-0] counts as smaller than [+0]. *)
Definition min2 (x y : float) : float :=
  if (PrimFloat.is_nan x || PrimFloat.is_nan y)%bool then PrimFloat.nan
  else if PrimFloat.ltb x y then x
  else if PrimFloat.ltb y x then y
  else if PrimFloat.get_sign x then x else y.

Definition max2 (x y : float) : float :=
  if (PrimFloat.is_nan x || PrimFloat.is_nan y)%bool then PrimFloat.nan
  else if PrimFloat.ltb x y then y
  else if PrimFloat.ltb y x then x
  else if PrimFloat.get_sign x then y else x.

(** An integer literal; the ones of the source are small and exact. *)
Definition lit (z : Z) : float :=
  match z with
  | Z0 => PrimFloat.zero
  | Zpos _ => PrimFloat.of_uint63 (Uint63.of_Z z)
  | Zneg _ => PrimFloat.opp (PrimFloat.of_uint63 (Uint63.of_Z (- z)))
  end.

(** What [Number.isFinite] tells of the representation of a float. *)
Definition SF_finite (f : spec_float) : bool :=
  match f with
  | S754_zero _ | S754_finite _ _ _ => true
  | S754_infinity _ | S754_nan => false
  end.

(** The place of a float in the order, as a triple compared
    lexicographically: the class (infinite, finite or zero, with sign),
    then the exponent, then the mantissa. *)
Definition SF_rank (f : spec_float) : Z * Z * Z :=
  match f with
  | S754_nan => (3, 0, 0)
  | S754_infinity true => (-2, 0, 0)
  | S754_finite true m e => (-1, - e, - Z.pos m)
  | S754_zero _ => (0, 0, 0)
  | S754_finite false m e => (1, e, Z.pos m)
  | S754_infinity false => (2, 0, 0)
  end%Z.

Definition lex_lt (a b : Z * Z * Z) : Prop :=
  (a.1.1 < b.1.1 ∨
   (a.1.1 = b.1.1 ∧ (a.1.2 < b.1.2 ∨ (a.1.2 = b.1.2 ∧ a.2 < b.2))))%Z.

Definition lex_le (a b : Z * Z * Z) : Prop :=
  (a.1.1 < b.1.1 ∨
   (a.1.1 = b.1.1 ∧ (a.1.2 < b.1.2 ∨ (a.1.2 = b.1.2 ∧ a.2 ≤ b.2))))%Z.

(** A float that is not NaN. *)
Definition SF_number (f : spec_float) : Prop := f ≠ S754_nan.

End Binary64.

Definition binary64 : Arith.ops :=
  {| Arith.val := float;
     Arith.add := PrimFloat.add;
     Arith.sub := PrimFloat.sub;
     Arith.mul := PrimFloat.mul;
     Arith.div := PrimFloat.div;
     Arith.ltb := PrimFloat.ltb;
     Arith.leb := PrimFloat.leb;
     Arith.min2 := Binary64.min2;
     Arith.max2 := Binary64.max2;
     Arith.pinf := PrimFloat.infinity;
     Arith.ninf := PrimFloat.neg_infinity;
     Arith.finite := PrimFloat.is_finite;
     Arith.lit := Binary64.lit |}.

Declare Scope arith_scope.
Delimit Scope arith_scope with ar.
Infix "+" := Arith.add : arith_scope.
Infix "-" := Arith.sub : arith_scope.
Infix "*" := Arith.mul : arith_scope.
Infix "/" := Arith.div : arith_scope.
Infix "<?" := Arith.ltb : arith_scope.
Infix "<=?" := Arith.leb : arith_scope.

(** The part of the component that places the rock bars: the sort, the
    depth range, the depth scale and the three locals [y1], [y2] and
    [barHeight] of each bar, with the arithmetic left open. *)
Module DepthTrack.

Section arith.
Context {A : Arith.ops}.
Import Arith.

Record Point : Type := {
  depth : val A;
  rockComposition : string;
  DT : val A;
  GR : val A;
}.

Record Bar : Type := {
  y1 : val A;
  y2 : val A;
  barHeight : val A;
  text_y : option (val A);      (* where the text is, when it is drawn *)
}.

(** The comparator [(a, b) => a.depth - b.depth]. *)
Definition by_depth (a b : Point) : val A := (depth a - depth b)%ar.

(** The stable sort: [x] moves past [y] only when [by_depth x y > 0]. *)
Fixpoint insert_sorted (x : Point) (l : list Point) : list Point :=
  match l with
  | [] => [x]
  | y :: l' =>
      if (lit 0 <? by_depth x y)%ar then y :: insert_sorted x l'
      else x :: y :: l'
  end.

Fixpoint Array_sort (l : list Point) : list Point :=
  match l with
  | [] => []
  | x :: l' => insert_sorted x (Array_sort l')
  end.

Definition Math_min (xs : list (val A)) : val A := foldr min2 pinf xs.

Definition Math_max (xs : list (val A)) : val A := foldr max2 ninf xs.

Definition chartHeight : val A := lit 600.
Definition padding_top : val A := lit 40.
Definition padding_bottom : val A := lit 60.
Definition plotHeight : val A := (chartHeight - padding_top - padding_bottom)%ar.

Section component.
Variable data : list Point.

Definition sortedData : list Point := Array_sort data.

Definition minDepth : val A := Math_min (depth <$> sortedData).
Definition maxDepth : val A := Math_max (depth <$> sortedData).
Definition depthRange : val A := (maxDepth - minDepth)%ar.

Definition scaleDepth (d : val A) : val A :=
  (padding_top + ((d - minDepth) / depthRange) * plotHeight)%ar.

Definition rockBar (i : nat) (point : Point) : Bar :=
  let nextPoint := sortedData !! (i + 1)%nat in
  let y1 := scaleDepth (depth point) in
  let y2 :=
    match nextPoint with
    | Some next => scaleDepth (depth next)
    | None => (chartHeight - padding_bottom)%ar
    end in
  let barHeight := (y2 - y1)%ar in
  {| y1 := y1;
     y2 := y2;
     barHeight := barHeight;
     text_y :=
       if (lit 20 <? barHeight)%ar then Some (y1 + barHeight / lit 2)%ar
       else None |}.

Definition rock_bars : list Bar := imap rockBar sortedData.
End component.

(** Order of the records by depth, and the records whose depth is a finite
    number. *)
Definition depth_le (p q : Point) : Prop := (depth p <=? depth q)%ar.
Definition finite_depth (p : Point) : Prop := finite (depth p).

(** The bars tile the span from [top] to [bottom]: the first one starts at
    [top], each one starts no lower than it ends and ends where the next
    one starts, and the last one ends at [bottom]. *)
Fixpoint tiles (top bottom : val A) (bars : list Bar) : Prop :=
  match bars with
  | [] => top = bottom
  | bar :: rest =>
      y1 bar = top ∧ (y1 bar <=? y2 bar)%ar ∧ tiles (y2 bar) bottom rest
  end.

End arith.

Arguments Point : clear implicits.
Arguments Bar : clear implicits.

End DepthTrack.

(** The laws of the arithmetic that the properties of the depth track rest
    on.  The first group fixes the special values and the constants of the
    chart. *)
Module ArithLaws.
Import Arith.

Section laws.
Context (A : Arith.ops).
Implicit Types (x y z a b c m r : val A).
Local Open Scope arith_scope.

Record SpecialValues : Prop := {
  sub_finite x y : finite (x - y) → finite x ∧ finite y;
  sub_self x : finite x → x - x = lit 0;
  div_zero r : finite r → lit 0 <? r → lit 0 / r = lit 0;
  div_self r : finite r → lit 0 <? r → r / r = lit 1;
  height_500 : lit 600 - lit 40 - lit 60 = lit 500 :> val A;
  bottom_540 : lit 40 + lit 500 = lit 600 - lit 60 :> val A;
  mul_0_500 : lit 0 * lit 500 = lit 0 :> val A;
  mul_1_500 : lit 1 * lit 500 = lit 500 :> val A;
  add_40_0 : lit 40 + lit 0 = lit 40 :> val A;
  finite_40 : finite (lit 40 : val A);
  finite_500 : finite (lit 500 : val A);
  finite_bottom : finite (lit 600 - lit 60 : val A);
  positive_40 : (lit 0 : val A) <? lit 40;
  positive_500 : (lit 0 : val A) <? lit 500;
}.

(** The second group: the comparisons order the numbers that are not NaN,
    the sign of a difference of finite numbers is the order of its terms,
    and [Math.min] and [Math.max] pick the smaller and the larger
    argument. *)
Record Ordered : Prop := {
  leb_refl x : finite x → x <=? x;
  leb_trans x y z : x <=? y → y <=? z → x <=? z;
  ltb_leb x y : x <? y → x <=? y;
  ltb_not_leb x y : x <? y → ¬ (y <=? x);
  leb_total x y : finite x → finite y → ¬ (y <? x) → x <=? y;
  leb_finite a x b : finite a → finite b → a <=? x → x <=? b → finite x;
  leb_antisym x c : lit 0 <? c → x <=? c → c <=? x → x = c;
  sub_sign a b : finite a → finite b → (lit 0 <? a - b) = (b <? a);
  min2_pinf x : finite x → min2 x pinf = x;
  max2_ninf x : finite x → max2 x ninf = x;
  min2_cases x y :
    finite x → finite y →
    (min2 x y = x ∨ min2 x y = y) ∧ min2 x y <=? x ∧ min2 x y <=? y;
  max2_cases x y :
    finite x → finite y →
    (max2 x y = x ∨ max2 x y = y) ∧ x <=? max2 x y ∧ y <=? max2 x y;
}.

(** The third group: each operation, rounded or not, is monotone. *)
Record Monotone : Prop := {
  sub_mono x y m : x <=? y → finite m → x - m <=? y - m;
  div_mono x y r : x <=? y → finite r → lit 0 <? r → x / r <=? y / r;
  mul_mono x y c : x <=? y → finite c → lit 0 <? c → x * c <=? y * c;
  add_mono x y c : x <=? y → finite c → c + x <=? c + y;
}.
End laws.

End ArithLaws.

(** ** Binary64: what the rounding computes *)

(** The place of a fraction [N / D] between two integers: what is left of
    it below its integer part, compared with one half. *)
Definition loc_of (N D : Z) : location :=
  if (N `mod` D =? 0)%Z then loc_Exact
  else loc_Inexact (Z.compare (2 * (N `mod` D)) D).

(** The integer part of [N / D] with the place of the fraction. *)
Definition cell (N D : Z) : shr_record :=
  shr_record_of_loc (N `div` D) (loc_of N D).

(** The nearest integer to [N / D], ties to even. *)
Definition rne (N D : Z) : Z := round_nearest_even (N `div` D) (loc_of N D).

(** The exponent of the format for a number of [k] digits above the binary
    point, and what [binary_round_aux] computes for the fraction [N / D]
    at the exponent [e]: the mantissa and the exponent of the result. *)
Definition fexp64 (k : Z) : Z := Z.max (k - 53) (-1074).

Definition shift64 (q e : Z) : Z := Z.max 0 (fexp64 (Zdigits2 q + e) - e).

Definition round_pos (N D e : Z) : Z * Z :=
  let n := shift64 (N `div` D) e in
  let q' := rne N (D * 2 ^ n) in
  let n' := shift64 q' (e + n) in
  (q' `div` 2 ^ n', e + n + n')%Z.

Definition SF_of_round (s : bool) (r : Z * Z) : spec_float :=
  match r.1 with
  | Z0 => S754_zero s
  | Zpos m => if (r.2 <=? 971)%Z then S754_finite s m r.2 else S754_infinity s
  | Zneg _ => S754_nan
  end.

(** The value of a finite float, in units of [2^-1074]. *)
Definition SF_value (f : spec_float) : Z :=
  match f with
  | S754_finite s m e => cond_Zopp s (Z.pos m * 2 ^ (e + 1074))
  | _ => 0
  end%Z.

(** Rounding a signed fraction [z / D] at the exponent [e]. *)
Definition Rz (z D e : Z) : spec_float :=
  match z with
  | Z0 => S754_zero false
  | Zpos p => SF_of_round false (round_pos (Zpos p) D e)
  | Zneg p => SF_of_round true (round_pos (Zpos p) D e)
  end.

(** Sample data for the two arithmetics: the records of the first part as
    exact numbers, and records of binary64 numbers, among them two at the
    depths [-2^1023] and [2^1023] and four at the depths 0, 1, 4 and
    75. *)
Definition exact_point (p : WellDataPoint) : DepthTrack.Point exact :=
  @DepthTrack.Build_Point exact
    (Fin (depth p)) (rockComposition p) (Fin (DT p)) (Fin (GR p)).

Definition float_point (d : float) (rock : string) (dt gr : float)
  : DepthTrack.Point binary64 :=
  @DepthTrack.Build_Point binary64 d rock dt gr.

Definition float_two_points : list (DepthTrack.Point binary64) :=
  [float_point 200 "Sandstone" 90 60; float_point 100 "Shale" 80 40].

Definition float_one_point : list (DepthTrack.Point binary64) :=
  [float_point 100 "Shale" 80 40].

Definition overflow_points : list (DepthTrack.Point binary64) :=
  [float_point (-0x1p1023) "Shale" 80 40;
   float_point 0x1p1023 "Sandstone" 90 60].

Definition float_four_points : list (DepthTrack.Point binary64) :=
  [float_point 0 "Shale" 80 40; float_point 1 "Sandstone" 90 60;
   float_point 4 "Limestone" 70 30; float_point 75 "Granite" 60 20].

(** ** Facts about the sort *)

Global Instance depth_le_trans : Transitive depth_le.
Proof. intros p q r. unfold depth_le. apply Qcle_trans. Qed.

Section sort_by_depth.
Implicit Types (p q : WellDataPoint) (l : list WellDataPoint) (d : Qc).

Lemma gt_by_depth p q :
  gt (by_depth p q) (Fin 0) = bool_decide (depth q < depth p).
Proof.
  unfold gt, by_depth; simpl. apply bool_decide_ext.
  rewrite (Qcplus_lt_mono_r _ _ (depth q)), Qcplus_0_l.
  by replace (depth p + - depth q + depth q) with (depth p) by ring.
Qed.

Lemma insert_sorted_cons p q l :
  insert_sorted by_depth p (q :: l) =
    if bool_decide (depth q < depth p)
    then q :: insert_sorted by_depth p l else p :: q :: l.
Proof. simpl. by rewrite gt_by_depth. Qed.

Lemma insert_sorted_perm p l : insert_sorted by_depth p l ≡ₚ p :: l.
Proof.
  induction l as [|q l IH]; [done|].
  rewrite insert_sorted_cons. case_bool_decide; [|done].
  rewrite IH. apply Permutation_swap.
Qed.

Lemma Array_sort_perm l : Array_sort by_depth l ≡ₚ l.
Proof.
  induction l as [|p l IH]; [done|]. simpl.
  by rewrite insert_sorted_perm, IH.
Qed.

Lemma insert_sorted_sorted p l :
  StronglySorted depth_le l →
  StronglySorted depth_le (insert_sorted by_depth p l).
Proof.
  induction 1 as [|q l Hl IH Hq]; [repeat constructor|].
  rewrite insert_sorted_cons. case_bool_decide as Hlt.
  - constructor; [done|]. rewrite insert_sorted_perm.
    constructor; [|done]. by apply Qclt_le_weak.
  - apply Qcnot_lt_le in Hlt.
    constructor; [by constructor|]. constructor; [done|].
    eapply Forall_impl; [exact Hq|].
    intros r Hr. unfold depth_le in *. by trans (depth q).
Qed.

Lemma Array_sort_sorted l : StronglySorted depth_le (Array_sort by_depth l).
Proof.
  induction l; simpl; [constructor|]. by apply insert_sorted_sorted.
Qed.

(** The records the insertion walks past are strictly shallower, so none
    of them sits at the depth of the inserted record. *)
Lemma insert_sorted_filter d p l :
  filter (at_depth d) (insert_sorted by_depth p l) =
  filter (at_depth d) (p :: l).
Proof.
  induction l as [|q l IH]; [done|].
  rewrite insert_sorted_cons. case_bool_decide as Hlt; [|done].
  rewrite filter_cons, IH, !filter_cons.
  destruct (decide (at_depth d q)) as [Hq|]; [|done].
  destruct (decide (at_depth d p)) as [Hp|]; [|done].
  unfold at_depth in *. subst d. rewrite Hp in Hlt.
  by destruct (Qclt_not_eq _ _ Hlt).
Qed.

Lemma Array_sort_filter d l :
  filter (at_depth d) (Array_sort by_depth l) = filter (at_depth d) l.
Proof.
  induction l as [|p l IH]; [done|]. simpl.
  by rewrite insert_sorted_filter, !filter_cons, IH.
Qed.

(** A list sorted by depth is determined by its records at each depth. *)
Lemma sorted_stable_unique l1 l2 :
  StronglySorted depth_le l1 → StronglySorted depth_le l2 →
  (∀ d, filter (at_depth d) l1 = filter (at_depth d) l2) →
  l1 = l2.
Proof.
  intros Hl1. revert l2.
  induction Hl1 as [|p l1 Hl1 IH Hp]; intros l2 Hl2 Hf.
  - destruct l2 as [|q l2]; [done|].
    specialize (Hf (depth q)). rewrite filter_cons in Hf.
    by destruct (decide (at_depth (depth q) q)).
  - destruct Hl2 as [|q l2 Hl2 Hq].
    { specialize (Hf (depth p)). rewrite filter_cons in Hf.
      by destruct (decide (at_depth (depth p) p)). }
    assert (depth p = depth q) as Hpq.
    { apply Qcle_antisym.
      - assert (q ∈ filter (at_depth (depth q)) (p :: l1)) as Hin.
        { rewrite Hf, filter_cons.
          destruct (decide (at_depth (depth q) q)); [left|done]. }
        apply list_elem_of_filter in Hin as [_ Hin].
        apply elem_of_cons in Hin as [->|Hin]; [apply Qcle_refl|].
        rewrite Forall_forall in Hp. by apply Hp.
      - assert (p ∈ filter (at_depth (depth p)) (q :: l2)) as Hin.
        { rewrite <-Hf, filter_cons.
          destruct (decide (at_depth (depth p) p)); [left|done]. }
        apply list_elem_of_filter in Hin as [_ Hin].
        apply elem_of_cons in Hin as [->|Hin]; [apply Qcle_refl|].
        rewrite Forall_forall in Hq. by apply Hq. }
    assert (p = q) as ->.
    { specialize (Hf (depth p)). rewrite !filter_cons in Hf.
      destruct (decide (at_depth (depth p) p)); [|done].
      destruct (decide (at_depth (depth p) q)); [|done].
      by injection Hf. }
    f_equal. apply IH; [done|]. intros d. specialize (Hf d).
    rewrite !filter_cons in Hf.
    destruct (decide (at_depth d q)); [by injection Hf|done].
Qed.

(** Any stable sort by depth returns what [Array_sort] returns, so the
    algorithm the engine runs does not matter. *)
Lemma stable_sort_unique l s :
  StronglySorted depth_le s →
  (∀ d, filter (at_depth d) s = filter (at_depth d) l) →
  s = Array_sort by_depth l.
Proof.
  intros Hs Hf. apply sorted_stable_unique; [done|apply Array_sort_sorted|].
  intros d. by rewrite Array_sort_filter.
Qed.
End sort_by_depth.

(** ** Facts about ranges and scales *)

Section ranges.
Implicit Types (x m : Qc) (xs : list Qc).

Lemma min2_fin x m :
  min2 (Fin x) (Fin m) = Fin (if decide (x ≤ m) then x else m).
Proof. unfold min2. simpl. by destruct (decide (x ≤ m)). Qed.

Lemma max2_fin x m :
  max2 (Fin x) (Fin m) = Fin (if decide (x ≤ m) then m else x).
Proof. unfold max2. simpl. by destruct (decide (x ≤ m)). Qed.

(** Over a non-empty list [Math.min] is its least element. *)
Lemma Math_min_spec x xs :
  ∃ m, Math_min (x :: xs) = Fin m ∧ m ∈ x :: xs ∧
       Forall (Qcle m) (x :: xs).
Proof.
  revert x. induction xs as [|y xs IH]; intros x.
  - exists x. repeat split; [left|]. repeat constructor. apply Qcle_refl.
  - destruct (IH y) as (m & Hm & Hin & Hle).
    change (Math_min (x :: y :: xs)) with (min2 (Fin x) (Math_min (y :: xs))).
    rewrite Hm, min2_fin. eexists; split; [done|].
    destruct (decide (x ≤ m)) as [Hxm|Hxm].
    + split; [left|]. constructor; [apply Qcle_refl|].
      eapply Forall_impl; [exact Hle|]. intros z Hz. by trans m.
    + split; [by right|]. constructor; [|done].
      apply Qclt_le_weak. by apply Qcnot_le_lt.
Qed.

Lemma Math_max_spec x xs :
  ∃ m, Math_max (x :: xs) = Fin m ∧ m ∈ x :: xs ∧
       Forall (λ z, z ≤ m) (x :: xs).
Proof.
  revert x. induction xs as [|y xs IH]; intros x.
  - exists x. repeat split; [left|]. repeat constructor. apply Qcle_refl.
  - destruct (IH y) as (m & Hm & Hin & Hle).
    change (Math_max (x :: y :: xs)) with (max2 (Fin x) (Math_max (y :: xs))).
    rewrite Hm, max2_fin. eexists; split; [done|].
    destruct (decide (x ≤ m)) as [Hxm|Hxm].
    + split; [by right|]. by constructor.
    + apply Qcnot_le_lt in Hxm.
      split; [left|]. constructor; [apply Qcle_refl|].
      eapply Forall_impl; [exact Hle|]. intros z Hz.
      apply Qclt_le_weak. exact (Qcle_lt_trans _ _ _ Hz Hxm).
Qed.

End ranges.

Section affine.
Implicit Types (o s m M v : Qc).



Lemma Qc_sub_gt_0 v m : 0 < v + - m ↔ m < v.
Proof.
  rewrite (Qcplus_lt_mono_r 0 (v + - m) m), Qcplus_0_l.
  by replace (v + - m + m) with v by ring.
Qed.

Lemma Qc_sub_lt_0 v m : v + - m < 0 ↔ v < m.
Proof.
  rewrite (Qcplus_lt_mono_r (v + - m) 0 m), Qcplus_0_l.
  by replace (v + - m + m) with v by ring.
Qed.

Lemma sgn_sub v m : sgn (v + - m) = (v ?= m).
Proof.
  unfold sgn. destruct (v ?= m) eqn:Hc.
  - apply Qceq_alt in Hc as ->. by replace (m + - m) with 0 by ring.
  - apply Qclt_alt in Hc. by apply (proj1 (Qclt_alt _ _)), Qc_sub_lt_0.
  - apply Qcgt_alt in Hc. by apply (proj1 (Qcgt_alt _ _)), Qc_sub_gt_0.
Qed.

(** With an empty domain span the division is by zero. *)
Lemma affine_degenerate o s m v :
  0 < s →
  affine o s m m v = inf_of (v ?= m).
Proof.
  intros Hs. unfold affine, sub. simpl.
  destruct (decide (m + - m = 0)) as [_|H0]; [|destruct H0; ring].
  rewrite sgn_sub.
  assert (sgn s = Gt) as Hsgn by (by apply Qcgt_alt).
  destruct (v ?= m); simpl; [done| |]; by rewrite Hsgn.
Qed.



End affine.

(** ** Facts about the component *)

Section component_facts.
Variable data : list WellDataPoint.
Implicit Types (p q : WellDataPoint) (i : nat).

Lemma sortedData_perm : sortedData data ≡ₚ data.
Proof. apply Array_sort_perm. Qed.

Lemma sortedData_sorted : StronglySorted depth_le (sortedData data).
Proof. apply Array_sort_sorted. Qed.

Lemma elem_of_sortedData p : p ∈ sortedData data ↔ p ∈ data.
Proof. by rewrite sortedData_perm. Qed.

Lemma sortedData_nil : sortedData data = [] ↔ data = [].
Proof.
  split; intros H.
  - apply Permutation_nil_r. by rewrite <-H, sortedData_perm.
  - by rewrite H.
Qed.

Lemma sortedData_lookup_le i j p q :
  sortedData data !! i = Some p → sortedData data !! j = Some q →
  (i < j)%nat → depth p ≤ depth q.
Proof.
  generalize sortedData_sorted. generalize (sortedData data).
  intros l Hl. revert i j. induction Hl as [|x l Hl IH Hx]; [done|].
  intros [|i] [|j] Hi Hj Hij; simplify_eq/=; try lia.
  - rewrite Forall_forall in Hx. apply Hx. by eapply list_elem_of_lookup_2.
  - apply (IH i j); [done..|lia].
Qed.

Lemma scaleDepth_affine d :
  scaleDepth data d =
    affine padding_top plotHeight (minDepth data) (maxDepth data) d.
Proof. reflexivity. Qed.

Lemma scaleDT_affine v :
  scaleDT data v =
    affine (padding_left + columnWidth * dec 1 10)%Qc
           (columnWidth * dec 8 10)%Qc (minDT data) (maxDT data) v.
Proof. reflexivity. Qed.

Lemma scaleGR_affine v :
  scaleGR data v =
    affine (padding_left + columnWidth * dec 21 10)%Qc
           (columnWidth * dec 8 10)%Qc (minGR data) (maxGR data) v.
Proof. reflexivity. Qed.

(** The range of a field over a non-empty data set. *)
Lemma range_spec (f : WellDataPoint → Qc) :
  data ≠ [] →
  ∃ m M, Math_min (f <$> sortedData data) = Fin m ∧
         Math_max (f <$> sortedData data) = Fin M ∧
         ∀ p, p ∈ data → m ≤ f p ≤ M.
Proof.
  intros Hne. destruct (sortedData data) as [|x l] eqn:Hs.
  { by apply sortedData_nil in Hs. }
  rewrite fmap_cons.
  destruct (Math_min_spec (f x) (f <$> l)) as (m & Hm & _ & Hmle).
  destruct (Math_max_spec (f x) (f <$> l)) as (M & HM & _ & HMle).
  exists m, M. repeat split; [done..| |].
  - rewrite Forall_forall in Hmle. apply Hmle.
    rewrite <-fmap_cons, <-Hs. apply list_elem_of_fmap_2.
    by apply elem_of_sortedData.
  - rewrite Forall_forall in HMle. apply HMle.
    rewrite <-fmap_cons, <-Hs. apply list_elem_of_fmap_2.
    by apply elem_of_sortedData.
Qed.

End component_facts.

Section scale_facts.
Implicit Types (o s m M v : Qc) (x : number).

(** With an empty domain span no input has a finite image. *)
Lemma affine_degenerate_not_finite o s m x :
  0 < s → is_finite (affine o s m m x) = false.
Proof.
  intros Hs. destruct x as [v| | |].
  - rewrite affine_degenerate by done. by destruct (v ?= m).
  - unfold affine, sub. simpl. destruct (decide (m + - m < 0)); simpl;
      assert (sgn s = Gt) as -> by (by apply Qcgt_alt); done.
  - unfold affine, sub. simpl. destruct (decide (m + - m < 0)); simpl;
      assert (sgn s = Gt) as -> by (by apply Qcgt_alt); done.
  - done.
Qed.

Lemma plotHeight_pos : 0 < plotHeight.
Proof. compute_done. Qed.

Lemma track_span_pos : 0 < columnWidth * dec 8 10.
Proof. compute_done. Qed.

End scale_facts.

(** ** Properties of the renderer *)

(** The end-to-end example: two bars, the first from depth 100 to depth
    200 and the second from depth 200 to the bottom of the plot, two
    points on each line track in depth order, and the two categories in
    the legend. *)
Example end_to_end :
  sortedData two_points =
    [point 100 "Shale" 80 40; point 200 "Sandstone" 90 60] ∧
  (λ bar, (bar_y1 bar, bar_y2 bar)) <$> rock_bars (layout two_points) =
    [(scaleDepth two_points (num 100), scaleDepth two_points (num 200));
     (scaleDepth two_points (num 200), (chartHeight - padding_bottom)%js)] ∧
  DT_polyline (layout two_points) =
    [(scaleDT two_points (num 80), scaleDepth two_points (num 100));
     (scaleDT two_points (num 90), scaleDepth two_points (num 200))] ∧
  GR_polyline (layout two_points) =
    [(scaleGR two_points (num 40), scaleDepth two_points (num 100));
     (scaleGR two_points (num 60), scaleDepth two_points (num 200))] ∧
  legend_name <$> legend (layout two_points) = ["Shale"; "Sandstone"]%string.
Proof. repeat split; reflexivity. Qed.





Lemma degenerate_range data (f : WellDataPoint → Qc) :
  Math_min (f <$> sortedData data) = Math_max (f <$> sortedData data) →
  ∃ m, Math_min (f <$> sortedData data) = Fin m ∧
       Math_max (f <$> sortedData data) = Fin m ∧
       ∀ p, p ∈ data → f p = m.
Proof.
  intros Heq. destruct (decide (data = [])) as [->|Hne]; [done|].
  destruct (range_spec data f Hne) as (m & M & Hm & HM & Hin).
  rewrite Hm, HM in Heq. injection Heq as <-.
  exists m. repeat split; [done..|]. intros p Hp.
  destruct (Hin p Hp). by apply Qcle_antisym.
Qed.

(** C1, as the code has it.  The scale functions have no guard for a
    domain whose smallest and largest values coincide: they divide by the
    zero span.  No error is raised, but no input then has a finite image,
    and every data point of the track is sent to NaN, so that all scaled
    points of the track carry the same value, which is not the middle of
    the target range. *)
Theorem degenerate_scale_is_NaN data :
  (minDepth data = maxDepth data →
     (∀ v : number, is_finite (scaleDepth data v) = false) ∧
     (∀ p, p ∈ data → scaleDepth data (depth p) = NaN)) ∧
  (minDT data = maxDT data →
     (∀ v : number, is_finite (scaleDT data v) = false) ∧
     (∀ p, p ∈ data → scaleDT data (DT p) = NaN)) ∧
  (minGR data = maxGR data →
     (∀ v : number, is_finite (scaleGR data v) = false) ∧
     (∀ p, p ∈ data → scaleGR data (GR p) = NaN)).
Proof.
  repeat split.
  - intros v. destruct (degenerate_range data depth H) as (m & Hm & HM & _).
    rewrite scaleDepth_affine. unfold minDepth, maxDepth. rewrite Hm, HM.
    apply affine_degenerate_not_finite, plotHeight_pos.
  - intros p Hp.
    destruct (degenerate_range data depth H) as (m & Hm & HM & Hin).
    rewrite scaleDepth_affine. unfold minDepth, maxDepth. rewrite Hm, HM.
    rewrite affine_degenerate by apply plotHeight_pos.
    by rewrite (proj1 (Qceq_alt _ _) (Hin p Hp)).
  - intros v. destruct (degenerate_range data DT H) as (m & Hm & HM & _).
    rewrite scaleDT_affine. unfold minDT, maxDT. rewrite Hm, HM.
    apply affine_degenerate_not_finite, track_span_pos.
  - intros p Hp.
    destruct (degenerate_range data DT H) as (m & Hm & HM & Hin).
    rewrite scaleDT_affine. unfold minDT, maxDT. rewrite Hm, HM.
    rewrite affine_degenerate by apply track_span_pos.
    by rewrite (proj1 (Qceq_alt _ _) (Hin p Hp)).
  - intros v. destruct (degenerate_range data GR H) as (m & Hm & HM & _).
    rewrite scaleGR_affine. unfold minGR, maxGR. rewrite Hm, HM.
    apply affine_degenerate_not_finite, track_span_pos.
  - intros p Hp.
    destruct (degenerate_range data GR H) as (m & Hm & HM & Hin).
    rewrite scaleGR_affine. unfold minGR, maxGR. rewrite Hm, HM.
    rewrite affine_degenerate by apply track_span_pos.
    by rewrite (proj1 (Qceq_alt _ _) (Hin p Hp)).
Qed.

Lemma degenerate_scale_is_NaN_witness :
  minDepth one_point = maxDepth one_point ∧
  minDT one_point = maxDT one_point ∧
  minGR one_point = maxGR one_point ∧
  scaleDepth one_point (num 100) = NaN ∧
  scaleDT one_point (num 80) = NaN ∧
  scaleGR one_point (num 40) = NaN.
Proof.
  assert (minDepth one_point = maxDepth one_point) as Hd by reflexivity.
  assert (minDT one_point = maxDT one_point) as Ht by reflexivity.
  assert (minGR one_point = maxGR one_point) as Hg by reflexivity.
  destruct (degenerate_scale_is_NaN one_point) as (H1 & H2 & H3).
  split; [exact Hd|]. split; [exact Ht|]. split; [exact Hg|].
  split; [|split].
  - apply (proj2 (H1 Hd) (point 100 "Shale" 80 40)). left.
  - apply (proj2 (H2 Ht) (point 100 "Shale" 80 40)). left.
  - apply (proj2 (H3 Hg) (point 100 "Shale" 80 40)). left.
Defined.

(** C1 as stated fails on a single record: its three domains are
    degenerate and each scale sends the record to NaN instead of the
    middle of the target range. *)
Lemma degenerate_scale_not_midpoint :
  minDepth one_point = maxDepth one_point ∧
  minDT one_point = maxDT one_point ∧
  minGR one_point = maxGR one_point ∧
  scaleDepth one_point (num 100) ≠ midpoint padding_top plotHeight ∧
  scaleDT one_point (num 80) ≠
    midpoint (padding_left + columnWidth * dec 1 10) (columnWidth * dec 8 10) ∧
  scaleGR one_point (num 40) ≠
    midpoint (padding_left + columnWidth * dec 21 10) (columnWidth * dec 8 10).
Proof.
  split; [reflexivity|]. split; [reflexivity|]. split; [reflexivity|].
  split; [|split]; compute_done.
Qed.

(** ** Facts about the colour table *)

Section color_facts.
Implicit Types (l acc : list string) (r : string) (k : nat).

Lemma Set_from_acc l acc :
  foldl Set_add acc l = acc ++ filter (λ y, y ∉ acc) (first_seen l).
Proof.
  revert acc. induction l as [|x l IH]; intros acc; simpl.
  { by rewrite app_nil_r. }
  rewrite IH. unfold Set_add. destruct (decide (x ∈ acc)) as [Hx|Hx].
  - f_equal. rewrite filter_cons. destruct (decide (x ∉ acc)); [done|].
    rewrite list_filter_filter. apply list_filter_iff.
    intros y. split; [|tauto]. intros Hy. split; [done|]. congruence.
  - rewrite <-app_assoc. f_equal. simpl.
    rewrite filter_cons. destruct (decide (x ∉ acc)); [|done]. f_equal.
    rewrite list_filter_filter. apply list_filter_iff.
    intros y. rewrite not_elem_of_app, list_elem_of_singleton. tauto.
Qed.

(** The code's [Set] agrees with the specification's first-seen order. *)
Lemma Set_from_first_seen l : Set_from l = first_seen l.
Proof.
  unfold Set_from. rewrite Set_from_acc. simpl.
  induction (first_seen l) as [|x l' IH]; [done|].
  rewrite filter_cons. destruct (decide (x ∉ [])) as [_|H]; [by f_equal|].
  destruct H. apply not_elem_of_nil.
Qed.

Lemma elem_of_first_seen l r : r ∈ first_seen l ↔ r ∈ l.
Proof.
  induction l as [|x l IH]; [done|]. simpl.
  rewrite !elem_of_cons, list_elem_of_filter, IH.
  destruct (decide (r = x)); tauto.
Qed.

Lemma NoDup_first_seen l : NoDup (first_seen l).
Proof.
  induction l as [|x l IH]; simpl; constructor.
  - rewrite list_elem_of_filter. tauto.
  - by apply NoDup_filter.
Qed.

Lemma lookup_proto_key (o : object) :
  o !! proto_key = Some Object_prototype.
Proof. done. Qed.

Lemma lookup_own (o : object) r : r ≠ proto_key → o !! r = own o !! r.
Proof.
  intros Hr. unfold lookup, object_lookup, object_get.
  by destruct (decide (r = proto_key)).
Qed.

Lemma own_object_set (o : object) r v :
  r ≠ proto_key → own (object_set r v o) = <[r := v]> (own o).
Proof. intros Hr. unfold object_set. by destruct (decide (r = proto_key)). Qed.

Lemma color_table_snoc l r :
  color_table (l ++ [r]) = object_set r (color_at (length l)) (color_table l).
Proof.
  unfold color_table. rewrite imap_app, foldl_app. simpl.
  by rewrite Nat.add_0_r.
Qed.

Lemma color_table_own_None l r : r ∉ l → own (color_table l) !! r = None.
Proof.
  induction l as [|x l IH] using rev_ind; [done|].
  rewrite not_elem_of_app, list_elem_of_singleton. intros [Hl Hx].
  rewrite color_table_snoc. unfold object_set.
  destruct (decide (x = proto_key)); [by apply IH|]. simpl.
  rewrite lookup_insert_ne by done. by apply IH.
Qed.

Lemma color_table_own_proto l : own (color_table l) !! proto_key = None.
Proof.
  induction l as [|x l IH] using rev_ind; [done|].
  rewrite color_table_snoc. unfold object_set.
  destruct (decide (x = proto_key)); [done|]. simpl.
  by rewrite lookup_insert_ne.
Qed.

(** The [k]-th category of a duplicate-free list gets colour [k], unless
    it is [proto_key]. *)
Lemma color_table_lookup l k r :
  NoDup l → l !! k = Some r → r ≠ proto_key →
  color_table l !! r = Some (color_at k).
Proof.
  intros Hl Hk Hr. rewrite lookup_own by done.
  revert k Hl Hk. induction l as [|x l IH] using rev_ind; [done|].
  intros k [Hl [Hx _]]%NoDup_app Hk.
  rewrite color_table_snoc.
  apply lookup_snoc_Some in Hk as [[Hlt Hk]|[-> ->]].
  - unfold object_set. destruct (decide (x = proto_key)); [by eapply IH|].
    simpl. rewrite lookup_insert_ne; [by eapply IH|].
    intros ->. apply (Hx r); [by eapply list_elem_of_lookup_2|left].
  - rewrite own_object_set by done. by rewrite lookup_insert_eq.
Qed.

Lemma color_table_size l :
  NoDup l → size (own (color_table l)) = length (filter (λ r, r ≠ proto_key) l).
Proof.
  induction l as [|x l IH] using rev_ind; [done|].
  intros [Hl [Hx _]]%NoDup_app.
  rewrite color_table_snoc, filter_app, length_app, <-IH by done.
  unfold object_set. rewrite filter_cons, filter_nil.
  destruct (decide (x = proto_key)) as [->|Hp].
  - destruct (decide (proto_key ≠ proto_key)); [done|]. simpl. lia.
  - destruct (decide (x ≠ proto_key)); [|done]. simpl.
    rewrite map_size_insert_None; [lia|].
    apply color_table_own_None. intros ?. by eapply Hx; [|left].
Qed.

Lemma color_at_palette k :
  colors !! (k `mod` length colors)%nat = Some (color_at k).
Proof.
  unfold color_at.
  destruct (colors !! (k `mod` length colors)%nat) eqn:H; [done|].
  apply lookup_ge_None in H.
  pose proof (Nat.mod_upper_bound k (length colors)) as Hlt.
  simpl in *. lia.
Qed.

Lemma color_at_truthy k :
  color_at k ≠ EmptyString ∧ color_at k ≠ fallback_fill.
Proof.
  pose proof (color_at_palette k) as H%list_elem_of_lookup_2.
  revert H. generalize (color_at k). intros c Hc.
  repeat (apply elem_of_cons in Hc as [->|Hc]; [done|]).
  by apply elem_of_nil in Hc.
Qed.
End color_facts.

Section color_claims.
Variable data : list WellDataPoint.

Lemma rockTypes_first_seen :
  rockTypes data = first_seen (rockComposition <$> sortedData data).
Proof. apply Set_from_first_seen. Qed.

Lemma NoDup_rockTypes : NoDup (rockTypes data).
Proof. rewrite rockTypes_first_seen. apply NoDup_first_seen. Qed.

Lemma elem_of_rockTypes r :
  r ∈ rockTypes data ↔ ∃ p, p ∈ data ∧ rockComposition p = r.
Proof.
  rewrite rockTypes_first_seen, elem_of_first_seen, list_elem_of_fmap.
  split.
  - intros (p & -> & Hp). exists p. by rewrite <-elem_of_sortedData.
  - intros (p & Hp & <-). exists p. by rewrite elem_of_sortedData.
Qed.

Lemma colorMap_lookup k r :
  rockTypes data !! k = Some r → r ≠ proto_key →
  colorMap data !! r = Some (color_at k).
Proof. apply color_table_lookup, NoDup_rockTypes. Qed.

(** What the table holds for the category of a record. *)
Lemma colorMap_lookup_data p :
  p ∈ data →
  ∃ k, rockTypes data !! k = Some (rockComposition p) ∧
       colorMap data !! rockComposition p =
         Some (if decide (rockComposition p = proto_key)
               then Object_prototype else color_at k).
Proof.
  intros Hp.
  assert (rockComposition p ∈ rockTypes data) as [k Hk]%list_elem_of_lookup_1
    by (apply elem_of_rockTypes; eauto).
  exists k. split; [done|].
  destruct (decide (rockComposition p = proto_key)) as [->|Hr]; [done|].
  by apply colorMap_lookup.
Qed.
End color_claims.

(** Away from the key ["__proto__"] the colour table has one entry for
    each distinct category, in first-seen order, and the [k]-th distinct
    category (from 0) gets the palette colour of index [k] modulo the
    palette length. *)
Lemma colorMap_first_seen_own_keys data :
  let distinct := first_seen (rockComposition <$> sortedData data) in
  rockTypes data = distinct ∧
  NoDup distinct ∧
  (∀ r, r ∈ distinct ↔ ∃ p, p ∈ data ∧ rockComposition p = r) ∧
  size (own (colorMap data)) = length (filter (λ r, r ≠ proto_key) distinct) ∧
  (∀ r, r ∉ distinct → own (colorMap data) !! r = None) ∧
  (∀ k r, distinct !! k = Some r → r ≠ proto_key →
     colorMap data !! r = colors !! (k `mod` length colors)%nat) ∧
  NoDup colors ∧
  colors !! (10 `mod` length colors)%nat = colors !! 0%nat.
Proof.
  intros distinct. subst distinct. rewrite <-rockTypes_first_seen.
  split; [done|]. split; [apply NoDup_rockTypes|].
  split; [apply elem_of_rockTypes|].
  split; [apply color_table_size, NoDup_rockTypes|].
  split; [apply color_table_own_None|].
  split; [|split; [compute_done|done]].
  intros k r Hk Hr. rewrite color_at_palette. by apply colorMap_lookup.
Qed.

(** C3. The table misses the category ["__proto__"].  For the two
    categories ["__proto__"] and ["Shale"], in this first-seen order, the
    colour table has one entry, not two: the assignment of the first
    palette colour to ["__proto__"] is lost, the table reads back the
    prototype object for it, and the legend shows that object in place of
    a palette colour.  ["Shale"], the second category, has the second
    palette colour. *)
Theorem colorMap_misses_proto_key :
  rockComposition <$> sortedData proto_points = ["__proto__"; "Shale"]%string ∧
  rockTypes proto_points = ["__proto__"; "Shale"]%string ∧
  own (colorMap proto_points) = {[ "Shale"%string := "#ec4899"%string ]} ∧
  size (own (colorMap proto_points)) = 1%nat ∧
  colorMap proto_points !! "__proto__"%string
    = Some "[object Object]"%string ∧
  colors !! (0 `mod` length colors)%nat = Some "#8b5cf6"%string ∧
  legend (layout proto_points) =
    [ {| legend_color := Some "[object Object]"; legend_name := "__proto__" |};
      {| legend_color := Some "#ec4899"; legend_name := "Shale" |} ]%string.
Proof.
  assert (sortedData proto_points = proto_points) as Hs by (by vm_compute).
  assert (rockTypes proto_points = ["__proto__"; "Shale"]%string) as Hr.
  { unfold rockTypes. rewrite Hs. by vm_compute. }
  assert (colorMap proto_points
          = Object {[ "Shale"%string := "#ec4899"%string ]}) as Hc.
  { unfold colorMap. rewrite Hr. simpl. unfold object_set. simpl.
    by rewrite insert_empty. }
  split; [by rewrite Hs|]. split; [done|].
  split; [by rewrite Hc|].
  split; [rewrite Hc; simpl; apply map_size_singleton|].
  split; [done|]. split; [done|].
  change (legend (layout proto_points))
    with (legendEntry proto_points <$> rockTypes proto_points).
  rewrite Hr. unfold legendEntry. rewrite Hc. cbn [fmap list_fmap].
  rewrite lookup_proto_key, lookup_own by done. simpl.
  by rewrite lookup_singleton_eq.
Qed.

(** Every rock bar is filled with what the table holds for its category:
    a palette colour, or the prototype object for the category
    ["__proto__"]; the fallback colour is never taken. *)
Lemma rock_bar_fill_cases data bar :
  bar ∈ rock_bars (layout data) →
  (rect_fill bar ∈ colors ∨ rect_fill bar = Object_prototype) ∧
  rect_fill bar ≠ fallback_fill.
Proof.
  intros (i & p & -> & Hi)%elem_of_lookup_imap.
  assert (p ∈ data) as (k & _ & Hk)%colorMap_lookup_data
    by (apply elem_of_sortedData; by eapply list_elem_of_lookup_2).
  unfold rockBar. cbn [rect_fill]. rewrite Hk. unfold or_else.
  destruct (decide (rockComposition p = proto_key)) as [_|_].
  { by destruct (decide (Object_prototype = EmptyString)); [|split; [right|]]. }
  destruct (color_at_truthy k) as [Hne Hfb].
  destruct (decide (color_at k = EmptyString)); [done|].
  split; [|done]. left. eapply list_elem_of_lookup_2, color_at_palette.
Qed.

(** C9. The bar of a record whose category is ["__proto__"] is not filled
    with a palette colour.  The category is no key of the colour table,
    the fill expression reads the prototype object for it, which is
    truthy, and the bar gets that object as its fill: neither a colour of
    the palette nor the fallback colour.  The bar of the other record has
    its palette colour. *)
Theorem rock_bar_fill_proto_key :
  rockComposition <$> sortedData proto_points = ["__proto__"; "Shale"]%string ∧
  own (colorMap proto_points) !! "__proto__"%string = None ∧
  rect_fill <$> rock_bars (layout proto_points)
    = ["[object Object]"; "#ec4899"]%string ∧
  Object_prototype = "[object Object]"%string ∧
  (Object_prototype ∉ colors) ∧
  Object_prototype ≠ fallback_fill ∧
  ("#ec4899"%string : string) ∈ colors.
Proof.
  assert (sortedData proto_points = proto_points) as Hs by (by vm_compute).
  split; [by rewrite Hs|]. split; [apply color_table_own_proto|].
  split; [|split; [done|split; [compute_done|split; [done|compute_done]]]].
  assert (colorMap proto_points !! "__proto__"%string
          = Some Object_prototype) as H1 by done.
  assert (colorMap proto_points !! "Shale"%string
          = Some "#ec4899"%string) as H2.
  { apply (colorMap_lookup proto_points 1); [|done].
    unfold rockTypes. rewrite Hs. by vm_compute. }
  change (rock_bars (layout proto_points))
    with (imap (rockBar proto_points) (sortedData proto_points)).
  rewrite Hs. unfold proto_points at 2.
  cbn [imap fmap list_fmap rect_fill rockBar compose rockComposition point].
  by rewrite H1, H2.
Qed.

(** C4. For the empty data set the component returns the "no data"
    placeholder, which carries no range, scale or layout; for a data set
    with at least one record it returns the chart. *)
Theorem render_empty_iff data :
  render [] = NoData ∧
  (render data = NoData ↔ data = []) ∧
  (∀ p rest, render (p :: rest) = Chart (layout (p :: rest))).
Proof.
  split; [done|]. split; [|done].
  destruct data; [done|]. split; intros; discriminate.
Qed.

(** C6. The sort rearranges the data set so that depths never decrease,
    and records of equal depth keep the relative order they have in the
    input. *)
Theorem sortedData_stable data :
  sortedData data ≡ₚ data ∧
  (∀ i j p q,
     sortedData data !! i = Some p → sortedData data !! j = Some q →
     (i < j)%nat → depth p ≤ depth q) ∧
  (∀ d, filter (at_depth d) (sortedData data) = filter (at_depth d) data).
Proof.
  split; [apply sortedData_perm|]. split.
  - apply sortedData_lookup_le.
  - intros d. apply Array_sort_filter.
Qed.

Lemma sortedData_stable_witness :
  depth (point 100 "Shale" 80 40) ≤ depth (point 300 "Limestone" 70 30) ∧
  filter (at_depth (num 100)) (sortedData tie_points) =
    [point 100 "Shale" 80 40; point 100 "Sandstone" 90 60].
Proof.
  destruct (sortedData_stable tie_points) as (_ & Hle & Hst).
  split.
  - apply (Hle 0%nat 2%nat); [reflexivity|reflexivity|lia].
  - rewrite Hst. reflexivity.
Defined.

(** C8. The text of a rock bar, the category name of its record, is drawn
    exactly when the height of the bar exceeds 20; the rectangle with its
    fill is drawn in either case. *)
Theorem bar_text_iff_tall data i bar :
  rock_bars (layout data) !! i = Some bar →
  ∃ p, sortedData data !! i = Some p ∧
    (is_Some (bar_text bar) ↔ (Fin (num 20) < rect_height bar)%js) ∧
    (∀ t, bar_text bar = Some t → text_content t = rockComposition p) ∧
    (¬ (Fin (num 20) < rect_height bar)%js → bar_text bar = None) ∧
    rect_fill bar =
      or_else (colorMap data !! rockComposition p) fallback_fill.
Proof.
  change (rock_bars (layout data)) with (imap (rockBar data) (sortedData data)).
  rewrite list_lookup_imap. intros Hbar.
  destruct (sortedData data !! i) as [p|] eqn:Hi; [|done].
  injection Hbar as <-. exists p. split; [done|].
  unfold rockBar. cbn [bar_text rect_height rect_fill]. unfold gt.
  case_bool_decide as Hgt.
  - split; [|split; [by intros t [= <-]|done]].
    split; [done|by eexists].
  - split; [|done]. split; [by intros ?%is_Some_None|done].
Qed.

Lemma bar_text_iff_tall_witness :
  ∃ tall short,
    rock_bars (layout two_points) = [tall; short] ∧
    is_Some (bar_text tall) ∧ bar_text short = None.
Proof.
  destruct (rock_bars (layout two_points)) as [|tall [|short [|]]] eqn:Hbars;
    try discriminate Hbars.
  exists tall, short. split; [done|].
  destruct (bar_text_iff_tall two_points 0 tall) as (_ & _ & Ht & _).
  { by rewrite Hbars. }
  destruct (bar_text_iff_tall two_points 1 short) as (_ & _ & _ & _ & Hs & _).
  { by rewrite Hbars. }
  injection Hbars as <- <-. split.
  - apply Ht. vm_compute. reflexivity.
  - apply Hs. vm_compute. discriminate.
Defined.

(** ** Tiling of the rock column *)

Section number_order.
Implicit Types (x y z : number).

Lemma le_trans x y z : (x ≤ y)%js → (y ≤ z)%js → (x ≤ z)%js.
Proof. destruct x, y, z; simpl; try done. apply Qcle_trans. Qed.

Lemma lt_le_False x y : (x < y)%js → (y ≤ x)%js → False.
Proof. destruct x, y; simpl; try done. apply Qclt_not_le. Qed.

End number_order.

Section tiling.
Implicit Types (top bottom y : number) (bars : list RockBar) (i j : nat).


End tiling.

Section rock_column.
Variable data : list WellDataPoint.

Lemma rock_bars_imap :
  rock_bars (layout data) = imap (rockBar data) (sortedData data).
Proof. reflexivity. Qed.

Lemma rock_bars_lookup i :
  rock_bars (layout data) !! i = rockBar data i <$> sortedData data !! i.
Proof. rewrite rock_bars_imap. apply list_lookup_imap. Qed.




End rock_column.

(** ** Rendering a reordered data set *)

(** Everything the chart shows is computed from the sorted data. *)
Lemma layout_ext data data' :
  sortedData data = sortedData data' → layout data = layout data'.
Proof.
  intros Hs.
  unfold layout, depthTick, rockBar, DT_point, GR_point, legendEntry,
    scaleDepth, scaleDT, scaleGR, depthTickInterval, depthRange, colorMap,
    rockTypes, minDepth, maxDepth, minDT, maxDT, minGR, maxGR.
  by rewrite Hs.
Qed.

Lemma render_ext data data' :
  data ≡ₚ data' → sortedData data = sortedData data' →
  render data = render data'.
Proof.
  intros Hperm Hs. unfold render. destruct data as [|p l], data' as [|p' l'].
  - done.
  - by apply Permutation_nil_cons in Hperm.
  - symmetry in Hperm. by apply Permutation_nil_cons in Hperm.
  - f_equal. by apply layout_ext.
Qed.

(** Two data sets with the same records at each depth, in the same order,
    sort to the same list. *)
Lemma sortedData_ext data data' :
  (∀ d, filter (at_depth d) data = filter (at_depth d) data') →
  sortedData data = sortedData data'.
Proof.
  intros Hf. apply sorted_stable_unique; [apply sortedData_sorted..|].
  intros d. unfold sortedData. by rewrite !Array_sort_filter.
Qed.

(** When no two records share a depth, a permutation cannot change the
    order of records of equal depth. *)
Lemma NoDup_depth_filter data data' d :
  data ≡ₚ data' → NoDup (depth <$> data) →
  filter (at_depth d) data = filter (at_depth d) data'.
Proof.
  induction 1 as [|p l l' Hperm IH|p q l|l1 l2 l3 H12 IH12 H23 IH23]; intros Hnd.
  - done.
  - rewrite fmap_cons in Hnd. apply NoDup_cons in Hnd as [_ Hnd].
    by rewrite !filter_cons, IH.
  - rewrite !filter_cons.
    destruct (decide (at_depth d p)) as [Hp|]; [|done].
    destruct (decide (at_depth d q)) as [Hq|]; [|done].
    rewrite !fmap_cons in Hnd. apply NoDup_cons in Hnd as [Hnd _].
    destruct Hnd. unfold at_depth in *. rewrite Hp, Hq. left.
  - rewrite IH12 by done. apply IH23. by rewrite <-H12.
Qed.

(** C2, as the code has it.  Rendering a permutation of a data set gives
    the same sorted records, the same colour table and the same layout
    whenever the permutation keeps the records of equal depth in their
    relative order, in particular whenever no two records share a
    depth. *)
Theorem render_permutation data data' :
  data ≡ₚ data' →
  (∀ d, filter (at_depth d) data = filter (at_depth d) data') ∨
  NoDup (depth <$> data) →
  sortedData data = sortedData data' ∧
  colorMap data = colorMap data' ∧
  layout data = layout data' ∧
  render data = render data'.
Proof.
  intros Hperm Horder.
  assert (sortedData data = sortedData data') as Hs.
  { apply sortedData_ext. destruct Horder as [Hf|Hnd]; [done|].
    intros d. by apply NoDup_depth_filter. }
  split; [done|]. split; [|split].
  - unfold colorMap, rockTypes. by rewrite Hs.
  - by apply layout_ext.
  - by apply render_ext.
Qed.

Lemma render_permutation_witness :
  two_points ≡ₚ reverse two_points ∧
  NoDup (depth <$> two_points) ∧
  sortedData two_points = sortedData (reverse two_points) ∧
  render two_points = render (reverse two_points).
Proof.
  assert (two_points ≡ₚ reverse two_points) as Hperm
    by apply Permutation_swap.
  assert (NoDup (depth <$> two_points)) as Hnd.
  { apply (bool_decide_unpack _). vm_compute. exact I. }
  destruct (render_permutation two_points (reverse two_points) Hperm
              (or_intror Hnd)) as (Hs & _ & _ & Hr).
  split; [exact Hperm|]. split; [exact Hnd|]. split; [exact Hs|exact Hr].
Defined.

(** C2 as stated fails on two records of equal depth: the sort keeps them
    in input order, so the two orders of the same data set give different
    sorted records, different colours and different layouts. *)
Lemma render_permutation_counterexample :
  shale_first ≠ [] ∧
  shale_first ≡ₚ sandstone_first ∧
  sortedData shale_first ≠ sortedData sandstone_first ∧
  colorMap shale_first !! "Shale"%string = Some "#8b5cf6"%string ∧
  colorMap sandstone_first !! "Shale"%string = Some "#ec4899"%string ∧
  legend (layout shale_first) ≠ legend (layout sandstone_first) ∧
  render shale_first ≠ render sandstone_first.
Proof.
  split; [discriminate|]. split; [apply Permutation_swap|].
  split; [compute_done|]. split; [reflexivity|]. split; [reflexivity|].
  assert (legend (layout shale_first) ≠ legend (layout sandstone_first))
    as Hlegend by compute_done.
  split; [exact Hlegend|]. intros H. apply Hlegend.
  exact (f_equal (λ r, match r with Chart l => legend l | NoData => [] end) H).
Qed.

(** ** More about the sort *)

(** X1. The sort leaves a data set as it is exactly when its depths never
    decrease; sorting twice is sorting once, and the chart of the sorted
    data is the chart of the data. *)
Theorem sortedData_fixed_point data :
  (sortedData data = data ↔ StronglySorted depth_le data) ∧
  sortedData (sortedData data) = sortedData data ∧
  render (sortedData data) = render data.
Proof.
  assert (∀ l, StronglySorted depth_le l → sortedData l = l) as Hfix.
  { intros l Hl. symmetry. by apply stable_sort_unique. }
  split; [|split].
  - split; [|apply Hfix]. intros <-. apply sortedData_sorted.
  - apply Hfix, sortedData_sorted.
  - apply render_ext; [apply sortedData_perm|].
    apply Hfix, sortedData_sorted.
Qed.

Lemma sortedData_fixed_point_witness :
  StronglySorted depth_le (reverse two_points) ∧
  sortedData (reverse two_points) = reverse two_points.
Proof.
  assert (StronglySorted depth_le (reverse two_points)) as Hs.
  { apply (sortedData_sorted two_points). }
  split; [exact Hs|].
  exact (proj2 (proj1 (sortedData_fixed_point (reverse two_points))) Hs).
Defined.

(** ** Heights and texts of the rock bars *)










(** ** Fill colours *)

Lemma rockBar_fill data i p :
  p ∈ data →
  ∃ k, rockTypes data !! k = Some (rockComposition p) ∧
       rect_fill (rockBar data i p) =
         if decide (rockComposition p = proto_key)
         then Object_prototype else color_at k.
Proof.
  intros (k & Hk & Hc)%colorMap_lookup_data. exists k. split; [done|].
  unfold rockBar. cbn [rect_fill]. rewrite Hc. unfold or_else.
  destruct (decide (rockComposition p = proto_key)); [done|].
  destruct (color_at_truthy k) as [Hne _].
  by destruct (decide (color_at k = EmptyString)).
Qed.

Lemma color_at_not_prototype k : color_at k ≠ Object_prototype.
Proof.
  pose proof (color_at_palette k) as H%list_elem_of_lookup_2.
  revert H. generalize (color_at k). intros c Hc.
  repeat (apply elem_of_cons in Hc as [->|Hc]; [done|]).
  by apply elem_of_nil in Hc.
Qed.

Lemma color_at_inj k k' :
  (k < length colors)%nat → (k' < length colors)%nat →
  color_at k = color_at k' → k = k'.
Proof.
  intros Hk Hk' Heq.
  pose proof (color_at_palette k) as H1.
  pose proof (color_at_palette k') as H2.
  rewrite Nat.mod_small in H1, H2 by done. rewrite Heq in H1.
  eapply NoDup_lookup; [|exact H1|exact H2]. compute_done.
Qed.

(** X12. Two rock bars of the same category have the same fill, and when the
    data has no more distinct categories than the palette has colours,
    two bars of the same fill have the same category. *)
Theorem fill_identifies_category data i j p q bar bar' :
  sortedData data !! i = Some p → sortedData data !! j = Some q →
  rock_bars (layout data) !! i = Some bar →
  rock_bars (layout data) !! j = Some bar' →
  (rockComposition p = rockComposition q → rect_fill bar = rect_fill bar') ∧
  ((length (rockTypes data) ≤ length colors)%nat →
   rect_fill bar = rect_fill bar' → rockComposition p = rockComposition q).
Proof.
  intros Hi Hj. rewrite !rock_bars_lookup, Hi, Hj. intros [= <-] [= <-].
  assert (p ∈ data) as Hp
    by (apply elem_of_sortedData; by eapply list_elem_of_lookup_2).
  assert (q ∈ data) as Hq
    by (apply elem_of_sortedData; by eapply list_elem_of_lookup_2).
  destruct (rockBar_fill data i p Hp) as (k & Hk & ->).
  destruct (rockBar_fill data j q Hq) as (k' & Hk' & ->).
  split.
  - intros Heq. rewrite Heq in Hk. rewrite Heq.
    destruct (decide (rockComposition q = proto_key)); [done|]. f_equal.
    eapply NoDup_lookup; [apply NoDup_rockTypes|done..].
  - intros Hlen Hc.
    pose proof (lookup_lt_Some _ _ _ Hk) as Hlt.
    pose proof (lookup_lt_Some _ _ _ Hk') as Hlt'.
    destruct (decide (rockComposition p = proto_key)) as [Hp'|Hp'],
      (decide (rockComposition q = proto_key)) as [Hq'|Hq'].
    + congruence.
    + by destruct (color_at_not_prototype k').
    + by destruct (color_at_not_prototype k).
    + assert (k = k') as -> by (apply color_at_inj; [lia..|done]).
      congruence.
Qed.

Lemma fill_identifies_category_witness :
  ∃ bar bar',
    rock_bars (layout four_points) !! 0%nat = Some bar ∧
    rock_bars (layout four_points) !! 2%nat = Some bar' ∧
    rect_fill bar = rect_fill bar'.
Proof.
  destruct (rock_bars (layout four_points) !! 0%nat) as [bar|] eqn:Hbar;
    [|discriminate Hbar].
  destruct (rock_bars (layout four_points) !! 2%nat) as [bar'|] eqn:Hbar';
    [|discriminate Hbar'].
  exists bar, bar'. split; [reflexivity|]. split; [reflexivity|].
  apply (proj1 (fill_identifies_category four_points 0 2
                  (point 100 "Sandstone" 80 40) (point 300 "Sandstone" 85 50)
                  bar bar' eq_refl eq_refl Hbar Hbar')).
  reflexivity.
Defined.

(** ** Rows of an uploaded sheet *)

Section upload.
Import Upload.
Implicit Types (a b v : value) (row : gmap string value).

Lemma truthy_defined v :
  truthy v = true →
  v ≠ VUndefined ∧ v ≠ VNull ∧ v ≠ VNum NaN ∧ v ≠ VBool false ∧
  v ≠ VNum (Fin 0) ∧ v ≠ VStr EmptyString.
Proof. intros Hv. repeat split; intros ->; done. Qed.

Lemma or_chain_nil row d : first_truthy_cell row [] d d.
Proof. right. split; [done|]. by intros h ?%elem_of_nil. Qed.

(** One more header in front of a chain. *)
Lemma or_chain_cons row h headers d v :
  first_truthy_cell row headers d v →
  first_truthy_cell row (h :: headers) d
    (if truthy (get row h) then get row h else v).
Proof.
  intros Hv. destruct (truthy (get row h)) eqn:Hh.
  { left. exists 0%nat, h. repeat split; [done..|]. intros j h' Hj. lia. }
  destruct Hv as [(i & h0 & Hi & Ht & -> & Hbefore)|[-> Hnone]].
  - left. exists (S i), h0. split; [done|]. split; [done|]. split; [done|].
    intros [|j] h' Hj Hh'; [by injection Hh' as <-|].
    apply (Hbefore j); [lia|done].
  - right. split; [done|].
    intros h' [->|Hh']%elem_of_cons; [done|by apply Hnone].
Qed.

(** X13. Each field of a parsed row is the cell of the row under the first
    header of its column whose cell is truthy, and the default of the
    column (the number 0 or the empty string) when the row has no truthy
    cell under any of these headers.  So no field is [undefined], [null],
    [NaN] or [false]. *)
Theorem parseRow_fields_defined row :
  let r := parseRow row in
  first_truthy_cell row depth_headers (VNum (Fin 0)) (row_depth r) ∧
  first_truthy_cell row rock_headers (VStr EmptyString)
                    (row_rockComposition r) ∧
  first_truthy_cell row DT_headers (VNum (Fin 0)) (row_DT r) ∧
  first_truthy_cell row GR_headers (VNum (Fin 0)) (row_GR r) ∧
  Forall (λ v, v ≠ VUndefined ∧ v ≠ VNull ∧ v ≠ VNum NaN ∧ v ≠ VBool false)
         [row_depth r; row_rockComposition r; row_DT r; row_GR r].
Proof.
  intros r. subst r.
  assert (∀ h1 h2 d, or (or (get row h1) (get row h2)) d
            = if truthy (get row h1) then get row h1
              else if truthy (get row h2) then get row h2 else d) as H2.
  { intros h1 h2 d. unfold or.
    destruct (truthy (get row h1)) eqn:E1; simpl; rewrite ?E1; [done|].
    by destruct (truthy (get row h2)) eqn:E2. }
  assert (∀ h1 h2 h3 d,
            or (or (or (get row h1) (get row h2)) (get row h3)) d
            = if truthy (get row h1) then get row h1
              else if truthy (get row h2) then get row h2
              else if truthy (get row h3) then get row h3 else d) as H3.
  { intros h1 h2 h3 d. unfold or.
    destruct (truthy (get row h1)) eqn:E1; simpl; rewrite ?E1; [done|].
    destruct (truthy (get row h2)) eqn:E2; simpl; rewrite ?E2; [done|].
    by destruct (truthy (get row h3)) eqn:E3. }
  assert (∀ h1 h2 h3 h4 d,
            or (or (or (or (get row h1) (get row h2)) (get row h3))
                   (get row h4)) d
            = if truthy (get row h1) then get row h1
              else if truthy (get row h2) then get row h2
              else if truthy (get row h3) then get row h3
              else if truthy (get row h4) then get row h4 else d) as H4.
  { intros h1 h2 h3 h4 d. unfold or.
    destruct (truthy (get row h1)) eqn:E1; simpl; rewrite ?E1; [done|].
    destruct (truthy (get row h2)) eqn:E2; simpl; rewrite ?E2; [done|].
    destruct (truthy (get row h3)) eqn:E3; simpl; rewrite ?E3; [done|].
    by destruct (truthy (get row h4)) eqn:E4. }
  assert (first_truthy_cell row depth_headers (VNum (Fin 0))
            (row_depth (parseRow row))) as Hd.
  { unfold parseRow. cbn [row_depth]. rewrite H3.
    repeat apply or_chain_cons. apply or_chain_nil. }
  assert (first_truthy_cell row rock_headers (VStr EmptyString)
            (row_rockComposition (parseRow row))) as Hr.
  { unfold parseRow. cbn [row_rockComposition]. rewrite H4.
    repeat apply or_chain_cons. apply or_chain_nil. }
  assert (first_truthy_cell row DT_headers (VNum (Fin 0))
            (row_DT (parseRow row))) as Ht.
  { unfold parseRow. cbn [row_DT]. rewrite H2.
    repeat apply or_chain_cons. apply or_chain_nil. }
  assert (first_truthy_cell row GR_headers (VNum (Fin 0))
            (row_GR (parseRow row))) as Hg.
  { unfold parseRow. cbn [row_GR]. rewrite H2.
    repeat apply or_chain_cons. apply or_chain_nil. }
  assert (∀ headers d v, first_truthy_cell row headers d v →
            d = VNum (Fin 0) ∨ d = VStr EmptyString →
            v ≠ VUndefined ∧ v ≠ VNull ∧ v ≠ VNum NaN ∧ v ≠ VBool false)
    as Hdef.
  { intros headers d v [(i & h & _ & Htr & -> & _)|[-> _]] Hdflt.
    - apply truthy_defined in Htr. tauto.
    - destruct Hdflt as [-> | ->]; by repeat split. }
  split; [done|]. split; [done|]. split; [done|]. split; [done|].
  repeat (constructor; [eapply Hdef; [eassumption|auto]|]).
  constructor.
Qed.
End upload.

Section upload_round_trip.
Import Upload.

Lemma or_num_default (q : Qc) :
  or (VNum (Fin q)) (VNum (Fin 0)) = VNum (Fin q).
Proof.
  unfold or. simpl. case_bool_decide as Hq; [done|].
  try apply dec_stable in Hq. by subst.
Qed.

Lemma or_str_default (s : string) :
  or (VStr s) (VStr EmptyString) = VStr s.
Proof.
  unfold or. simpl. case_bool_decide as Hs; [done|].
  try apply dec_stable in Hs. by subst.
Qed.

Lemma or_undefined_l (b : value) : or VUndefined b = b.
Proof. done. Qed.

(** A missing cell in the middle of a chain changes nothing. *)
Lemma or_undefined_skip (a d : value) : or (or a VUndefined) d = or a d.
Proof. unfold or. by destruct (truthy a) eqn:Ha; rewrite ?Ha. Qed.

(** X14. A sheet that has one recognised header for each field, with numbers
    under the three numeric ones and a text under the fourth, uploads to
    its data points, also where a number is 0 or the text is empty. *)
Theorem upload_round_trip hd hr ht hg p :
  hd ∈ depth_headers → hr ∈ rock_headers →
  ht ∈ DT_headers → hg ∈ GR_headers →
  as_point (parseRow (sheet_row hd hr ht hg p)) = Some p.
Proof.
  intros Hd Hr Ht Hg. unfold depth_headers, rock_headers, DT_headers,
    GR_headers in *.
  repeat (apply elem_of_cons in Hd as [->|Hd]);
    [| | |by apply elem_of_nil in Hd];
  (repeat (apply elem_of_cons in Hr as [->|Hr]);
    [| | | |by apply elem_of_nil in Hr]);
  (repeat (apply elem_of_cons in Ht as [->|Ht]);
    [| |by apply elem_of_nil in Ht]);
  (repeat (apply elem_of_cons in Hg as [->|Hg]);
    [| |by apply elem_of_nil in Hg]);
  unfold as_point, parseRow, get, sheet_row;
  cbn [row_depth row_rockComposition row_DT row_GR];
  simplify_map_eq;
  cbn [default from_option];
  rewrite ?or_undefined_l, ?or_undefined_skip, ?or_num_default,
    ?or_str_default;
  by destruct p.
Qed.
End upload_round_trip.

Lemma upload_round_trip_witness :
  Upload.as_point
    (Upload.parseRow
       (Upload.sheet_row "Depth" "Rock Composition" "dt" "GR"
          (point 0 "" 80 40))) = Some (point 0 "" 80 40).
Proof.
  apply upload_round_trip; unfold Upload.depth_headers, Upload.rock_headers,
    Upload.DT_headers, Upload.GR_headers.
  - right. left.
  - right. left.
  - right. left.
  - left.
Defined.

(** ** The summary given to the chat *)

Section chat_stats.
Import ChatStats.
Implicit Types (data : list WellDataPoint) (f : WellDataPoint → Qc).

(** [Math.min] and [Math.max] do not depend on the order of their
    arguments. *)
Lemma Math_min_perm (xs ys : list Qc) : xs ≡ₚ ys → Math_min xs = Math_min ys.
Proof.
  intros Hperm. destruct xs as [|x xs], ys as [|y ys]; [done| | |].
  { by apply Permutation_nil_cons in Hperm. }
  { symmetry in Hperm. by apply Permutation_nil_cons in Hperm. }
  destruct (Math_min_spec x xs) as (m & -> & Hm & Hle).
  destruct (Math_min_spec y ys) as (m' & -> & Hm' & Hle').
  rewrite Forall_forall in Hle, Hle'. f_equal. apply Qcle_antisym.
  - apply Hle. by rewrite Hperm.
  - apply Hle'. by rewrite <-Hperm.
Qed.

Lemma Math_max_perm (xs ys : list Qc) : xs ≡ₚ ys → Math_max xs = Math_max ys.
Proof.
  intros Hperm. destruct xs as [|x xs], ys as [|y ys]; [done| | |].
  { by apply Permutation_nil_cons in Hperm. }
  { symmetry in Hperm. by apply Permutation_nil_cons in Hperm. }
  destruct (Math_max_spec x xs) as (m & -> & Hm & Hle).
  destruct (Math_max_spec y ys) as (m' & -> & Hm' & Hle').
  rewrite Forall_forall in Hle, Hle'. f_equal. apply Qcle_antisym.
  - apply Hle'. by rewrite <-Hperm.
  - apply Hle. by rewrite Hperm.
Qed.

(** X15. The summary and the chart agree on what is in the data: the same
    depth, DT and GR ranges, and the same rock types, though the summary
    lists them in the order of the data and the chart in depth order.
    Every rock type of the summary other than ["__proto__"] is a key of
    the chart's colour table, with a colour of the palette. *)
Theorem dataStats_agrees_with_chart data :
  depthRange_min (dataStats data) = minDepth data ∧
  depthRange_max (dataStats data) = maxDepth data ∧
  dtRange_min (dataStats data) = minDT data ∧
  dtRange_max (dataStats data) = maxDT data ∧
  grRange_min (dataStats data) = minGR data ∧
  grRange_max (dataStats data) = maxGR data ∧
  stats_rockTypes (dataStats data) ≡ₚ rockTypes data ∧
  (∀ k r, stats_rockTypes (dataStats data) !! k = Some r →
          r ≠ proto_key →
          ∃ c, own (colorMap data) !! r = Some c ∧ c ∈ colors).
Proof.
  assert (∀ f, f <$> data ≡ₚ f <$> sortedData data) as Hperm.
  { intros f. by rewrite sortedData_perm. }
  unfold dataStats, minDepth, maxDepth, minDT, maxDT, minGR, maxGR.
  cbn [depthRange_min depthRange_max dtRange_min dtRange_max grRange_min
       grRange_max stats_rockTypes].
  repeat (split; [first [apply Math_min_perm|apply Math_max_perm];
                  apply Hperm|]).
  assert (Set_from (rockComposition <$> data) ≡ₚ rockTypes data) as Hrocks.
  { unfold rockTypes. rewrite !Set_from_first_seen.
    apply NoDup_Permutation; [apply NoDup_first_seen..|].
    intros r. rewrite !elem_of_first_seen.
    by rewrite (sortedData_perm data). }
  split; [done|]. intros k r Hk%list_elem_of_lookup_2 Hr.
  rewrite Hrocks in Hk. apply list_elem_of_lookup_1 in Hk as [k' Hk'].
  exists (color_at k'). split.
  - rewrite <-lookup_own by done. by apply colorMap_lookup.
  - eapply list_elem_of_lookup_2, color_at_palette.
Qed.

Lemma dataStats_agrees_with_chart_witness :
  ∃ c, own (colorMap two_points) !! "Sandstone"%string = Some c ∧ c ∈ colors.
Proof.
  destruct (dataStats_agrees_with_chart two_points)
    as (_ & _ & _ & _ & _ & _ & _ & Hkeys).
  apply (Hkeys 0%nat); [reflexivity|done].
Defined.
End chat_stats.

(** ** Binary64: the special values *)

Section binary64_facts.
Import Arith ArithLaws.
Local Open Scope arith_scope.

Lemma Is_true_negb (b : bool) : Is_true (negb b) ↔ b = false.
Proof. destruct b; simpl; split; try done. Qed.

Lemma SFcompare_refl s m e :
  SFcompare (S754_finite s m e) (S754_finite s m e) = Some Eq.
Proof.
  simpl. destruct s;
    by rewrite Z.compare_refl, (Pos.compare_refl m : Pos.compare_cont Eq m m = Eq).
Qed.

Lemma binary64_is_finite (x : float) :
  PrimFloat.is_finite x = Binary64.SF_finite (Prim2SF x).
Proof.
  unfold PrimFloat.is_finite, PrimFloat.is_nan, PrimFloat.is_infinity.
  rewrite !FloatAxioms.eqb_spec, FloatAxioms.abs_spec.
  change (Prim2SF infinity) with (S754_infinity false).
  destruct (Prim2SF x) as [s|s| |s m e]; unfold SFeqb;
    rewrite ?SFcompare_refl; try done; by destruct s.
Qed.

Lemma binary64_sub_finite (x y : float) :
  PrimFloat.is_finite (x - y)%float →
  PrimFloat.is_finite x ∧ PrimFloat.is_finite y.
Proof.
  rewrite !binary64_is_finite, FloatAxioms.sub_spec.
  destruct (Prim2SF x) as [s|s| |s m e], (Prim2SF y) as [s'|s'| |s' m' e'];
    try done; try (by destruct s, s').
Qed.

Lemma binary64_sub_self (x : float) :
  PrimFloat.is_finite x → (x - x)%float = PrimFloat.zero.
Proof.
  rewrite binary64_is_finite. intros Hx. apply Prim2SF_inj.
  rewrite FloatAxioms.sub_spec.
  change (Prim2SF zero) with (S754_zero false).
  destruct (Prim2SF x) as [s|s| |s m e]; try done.
  { by destruct s. }
  unfold SF64sub, SFsub.
  by rewrite (Z.sub_diag _ : Z.sub _ _ = Z0).
Qed.

(** A positive finite float has a mantissa and the sign bit off. *)
Lemma binary64_positive (r : float) :
  PrimFloat.is_finite r → PrimFloat.ltb PrimFloat.zero r →
  ∃ m e, Prim2SF r = S754_finite false m e.
Proof.
  rewrite binary64_is_finite, FloatAxioms.ltb_spec.
  change (Prim2SF zero) with (S754_zero false).
  destruct (Prim2SF r) as [s|s| |s m e]; try done.
  intros _. destruct s; [done|]. by eexists _, _.
Qed.

Lemma binary64_div_zero (r : float) :
  PrimFloat.is_finite r → PrimFloat.ltb PrimFloat.zero r →
  (PrimFloat.zero / r)%float = PrimFloat.zero.
Proof.
  intros Hf Hr. destruct (binary64_positive r Hf Hr) as (m & e & Hm).
  apply Prim2SF_inj. rewrite FloatAxioms.div_spec, Hm.
  by change (Prim2SF zero) with (S754_zero false).
Qed.

Lemma binary64_div_self (r : float) :
  PrimFloat.is_finite r → PrimFloat.ltb PrimFloat.zero r →
  (r / r)%float = PrimFloat.one.
Proof.
  intros Hf Hr. destruct (binary64_positive r Hf Hr) as (m & e & Hm).
  apply Prim2SF_inj. rewrite FloatAxioms.div_spec, Hm.
  change (Prim2SF one) with (S754_finite false 4503599627370496 (-52)).
  unfold SF64div, SFdiv, SFdiv_core_binary.
  rewrite !Z.sub_diag.
  change (fexp prec emax 0) with (-53)%Z.
  change (0 - -53 `min` 0)%Z with 53%Z. change (-53 `min` 0)%Z with (-53)%Z.
  cbv iota.
  lazymatch goal with
  | |- context [IntDef.Z.div_eucl ?a ?b] =>
      change (IntDef.Z.div_eucl a b) with (Z.div_eucl (Z.pos m ≪ 53) (Z.pos m))
  end.
  assert (Z.div_eucl (Z.pos m ≪ 53) (Z.pos m) = (2 ^ 53, 0)%Z) as ->.
  { assert ((Z.pos m ≪ 53) `div` Z.pos m = 2 ^ 53)%Z as Hq.
    { rewrite Z.shiftl_mul_pow2, Z.mul_comm by done. by apply Z.div_mul. }
    assert ((Z.pos m ≪ 53) `mod` Z.pos m = 0)%Z as Hr0.
    { rewrite Z.shiftl_mul_pow2, Z.mul_comm by done. by apply Z.mod_mul. }
    unfold Z.div, Z.modulo in Hq, Hr0.
    destruct (Z.div_eucl (Z.pos m ≪ 53) (Z.pos m)) as [q r0].
    by rewrite Hq, Hr0. }
  assert (new_location (Z.pos m) 0 = loc_Exact) as ->.
  { unfold new_location. by destruct (Z.even (Z.pos m)). }
  by vm_compute.
Qed.

Lemma binary64_special : SpecialValues binary64.
Proof.
  split.
  - apply binary64_sub_finite.
  - apply binary64_sub_self.
  - apply binary64_div_zero.
  - apply binary64_div_self.
  - by vm_compute.
  - by vm_compute.
  - by vm_compute.
  - by vm_compute.
  - by vm_compute.
  - by vm_compute.
  - by vm_compute.
  - by vm_compute.
  - by vm_compute.
  - by vm_compute.
Qed.
End binary64_facts.

(** ** Binary64: the order *)

Section binary64_order.
Import Binary64.

Ltac compare_cases :=
  repeat match goal with
  | |- context [Z.compare ?a ?b] => destruct (Z.compare_spec a b)
  | |- context [Pos.compare_cont Eq ?a ?b] =>
      change (Pos.compare_cont Eq a b) with (Pos.compare a b);
      destruct (Pos.compare_spec a b)
  end.

Lemma SFltb_rank (f g : spec_float) :
  SFltb f g = true ↔
  SF_number f ∧ SF_number g ∧ lex_lt (SF_rank f) (SF_rank g).
Proof.
  unfold SFltb, SF_number, lex_lt.
  destruct f as [s|s| |s m e], g as [s'|s'| |s' m' e'];
    try destruct s; try destruct s'; simpl; compare_cases; simpl;
    split; try done; try (intros (? & ? & ?); (congruence || lia));
    try (intros _; lia);
    try (intros _; split; [done|split; [done|lia]]).
Qed.

Lemma SFleb_rank (f g : spec_float) :
  SFleb f g = true ↔
  SF_number f ∧ SF_number g ∧ lex_le (SF_rank f) (SF_rank g).
Proof.
  unfold SFleb, SF_number, lex_le.
  destruct f as [s|s| |s m e], g as [s'|s'| |s' m' e'];
    try destruct s; try destruct s'; simpl; compare_cases; simpl;
    split; try done; try (intros (? & ? & ?); (congruence || lia));
    try (intros _; lia);
    try (intros _; split; [done|split; [done|lia]]).
Qed.

Lemma binary64_leb (x y : float) :
  PrimFloat.leb x y ↔
  SF_number (Prim2SF x) ∧ SF_number (Prim2SF y) ∧
  lex_le (SF_rank (Prim2SF x)) (SF_rank (Prim2SF y)).
Proof. by rewrite FloatAxioms.leb_spec, Is_true_true, SFleb_rank. Qed.

Lemma binary64_ltb (x y : float) :
  PrimFloat.ltb x y ↔
  SF_number (Prim2SF x) ∧ SF_number (Prim2SF y) ∧
  lex_lt (SF_rank (Prim2SF x)) (SF_rank (Prim2SF y)).
Proof. by rewrite FloatAxioms.ltb_spec, Is_true_true, SFltb_rank. Qed.

Lemma binary64_finite (x : float) :
  PrimFloat.is_finite x ↔
  SF_number (Prim2SF x) ∧ (-1 ≤ (SF_rank (Prim2SF x)).1.1 ≤ 1)%Z.
Proof.
  rewrite binary64_is_finite. unfold SF_number.
  destruct (Prim2SF x) as [s|s| |s m e]; try destruct s; simpl;
    split; try done; try (intros [? ?]; (congruence || lia));
    try (intros _; split; [done|lia]).
Qed.

(** Two floats at the same place above zero are the same float. *)
Lemma SF_rank_inj (f g : spec_float) :
  SF_number f → SF_number g →
  (0 < (SF_rank g).1.1)%Z →
  lex_le (SF_rank f) (SF_rank g) → lex_le (SF_rank g) (SF_rank f) →
  f = g.
Proof.
  unfold SF_number, lex_le.
  destruct f as [s|s| |s m e], g as [s'|s'| |s' m' e'];
    try destruct s; try destruct s'; simpl; try done; try lia.
  intros _ _ _ H1 H2. f_equal; lia.
Qed.

Lemma binary64_ordered_laws :
  (∀ x : float, PrimFloat.is_finite x → PrimFloat.leb x x) ∧
  (∀ x y z : float,
     PrimFloat.leb x y → PrimFloat.leb y z → PrimFloat.leb x z) ∧
  (∀ x y : float, PrimFloat.ltb x y → PrimFloat.leb x y) ∧
  (∀ x y : float, PrimFloat.ltb x y → ¬ PrimFloat.leb y x) ∧
  (∀ x y : float,
     PrimFloat.is_finite x → PrimFloat.is_finite y →
     ¬ PrimFloat.ltb y x → PrimFloat.leb x y) ∧
  (∀ a x b : float,
     PrimFloat.is_finite a → PrimFloat.is_finite b →
     PrimFloat.leb a x → PrimFloat.leb x b → PrimFloat.is_finite x) ∧
  (∀ x c : float,
     PrimFloat.ltb PrimFloat.zero c →
     PrimFloat.leb x c → PrimFloat.leb c x → x = c).
Proof.
  unfold lex_le, lex_lt.
  split; [|split; [|split; [|split; [|split; [|split]]]]].
  - intros x. rewrite binary64_finite, binary64_leb. unfold lex_le.
    intros [? ?]. split; [done|split; [done|lia]].
  - intros x y z. rewrite !binary64_leb. unfold lex_le.
    intros (? & ? & ?) (? & ? & ?). split; [done|split; [done|lia]].
  - intros x y. rewrite binary64_leb, binary64_ltb. unfold lex_le, lex_lt.
    intros (? & ? & ?). split; [done|split; [done|lia]].
  - intros x y. rewrite binary64_leb, binary64_ltb. unfold lex_le, lex_lt.
    intros (? & ? & ?) (? & ? & ?). lia.
  - intros x y. rewrite !binary64_finite, binary64_leb, binary64_ltb.
    unfold lex_le, lex_lt. intros [? ?] [? ?] Hn.
    split; [done|split; [done|]].
    destruct (decide ((SF_rank (Prim2SF y)).1.1 < (SF_rank (Prim2SF x)).1.1
                      ∨ (SF_rank (Prim2SF y)).1.1 = (SF_rank (Prim2SF x)).1.1
                        ∧ ((SF_rank (Prim2SF y)).1.2 < (SF_rank (Prim2SF x)).1.2
                           ∨ (SF_rank (Prim2SF y)).1.2 = (SF_rank (Prim2SF x)).1.2
                             ∧ (SF_rank (Prim2SF y)).2 < (SF_rank (Prim2SF x)).2))%Z)
      as [Hlt|Hge]; [by destruct Hn|lia].
  - intros a x b. rewrite !binary64_finite, !binary64_leb. unfold lex_le.
    intros [? ?] [? ?] (? & ? & ?) (? & ? & ?). split; [done|lia].
  - intros x c. rewrite binary64_ltb, !binary64_leb.
    change (Prim2SF zero) with (S754_zero false). unfold lex_lt at 1. simpl.
    intros (_ & Hc & Hpos) (Hx & _ & H1) (_ & _ & H2).
    apply Prim2SF_inj, SF_rank_inj; try done.
    destruct (Prim2SF c) as [s|s| |s m e]; try destruct s; simpl in *; lia.
Qed.

Lemma binary64_finite_not_nan (x : float) :
  PrimFloat.is_finite x → PrimFloat.is_nan x = false.
Proof.
  unfold PrimFloat.is_finite. rewrite Is_true_negb.
  by intros [? _]%orb_false_elim.
Qed.

Lemma binary64_below_infinity (x : float) :
  PrimFloat.is_finite x →
  PrimFloat.ltb x infinity ∧ PrimFloat.ltb neg_infinity x.
Proof.
  rewrite binary64_finite, !binary64_ltb.
  change (Prim2SF infinity) with (S754_infinity false).
  change (Prim2SF neg_infinity) with (S754_infinity true).
  unfold lex_lt. simpl. intros [? ?].
  split; (split; [done|split; [done|lia]]).
Qed.

Lemma binary64_min2_pinf (x : float) :
  PrimFloat.is_finite x → Binary64.min2 x infinity = x.
Proof.
  intros Hx. unfold Binary64.min2.
  rewrite (binary64_finite_not_nan x Hx).
  change (PrimFloat.is_nan infinity) with false. simpl.
  destruct (binary64_below_infinity x Hx) as [H%Is_true_true _].
  by rewrite H.
Qed.

Lemma binary64_max2_ninf (x : float) :
  PrimFloat.is_finite x → Binary64.max2 x neg_infinity = x.
Proof.
  intros Hx. unfold Binary64.max2.
  rewrite (binary64_finite_not_nan x Hx).
  change (PrimFloat.is_nan neg_infinity) with false. simpl.
  destruct (binary64_below_infinity x Hx) as [_ H].
  destruct binary64_ordered_laws as (_ & _ & Hlt_le & Hlt_not & _).
  destruct (PrimFloat.ltb x neg_infinity) eqn:Hlt.
  { destruct (Hlt_not _ _ H). apply Hlt_le. by rewrite Hlt. }
  apply Is_true_true in H. by rewrite H.
Qed.

Lemma binary64_min2_cases (x y : float) :
  PrimFloat.is_finite x → PrimFloat.is_finite y →
  (Binary64.min2 x y = x ∨ Binary64.min2 x y = y) ∧
  PrimFloat.leb (Binary64.min2 x y) x ∧ PrimFloat.leb (Binary64.min2 x y) y.
Proof.
  intros Hx Hy. unfold Binary64.min2.
  rewrite (binary64_finite_not_nan x Hx), (binary64_finite_not_nan y Hy).
  simpl.
  destruct binary64_ordered_laws as (Hrefl & _ & Hlt_le & _ & Htot & _).
  destruct (PrimFloat.ltb x y) eqn:Hxy.
  { split; [by left|]. split; [by apply Hrefl|].
    apply Hlt_le. by rewrite Hxy. }
  destruct (PrimFloat.ltb y x) eqn:Hyx.
  { split; [by right|]. split; [|by apply Hrefl].
    apply Hlt_le. by rewrite Hyx. }
  assert (Is_true (PrimFloat.leb x y)) as Hle.
  { apply Htot; [done..|]. rewrite Hyx. simpl. tauto. }
  assert (Is_true (PrimFloat.leb y x)) as Hge.
  { apply Htot; [done..|]. rewrite Hxy. simpl. tauto. }
  destruct (get_sign x); (split; [auto|split]); auto.
Qed.

Lemma binary64_max2_cases (x y : float) :
  PrimFloat.is_finite x → PrimFloat.is_finite y →
  (Binary64.max2 x y = x ∨ Binary64.max2 x y = y) ∧
  PrimFloat.leb x (Binary64.max2 x y) ∧ PrimFloat.leb y (Binary64.max2 x y).
Proof.
  intros Hx Hy. unfold Binary64.max2.
  rewrite (binary64_finite_not_nan x Hx), (binary64_finite_not_nan y Hy).
  simpl.
  destruct binary64_ordered_laws as (Hrefl & _ & Hlt_le & _ & Htot & _).
  destruct (PrimFloat.ltb x y) eqn:Hxy.
  { split; [by right|]. split; [|by apply Hrefl].
    apply Hlt_le. by rewrite Hxy. }
  destruct (PrimFloat.ltb y x) eqn:Hyx.
  { split; [by left|]. split; [by apply Hrefl|].
    apply Hlt_le. by rewrite Hyx. }
  assert (Is_true (PrimFloat.leb x y)) as Hle.
  { apply Htot; [done..|]. rewrite Hyx. simpl. tauto. }
  assert (Is_true (PrimFloat.leb y x)) as Hge.
  { apply Htot; [done..|]. rewrite Hxy. simpl. tauto. }
  destruct (get_sign x); (split; [auto|split]); auto.
Qed.
End binary64_order.

(** ** Binary64: the sign of a difference *)

Section binary64_sign.
Import Binary64.
Local Open Scope Z_scope.

(** A mantissa of [d] digits lies between [2^(d-1)] and [2^d]. *)
Lemma digits2_pos_bounds (m : positive) :
  2 ^ (Z.pos (digits2_pos m) - 1) ≤ Z.pos m < 2 ^ Z.pos (digits2_pos m).
Proof.
  induction m as [m IH|m IH|]; simpl digits2_pos.
  - rewrite Pos2Z.inj_succ, Z.pow_succ_r by lia.
    replace (Z.succ (Z.pos (digits2_pos m)) - 1)
      with (Z.succ (Z.pos (digits2_pos m) - 1)) by lia.
    rewrite Z.pow_succ_r by lia. lia.
  - rewrite Pos2Z.inj_succ, Z.pow_succ_r by lia.
    replace (Z.succ (Z.pos (digits2_pos m)) - 1)
      with (Z.succ (Z.pos (digits2_pos m) - 1)) by lia.
    rewrite Z.pow_succ_r by lia. lia.
  - simpl. lia.
Qed.

(** What validity says of a mantissa and its exponent. *)
Lemma valid_binary_bounds s m e :
  valid_binary (S754_finite s m e) = true →
  -1074 ≤ e ∧ Z.pos m < 2 ^ 53 ∧ (-1074 < e → 2 ^ 52 ≤ Z.pos m).
Proof.
  unfold SpecFloat.valid_binary, bounded, canonical_mantissa, fexp.
  intros [Hc%Z.eqb_eq _]%andb_prop.
  change (SpecFloat.emin prec emax) with (-1074) in Hc.
  change prec with 53 in Hc.
  pose proof (digits2_pos_bounds m) as [Hlo Hhi].
  assert (Z.pos (digits2_pos m) ≤ 53) as Hd by lia.
  split; [lia|]. split.
  - eapply Z.lt_le_trans; [exact Hhi|]. apply Z.pow_le_mono_r; lia.
  - intros He. assert (Z.pos (digits2_pos m) = 53) as Hd' by lia.
    by rewrite Hd' in Hlo.
Qed.

(** Shifting right by one halves the mantissa. *)
Lemma shr_1_m (mrs : shr_record) :
  0 ≤ shr_m mrs → shr_m (shr_1 mrs) = shr_m mrs / 2.
Proof.
  destruct mrs as [m r s]. simpl. intros Hm.
  destruct m as [|[p|p|]|p]; simpl; try done; try lia.
  - rewrite Pos2Z.inj_xI. apply Z.div_unique with 1; lia.
  - rewrite Pos2Z.inj_xO. apply Z.div_unique with 0; lia.
Qed.

Lemma iter_shr_1_m (k : positive) (mrs : shr_record) :
  0 ≤ shr_m mrs →
  shr_m (SpecFloat.iter_pos shr_1 k mrs) = shr_m mrs / 2 ^ Z.pos k.
Proof.
  assert (∀ k : positive, 0 < 2 ^ Z.pos k) as Hpow
    by (intros; apply Z.pow_pos_nonneg; lia).
  revert mrs. induction k as [k IH|k IH|]; intros mrs Hm;
    simpl SpecFloat.iter_pos.
  - pose proof (shr_1_m mrs Hm) as E1.
    assert (0 ≤ shr_m (shr_1 mrs)) as H1
      by (rewrite E1; apply Z.div_pos; lia).
    pose proof (IH _ H1) as E2.
    assert (0 ≤ shr_m (SpecFloat.iter_pos shr_1 k (shr_1 mrs))) as H2
      by (rewrite E2; apply Z.div_pos; [done|apply Hpow]).
    rewrite (IH _ H2), E2, E1.
    rewrite !Z.div_div by (pose proof (Hpow k); lia).
    assert (2 ^ Z.pos k~1 = 2 * (2 ^ Z.pos k * 2 ^ Z.pos k)) as ->; [|done].
    replace (Z.pos k~1) with (1 + (Z.pos k + Z.pos k)) by lia.
    by rewrite !Z.pow_add_r by lia.
  - pose proof (IH _ Hm) as E2.
    assert (0 ≤ shr_m (SpecFloat.iter_pos shr_1 k mrs)) as H2
      by (rewrite E2; apply Z.div_pos; [done|apply Hpow]).
    rewrite (IH _ H2), E2.
    rewrite !Z.div_div by (pose proof (Hpow k); lia).
    assert (2 ^ Z.pos k~0 = 2 ^ Z.pos k * 2 ^ Z.pos k) as ->; [|done].
    replace (Z.pos k~0) with (Z.pos k + Z.pos k) by lia.
    by rewrite !Z.pow_add_r by lia.
  - by apply shr_1_m.
Qed.

(** Rounding does not lose a positive mantissa whose exponent is at
    least the smallest one. *)
Lemma shr_fexp_positive (q : positive) (e : Z) (l : location) :
  -1074 ≤ e →
  0 < shr_m (shr_fexp prec emax (Z.pos q) e l).1 ∧
  -1074 ≤ (shr_fexp prec emax (Z.pos q) e l).2.
Proof.
  intros He. unfold shr_fexp, shr, fexp.
  change (SpecFloat.emin prec emax) with (-1074). change prec with 53.
  simpl Zdigits2.
  pose proof (digits2_pos_bounds q) as [Hlo Hhi].
  set (d := Z.pos (digits2_pos q)) in *.
  assert (0 < d) as Hd by (unfold d; lia).
  assert (shr_m (shr_record_of_loc (Z.pos q) l) = Z.pos q) as Hm.
  { by destruct l as [|[| |]]. }
  destruct (Z.max (d + e - 53) (-1074) - e) as [|k|k] eqn:Hn; cbn [fst snd].
  - rewrite Hm. lia.
  - rewrite iter_shr_1_m, Hm by (rewrite Hm; lia). split; [|lia].
    apply Z.div_str_pos. split; [apply Z.pow_pos_nonneg; lia|].
    eapply Z.le_trans; [|exact Hlo]. apply Z.pow_le_mono_r; lia.
  - rewrite Hm. lia.
Qed.

Lemma round_nearest_even_positive (m : Z) (l : location) :
  0 < m → 0 < round_nearest_even m l.
Proof.
  intros Hm. destruct l as [|[| |]]; simpl; try done; [|lia].
  destruct (Z.even m); lia.
Qed.

Lemma binary_round_aux_positive (q : positive) (e : Z) (l : location) :
  -1074 ≤ e →
  SFltb (S754_zero false) (binary_round_aux prec emax false (Z.pos q) e l)
    = true.
Proof.
  intros He. unfold binary_round_aux.
  destruct (shr_fexp_positive q e l He) as [H1 He1].
  destruct (shr_fexp prec emax (Z.pos q) e l) as [mrs' e'].
  simpl in H1, He1.
  pose proof (round_nearest_even_positive (shr_m mrs')
                (loc_of_shr_record mrs') H1) as H2.
  destruct (round_nearest_even (shr_m mrs') (loc_of_shr_record mrs'))
    as [|q'|q']; try lia.
  destruct (shr_fexp_positive q' e' loc_Exact He1) as [H3 _].
  destruct (shr_fexp prec emax (Z.pos q') e' loc_Exact) as [mrs'' e''].
  simpl in H3.
  destruct (shr_m mrs'') as [|q''|q'']; try lia.
  by destruct (e'' <=? emax - prec).
Qed.

Lemma binary_round_positive (q : positive) (e : Z) :
  -1074 ≤ e →
  SFltb (S754_zero false) (binary_round prec emax false q e) = true.
Proof.
  intros He. unfold binary_round, shl_align, fexp.
  change (SpecFloat.emin prec emax) with (-1074). change prec with 53.
  destruct (Z.max (Z.pos (digits2_pos q) + e - 53) (-1074) - e)
    as [|k|k] eqn:Hn; apply binary_round_aux_positive; lia.
Qed.

Lemma binary_round_negative (q : positive) (e : Z) :
  SFltb (S754_zero false) (binary_round prec emax true q e) = false.
Proof.
  unfold binary_round.
  destruct (shl_align _ _ _) as [mz ez]. unfold binary_round_aux.
  destruct (shr_fexp prec emax (Z.pos mz) ez loc_Exact) as [mrs' e'].
  destruct (shr_fexp _ _ _ _ _) as [mrs'' e''].
  destruct (shr_m mrs'') as [|q''|q'']; try done.
  by destruct (e'' <=? emax - prec).
Qed.

(** Aligning a mantissa to a smaller exponent multiplies it by a power of
    two. *)
Lemma shl_align_spec (m : positive) (e e' : Z) :
  e' ≤ e → Z.pos (shl_align m e e').1 = Z.pos m * 2 ^ (e - e').
Proof.
  intros He. unfold shl_align.
  destruct (e' - e) as [|k|d] eqn:Hn; cbn [fst]; [|lia|].
  - replace (e - e') with 0 by lia. simpl. lia.
  - change (Pos.iter xO m d) with (shift_pos d m).
    rewrite shift_pos_correct. replace (e - e') with (Z.pos d) by lia.
    change (Z.pow_pos 2 d) with (2 ^ Z.pos d). lia.
Qed.

(** The sign of a difference of two finite floats is the order of its two
    terms. *)
Lemma SFsub_sign_finite sa ma ea sb mb eb :
  valid_binary (S754_finite sa ma ea) = true →
  valid_binary (S754_finite sb mb eb) = true →
  SFltb (S754_zero false)
        (SF64sub (S754_finite sa ma ea) (S754_finite sb mb eb))
  = SFltb (S754_finite sb mb eb) (S754_finite sa ma ea).
Proof.
  intros (Hea & Hma & Hna)%valid_binary_bounds
         (Heb & Hmb & Hnb)%valid_binary_bounds.
  change (2 ^ 53) with 9007199254740992 in *.
  change (2 ^ 52) with 4503599627370496 in *.
  unfold SF64sub, SFsub.
  assert (ea `min` eb ≤ ea) as Hza by lia.
  assert (ea `min` eb ≤ eb) as Hzb by lia.
  pose proof (shl_align_spec ma ea _ Hza) as HA.
  pose proof (shl_align_spec mb eb _ Hzb) as HB.
  set (A := Z.pos (shl_align ma ea (ea `min` eb)).1) in *.
  set (B := Z.pos (shl_align mb eb (ea `min` eb)).1) in *.
  assert (0 < A ∧ 0 < B) as [HA0 HB0] by (unfold A, B; lia).
  assert ((eb < ea ∧ B < A) ∨ (ea < eb ∧ A < B) ∨
          (ea = eb ∧ A = Z.pos ma ∧ B = Z.pos mb)) as Hord.
  { destruct (Z.lt_trichotomy ea eb) as [Hlt|[Heq|Hgt]].
    - right. left. split; [done|].
      replace (ea `min` eb) with ea in HA, HB by lia.
      replace (ea - ea) with 0 in HA by lia.
      assert (2 ^ 1 ≤ 2 ^ (eb - ea)) as Hp
        by (apply Z.pow_le_mono_r; lia).
      change (2 ^ 1) with 2 in Hp. simpl in HA. nia.
    - right. right. split; [done|]. subst eb.
      replace (ea `min` ea) with ea in HA, HB by lia.
      replace (ea - ea) with 0 in HA, HB by lia. simpl in HA, HB. lia.
    - left. split; [done|].
      replace (ea `min` eb) with eb in HA, HB by lia.
      replace (eb - eb) with 0 in HB by lia.
      assert (2 ^ 1 ≤ 2 ^ (ea - eb)) as Hp
        by (apply Z.pow_le_mono_r; lia).
      change (2 ^ 1) with 2 in Hp. simpl in HB. nia. }
  clearbody A B. clear HA HB.
  set (z := cond_Zopp sa A - cond_Zopp sb B).
  assert (0 < z ↔ lex_lt (SF_rank (S754_finite sb mb eb))
                         (SF_rank (S754_finite sa ma ea))) as Hz.
  { unfold z, lex_lt, cond_Zopp. destruct sa, sb; simpl; lia. }
  assert (SFltb (S754_finite sb mb eb) (S754_finite sa ma ea) = true ↔
          0 < z) as Hlt.
  { rewrite SFltb_rank, Hz. unfold SF_number. split; [tauto|done]. }
  destruct z as [|q|q] eqn:Ez; unfold binary_normalize.
  - destruct (SFltb (S754_finite sb mb eb) (S754_finite sa ma ea));
      [|done]. assert (0 < 0) by (by apply Hlt). lia.
  - rewrite binary_round_positive by lia. symmetry. apply Hlt. lia.
  - rewrite binary_round_negative.
    destruct (SFltb (S754_finite sb mb eb) (S754_finite sa ma ea));
      [|done]. assert (0 < Z.neg q) by (by apply Hlt). lia.
Qed.

Lemma binary64_sub_sign (a b : float) :
  PrimFloat.is_finite a → PrimFloat.is_finite b →
  PrimFloat.ltb PrimFloat.zero (a - b)%float = PrimFloat.ltb b a.
Proof.
  rewrite !binary64_is_finite, !FloatAxioms.ltb_spec, FloatAxioms.sub_spec.
  change (Prim2SF zero) with (S754_zero false).
  pose proof (Prim2SF_valid a) as Hva. pose proof (Prim2SF_valid b) as Hvb.
  destruct (Prim2SF a) as [sa|sa| |sa ma ea], (Prim2SF b) as [sb|sb| |sb mb eb];
    try done; intros _ _.
  - by destruct sa, sb.
  - by destruct sb.
  - by apply SFsub_sign_finite.
Qed.
End binary64_sign.

(** ** Binary64 keeps the first two groups of laws *)

Section binary64_laws.
Import Arith ArithLaws.

Lemma binary64_ordered : Ordered binary64.
Proof.
  destruct binary64_ordered_laws
    as (Hrefl & Htrans & Hlt_le & Hlt_not & Htot & Hfin & Hanti).
  split.
  - exact Hrefl.
  - exact Htrans.
  - exact Hlt_le.
  - exact Hlt_not.
  - exact Htot.
  - exact Hfin.
  - exact Hanti.
  - exact binary64_sub_sign.
  - exact binary64_min2_pinf.
  - exact binary64_max2_ninf.
  - exact binary64_min2_cases.
  - exact binary64_max2_cases.
Qed.
End binary64_laws.

(** ** Binary64: rounding is monotone *)

Section binary64_cells.
Local Open Scope Z_scope.

Lemma shr_record_of_loc_fields (m : Z) (l : location) :
  shr_record_of_loc m l =
    Build_shr_record m
      (match l with loc_Inexact (Eq | Gt) => true | _ => false end)
      (match l with loc_Inexact (Lt | Gt) => true | _ => false end).
Proof. by destruct l as [|[| |]]. Qed.

Lemma shr_1_fields (mrs : shr_record) :
  0 ≤ shr_m mrs →
  shr_1 mrs =
    Build_shr_record (shr_m mrs / 2) (Z.odd (shr_m mrs))
                     (shr_r mrs || shr_s mrs).
Proof.
  destruct mrs as [m r s]. simpl. intros Hm.
  destruct m as [|[p|p|]|p]; simpl; try done; try lia; f_equal.
  - rewrite Pos2Z.inj_xI. apply Z.div_unique with 1; lia.
  - rewrite Pos2Z.inj_xO. apply Z.div_unique with 0; lia.
Qed.

(** Shifting right by one bit doubles the denominator. *)
Lemma shr_1_cell (N D : Z) :
  0 ≤ N → 0 < D → shr_1 (cell N D) = cell N (2 * D).
Proof.
  intros HN HD. unfold cell.
  assert (0 ≤ N / D) as Hq by (apply Z.div_pos; lia).
  rewrite shr_1_fields by (by rewrite shr_record_of_loc_fields).
  rewrite (shr_record_of_loc_fields (N / (2 * D))).
  rewrite (shr_record_of_loc_fields (N / D)). cbn [shr_m shr_r shr_s].
  assert (N / (2 * D) = N / D / 2) as ->.
  { rewrite Z.div_div by lia. f_equal. lia. }
  pose proof (Z.mod_pos_bound N D HD) as Hr.
  assert (N `mod` (2 * D) = N `mod` D + D * ((N / D) `mod` 2)) as Hmod.
  { rewrite (Z.mul_comm 2 D). apply Z.rem_mul_r; lia. }
  pose proof (Z.mod_pos_bound (N / D) 2 ltac:(lia)) as Hb.
  unfold loc_of. rewrite Hmod.
  rewrite (Zmod_odd (N / D)) in *.
  destruct (Z.odd (N / D)); simpl Z.mul.
  - rewrite Z.mul_1_r.
    destruct (N `mod` D =? 0) eqn:E0.
    + apply Z.eqb_eq in E0. rewrite E0, Z.add_0_l.
      destruct (D =? 0) eqn:ED; [apply Z.eqb_eq in ED; lia|].
      by rewrite Z.compare_refl.
    + apply Z.eqb_neq in E0.
      destruct (N `mod` D + D =? 0) eqn:E1; [apply Z.eqb_eq in E1; lia|].
      assert (((2 * (N `mod` D + D)) ?= (2 * D)) = Gt) as ->
        by (apply Z.compare_gt_iff; lia).
      by destruct (2 * (N `mod` D) ?= D).
  - rewrite Z.mul_0_r, Z.add_0_r.
    destruct (N `mod` D =? 0) eqn:E0; [done|].
    apply Z.eqb_neq in E0.
    assert (((2 * (N `mod` D)) ?= (2 * D)) = Lt) as ->
      by (apply Z.compare_lt_iff; lia).
    by destruct (2 * (N `mod` D) ?= D).
Qed.

Lemma iter_shr_1_cell (k : positive) (N D : Z) :
  0 ≤ N → 0 < D →
  SpecFloat.iter_pos shr_1 k (cell N D) = cell N (D * 2 ^ Z.pos k).
Proof.
  intros HN. revert D. induction k as [k IH|k IH|]; intros D HD;
    simpl SpecFloat.iter_pos.
  - assert (0 < 2 ^ Z.pos k) as Hp by (apply Z.pow_pos_nonneg; lia).
    rewrite shr_1_cell, IH, IH by nia. f_equal.
    replace (Z.pos k~1) with (1 + (Z.pos k + Z.pos k)) by lia.
    rewrite !Z.pow_add_r by lia. lia.
  - assert (0 < 2 ^ Z.pos k) as Hp by (apply Z.pow_pos_nonneg; lia).
    rewrite IH, IH by nia. f_equal.
    replace (Z.pos k~0) with (Z.pos k + Z.pos k) by lia.
    rewrite !Z.pow_add_r by lia. lia.
  - rewrite shr_1_cell by done. f_equal. lia.
Qed.
End binary64_cells.

Section binary64_digits.
Local Open Scope Z_scope.

Lemma Zdigits2_bounds (q : Z) :
  0 < q → 2 ^ (Zdigits2 q - 1) ≤ q < 2 ^ Zdigits2 q.
Proof.
  destruct q as [|q|q]; try lia. intros _. apply digits2_pos_bounds.
Qed.

Lemma Zdigits2_pos (q : Z) : 0 < q → 0 < Zdigits2 q.
Proof. destruct q as [|q|q]; simpl; lia. Qed.

Lemma Zdigits2_unique (q d : Z) :
  2 ^ (d - 1) ≤ q < 2 ^ d → 0 < q → Zdigits2 q = d.
Proof.
  intros [Hlo Hhi] Hq.
  pose proof (Zdigits2_bounds q Hq) as [Hlo' Hhi'].
  pose proof (Zdigits2_pos q Hq) as Hd'.
  assert (0 < d) as Hd.
  { destruct (Z_lt_le_dec 0 d) as [?|Hd0]; [done|].
    destruct (Z.eq_dec d 0) as [->|?].
    - simpl in Hhi. lia.
    - rewrite Z.pow_neg_r in Hhi by lia. lia. }
  assert (d - 1 < Zdigits2 q).
  { apply (Z.pow_lt_mono_r_iff 2); lia. }
  assert (Zdigits2 q - 1 < d).
  { apply (Z.pow_lt_mono_r_iff 2); lia. }
  lia.
Qed.

Lemma Zdigits2_div_pow2 (q n : Z) :
  0 < q → 0 ≤ n < Zdigits2 q → Zdigits2 (q / 2 ^ n) = Zdigits2 q - n.
Proof.
  intros Hq Hn. pose proof (Zdigits2_bounds q Hq) as [Hlo Hhi].
  assert (0 < 2 ^ n) as Hp by (apply Z.pow_pos_nonneg; lia).
  assert (2 ^ (Zdigits2 q - n - 1) ≤ q / 2 ^ n) as Hlo'.
  { apply Z.div_le_lower_bound; [done|].
    rewrite <-Z.pow_add_r by lia.
    by replace (n + (Zdigits2 q - n - 1)) with (Zdigits2 q - 1) by lia. }
  assert (q / 2 ^ n < 2 ^ (Zdigits2 q - n)) as Hhi'.
  { apply Z.div_lt_upper_bound; [done|].
    rewrite <-Z.pow_add_r by lia.
    by replace (n + (Zdigits2 q - n)) with (Zdigits2 q) by lia. }
  apply Zdigits2_unique; [done|].
  eapply Z.lt_le_trans; [|exact Hlo']. apply Z.pow_pos_nonneg; lia.
Qed.

Lemma div_pow2_small (q n : Z) :
  0 ≤ q → Zdigits2 q ≤ n → q / 2 ^ n = 0.
Proof.
  intros Hq Hn. destruct (Z.eq_dec q 0) as [->|Hne].
  { apply Z.div_0_l. assert (0 < 2 ^ n); [|lia].
    apply Z.pow_pos_nonneg; simpl in Hn; lia. }
  pose proof (Zdigits2_bounds q ltac:(lia)) as [_ Hhi].
  apply Z.div_small. split; [done|].
  eapply Z.lt_le_trans; [exact Hhi|]. apply Z.pow_le_mono_r; lia.
Qed.
End binary64_digits.

Section binary64_rne.
Local Open Scope Z_scope.

Lemma rne_bounds (N D : Z) : N / D ≤ rne N D ≤ N / D + 1.
Proof.
  unfold rne, round_nearest_even, loc_of.
  destruct (N `mod` D =? 0); [lia|].
  destruct (2 * (N `mod` D) ?= D); try lia.
  destruct (Z.even (N / D)); lia.
Qed.

(** Rounding to the nearest integer is monotone. *)
Lemma rne_mono (N1 D1 N2 D2 : Z) :
  0 < D1 → 0 < D2 → N1 * D2 ≤ N2 * D1 → rne N1 D1 ≤ rne N2 D2.
Proof.
  intros HD1 HD2 Hle.
  pose proof (Z.div_mod N1 D1 ltac:(lia)) as E1.
  pose proof (Z.div_mod N2 D2 ltac:(lia)) as E2.
  pose proof (Z.mod_pos_bound N1 D1 HD1) as B1.
  pose proof (Z.mod_pos_bound N2 D2 HD2) as B2.
  pose proof (rne_bounds N1 D1) as R1. pose proof (rne_bounds N2 D2) as R2.
  set (q1 := N1 / D1) in *. set (r1 := N1 `mod` D1) in *.
  set (q2 := N2 / D2) in *. set (r2 := N2 `mod` D2) in *.
  assert (q1 ≤ q2) as Hq.
  { destruct (Z_le_gt_dec q1 q2) as [?|Hgt]; [done|]. exfalso.
    assert (q2 + 1 ≤ q1) as Hq' by lia.
    assert (D1 * D2 * (q2 + 1) ≤ D1 * D2 * q1) by nia. nia. }
  destruct (Z.eq_dec q1 q2) as [Heq|Hne]; [|lia].
  assert (r1 * D2 ≤ r2 * D1) as Hr by nia.
  unfold rne, round_nearest_even, loc_of.
  fold q1 q2 r1 r2. rewrite <-Heq. clear R1 R2.
  destruct (r1 =? 0) eqn:Z1.
  { destruct (r2 =? 0); [lia|].
    destruct (2 * r2 ?= D2); try lia. destruct (Z.even q1); lia. }
  apply Z.eqb_neq in Z1.
  destruct (r2 =? 0) eqn:Z2; [apply Z.eqb_eq in Z2; nia|].
  destruct (Z.compare_spec (2 * r1) D1) as [C1|C1|C1],
           (Z.compare_spec (2 * r2) D2) as [C2|C2|C2];
    try lia; try (destruct (Z.even q1); lia); exfalso; nia.
Qed.
End binary64_rne.

Section binary64_round.
Local Open Scope Z_scope.

Lemma fexp_fexp64 (k : Z) : fexp prec emax k = fexp64 k.
Proof. reflexivity. Qed.

Lemma loc_of_shr_record_of_loc (m : Z) (l : location) :
  loc_of_shr_record (shr_record_of_loc m l) = l.
Proof. by destruct l as [|[| |]]. Qed.

Lemma shr_m_record_of_loc (m : Z) (l : location) :
  shr_m (shr_record_of_loc m l) = m.
Proof. by destruct l as [|[| |]]. Qed.

Lemma loc_of_1 (N : Z) : loc_of N 1 = loc_Exact.
Proof. unfold loc_of. by rewrite Z.mod_1_r. Qed.

(** The shift of [shr_fexp] on a cell. *)
Lemma shr_fexp_cell (N D e : Z) :
  0 ≤ N → 0 < D →
  shr_fexp prec emax (N / D) e (loc_of N D) =
    (cell N (D * 2 ^ shift64 (N / D) e), e + shift64 (N / D) e).
Proof.
  intros HN HD. unfold shr_fexp, shr, shift64. rewrite fexp_fexp64.
  fold (cell N D).
  destruct (fexp64 (Zdigits2 (N / D) + e) - e) as [|k|k] eqn:Hn.
  - simpl Z.max. by rewrite Z.mul_1_r, Z.add_0_r.
  - rewrite iter_shr_1_cell by done. by rewrite Z.max_r by lia.
  - rewrite Z.max_l by lia. by rewrite Z.mul_1_r, Z.add_0_r.
Qed.

Lemma binary_round_aux_cell (s : bool) (N D e : Z) :
  0 ≤ N → 0 < D →
  binary_round_aux prec emax s (N / D) e (loc_of N D) =
    SF_of_round s (round_pos N D e).
Proof.
  intros HN HD. unfold binary_round_aux. rewrite shr_fexp_cell by done.
  set (n := shift64 (N / D) e).
  assert (0 < D * 2 ^ n) as HD'.
  { apply Z.mul_pos_pos; [done|]. apply Z.pow_pos_nonneg; [lia|].
    unfold n, shift64. lia. }
  unfold cell at 1 2.
  rewrite shr_m_record_of_loc, loc_of_shr_record_of_loc.
  fold (rne N (D * 2 ^ n)). set (q' := rne N (D * 2 ^ n)).
  assert (0 ≤ q') as Hq'.
  { pose proof (rne_bounds N (D * 2 ^ n)) as [Hlo _].
    assert (0 ≤ N / (D * 2 ^ n)) by (apply Z.div_pos; lia). unfold q'. lia. }
  rewrite <-(Z.div_1_r q') at 1. rewrite <-(loc_of_1 q').
  rewrite shr_fexp_cell by lia. rewrite Z.div_1_r, Z.mul_1_l.
  unfold cell. rewrite shr_m_record_of_loc.
  unfold SF_of_round, round_pos. fold n. fold q'. cbn [fst snd].
  change (emax - prec) with 971. done.
Qed.
End binary64_round.

Section binary64_round_norm.
Local Open Scope Z_scope.

Lemma Zdigits2_le (q k : Z) : 0 ≤ k → 0 ≤ q < 2 ^ k → Zdigits2 q ≤ k.
Proof.
  intros Hk [Hq Hlt]. destruct (Z.eq_dec q 0) as [->|Hne]; [simpl; lia|].
  pose proof (Zdigits2_bounds q ltac:(lia)) as [Hlo _].
  pose proof (Zdigits2_pos q ltac:(lia)) as Hd.
  assert (Zdigits2 q - 1 < k); [|lia].
  apply (Z.pow_lt_mono_r_iff 2); lia.
Qed.

(** When the fraction is given with enough digits, the result of the first
    shift is a mantissa of at most 53 digits, of exactly 53 digits above
    the smallest exponent, and a carry of the rounding costs one more
    shift. *)
Lemma round_pos_norm (N D e : Z) :
  0 ≤ N → 0 < D → e ≤ fexp64 (Zdigits2 (N / D) + e) →
  let E := fexp64 (Zdigits2 (N / D) + e) in
  let D' := D * 2 ^ (E - e) in
  let c := N / D' in
  let q' := rne N D' in
  -1074 ≤ E ∧ 0 < D' ∧ 0 ≤ c < 2 ^ 53 ∧ (-1074 < E → 2 ^ 52 ≤ c) ∧
  c ≤ q' ≤ c + 1 ∧
  round_pos N D e = if q' =? 2 ^ 53 then (2 ^ 52, E + 1) else (q', E).
Proof.
  intros HN HD HP E D' c q'.
  assert (shift64 (N / D) e = E - e) as Hn by (unfold shift64; fold E; lia).
  assert (-1074 ≤ E) as HE by (unfold E, fexp64; lia).
  assert (0 < 2 ^ (E - e)) as Hp by (apply Z.pow_pos_nonneg; lia).
  assert (0 < D') as HD' by (unfold D'; nia).
  assert (0 ≤ N / D) as Hq by (apply Z.div_pos; lia).
  assert (c = N / D / 2 ^ (E - e)) as Hc.
  { unfold c, D'. by rewrite Z.div_div by lia. }
  assert (0 ≤ c) as Hc0 by (unfold c; apply Z.div_pos; lia).
  assert (c < 2 ^ 53 ∧ (-1074 < E → 2 ^ 52 ≤ c)) as [Hc53 Hc52].
  { destruct (Z.eq_dec (N / D) 0) as [Hq0|Hq0].
    { assert (c = 0) as -> by (rewrite Hc, Hq0; by apply Z.div_0_l, Z.neq_sym, Z.lt_neq).
      split; [done|]. unfold E, fexp64 in *. rewrite Hq0 in *. simpl in *. lia. }
    pose proof (Zdigits2_pos (N / D) ltac:(lia)) as Hd.
    destruct (Z_lt_le_dec (E - e) (Zdigits2 (N / D))) as [Hlt|Hge].
    - pose proof (Zdigits2_div_pow2 (N / D) (E - e) ltac:(lia) ltac:(lia))
        as Hdc.
      rewrite <-Hc in Hdc.
      assert (0 < c) as Hcpos.
      { rewrite Hc. apply Z.div_str_pos. split; [done|].
        pose proof (Zdigits2_bounds (N / D) ltac:(lia)) as [Hlo _].
        eapply Z.le_trans; [|exact Hlo]. apply Z.pow_le_mono_r; lia. }
      pose proof (Zdigits2_bounds c Hcpos) as [Hlo Hhi]. split.
      + eapply Z.lt_le_trans; [exact Hhi|]. apply Z.pow_le_mono_r; [lia|].
        unfold E, fexp64 in *. lia.
      + intros HE'. assert (Zdigits2 c = 53) as Hd53
          by (unfold E, fexp64 in *; lia).
        by rewrite Hd53 in Hlo.
    - assert (c = 0) as -> by (rewrite Hc; apply div_pow2_small; lia).
      split; [done|]. unfold E, fexp64 in *. lia. }
  pose proof (rne_bounds N D') as Hq'. fold c q' in Hq'.
  split; [done|]. split; [done|]. split; [done|]. split; [done|].
  split; [done|].
  unfold round_pos. rewrite Hn. fold D' q'.
  replace (e + (E - e)) with E by lia.
  change (2 ^ 53) with 9007199254740992 in *.
  change (2 ^ 52) with 4503599627370496 in *.
  destruct (q' =? 9007199254740992) eqn:Hcarry.
  - apply Z.eqb_eq in Hcarry. rewrite Hcarry.
    assert (shift64 9007199254740992 E = 1) as ->.
    { unfold shift64, fexp64. simpl Zdigits2. lia. }
    by rewrite Z.add_comm.
  - apply Z.eqb_neq in Hcarry.
    assert (shift64 q' E = 0) as ->.
    { pose proof (Zdigits2_le q' 53 ltac:(lia)) as Hd.
      change (2 ^ 53) with 9007199254740992 in Hd.
      unfold shift64, fexp64. lia. }
    by rewrite Z.div_1_r, Z.add_0_r.
Qed.
End binary64_round_norm.

Section binary64_round_mono.
Local Open Scope Z_scope.
Import Binary64.

Lemma SF_rank_of_round (m F : Z) :
  0 ≤ m →
  SF_rank (SF_of_round false (m, F)) =
    if m =? 0 then (0, 0, 0)
    else if F <=? 971 then (1, F, m) else (2, 0, 0).
Proof.
  intros Hm. unfold SF_of_round. cbn [fst snd].
  destruct m as [|p|p]; [done| |lia]. simpl. by destruct (F <=? 971).
Qed.

Lemma SF_of_round_number (m F : Z) :
  0 ≤ m → SF_number (SF_of_round false (m, F)).
Proof.
  intros Hm. unfold SF_of_round, SF_number. cbn [fst snd].
  destruct m as [|p|p]; [done| |lia]. by destruct (F <=? 971).
Qed.

(** Rounding is monotone: of two fractions given with enough digits, the
    smaller one has the smaller result. *)
Lemma round_pos_mono (N1 D1 e1 N2 D2 e2 e0 : Z) :
  0 ≤ N1 → 0 < D1 → e1 ≤ fexp64 (Zdigits2 (N1 / D1) + e1) →
  0 ≤ N2 → 0 < D2 → e2 ≤ fexp64 (Zdigits2 (N2 / D2) + e2) →
  e0 ≤ e1 → e0 ≤ e2 →
  N1 * D2 * 2 ^ (e1 - e0) ≤ N2 * D1 * 2 ^ (e2 - e0) →
  lex_le (SF_rank (SF_of_round false (round_pos N1 D1 e1)))
         (SF_rank (SF_of_round false (round_pos N2 D2 e2))).
Proof.
  intros HN1 HD1 HP1 HN2 HD2 HP2 He1 He2 Hle.
  destruct (round_pos_norm N1 D1 e1 HN1 HD1 HP1)
    as (HE1 & HD1' & [Hc1 Hc1'] & Hn1 & [Hq1 Hq1'] & ->).
  destruct (round_pos_norm N2 D2 e2 HN2 HD2 HP2)
    as (HE2 & HD2' & [Hc2 Hc2'] & Hn2 & [Hq2 Hq2'] & ->).
  set (E1 := fexp64 (Zdigits2 (N1 / D1) + e1)) in *.
  set (E2 := fexp64 (Zdigits2 (N2 / D2) + e2)) in *.
  set (P1 := 2 ^ (E1 - e1)) in *. set (P2 := 2 ^ (E2 - e2)) in *.
  set (A := 2 ^ (e1 - e0)) in *. set (B := 2 ^ (e2 - e0)) in *.
  assert (0 < P1) as HP1' by (apply Z.pow_pos_nonneg; lia).
  assert (0 < P2) as HP2' by (apply Z.pow_pos_nonneg; lia).
  assert (0 < A) as HA by (apply Z.pow_pos_nonneg; lia).
  assert (0 < B) as HB by (apply Z.pow_pos_nonneg; lia).
  assert (A * P1 = 2 ^ (E1 - e0)) as HAP.
  { unfold A, P1. rewrite <-Z.pow_add_r by lia. f_equal. lia. }
  assert (B * P2 = 2 ^ (E2 - e0)) as HBP.
  { unfold B, P2. rewrite <-Z.pow_add_r by lia. f_equal. lia. }
  pose proof (Z.mul_div_le N1 (D1 * P1) HD1') as Hlo1.
  pose proof (Z.mul_succ_div_gt N2 (D2 * P2) HD2') as Hhi2.
  set (c1 := N1 / (D1 * P1)) in *. set (c2 := N2 / (D2 * P2)) in *.
  set (q1 := rne N1 (D1 * P1)) in *. set (q2 := rne N2 (D2 * P2)) in *.
  change (2 ^ 53) with 9007199254740992 in *.
  change (2 ^ 52) with 4503599627370496 in *.
  assert (∀ q E : Z, 0 ≤ q →
            SF_rank (SF_of_round false
              (if q =? 9007199254740992 then (4503599627370496, E + 1)
               else (q, E)))
            = if q =? 9007199254740992
              then (if E + 1 <=? 971 then (1, E + 1, 4503599627370496)
                    else (2, 0, 0))
              else if q =? 0 then (0, 0, 0)
              else if E <=? 971 then (1, E, q) else (2, 0, 0)) as Hrank.
  { intros q E Hq. destruct (q =? 9007199254740992);
      by rewrite SF_rank_of_round by lia. }
  rewrite !Hrank by lia. clear Hrank.
  destruct (Z.lt_trichotomy E1 E2) as [Hlt|[Heq|Hgt]].
  - (* the smaller one is in a lower binade *)
    pose proof (Hn2 ltac:(lia)) as Hc2big.
    unfold lex_le.
    repeat (case_match; try (apply Z.eqb_eq in H || apply Z.eqb_neq in H
                             || apply Z.leb_le in H
                             || apply Z.leb_gt in H)); simpl; lia.
  - (* same binade: the mantissas are rounded in order *)
    assert (q1 ≤ q2) as Hq.
    { apply rne_mono; [done..|].
      assert (A * P1 = B * P2) as HT by (rewrite HAP, HBP; f_equal; lia).
      apply (Z.mul_le_mono_pos_l _ _ (A * P1)); [lia|].
      replace (A * P1 * (N1 * (D2 * P2)))
        with (N1 * D2 * A * (P1 * P2)) by ring.
      rewrite HT at 1.
      replace (B * P2 * (N2 * (D1 * P1)))
        with (N2 * D1 * B * (P1 * P2)) by ring.
      apply Z.mul_le_mono_nonneg_r; [nia|done]. }
    unfold lex_le. rewrite <-Heq.
    repeat (case_match; try (apply Z.eqb_eq in H || apply Z.eqb_neq in H
                             || apply Z.leb_le in H
                             || apply Z.leb_gt in H)); simpl; lia.
  - (* the other order of the binades contradicts the order of the
       fractions *)
    exfalso. pose proof (Hn1 ltac:(lia)) as Hc1big.
    assert (4503599627370496 * (D1 * P1) ≤ N1) as H1 by nia.
    assert (N2 < 9007199254740992 * (D2 * P2)) as H2 by nia.
    assert (4503599627370496 * (D1 * P1) * D2 * A
            < 9007199254740992 * (D2 * P2) * D1 * B) as H3.
    { eapply Z.le_lt_trans; [|eapply Z.le_lt_trans; [exact Hle|]].
      - replace (4503599627370496 * (D1 * P1) * D2 * A)
          with (4503599627370496 * (D1 * P1) * (D2 * A)) by ring.
        replace (N1 * D2 * A) with (N1 * (D2 * A)) by ring.
        apply Z.mul_le_mono_nonneg_r; [nia|done].
      - replace (9007199254740992 * (D2 * P2) * D1 * B)
          with (9007199254740992 * (D2 * P2) * (D1 * B)) by ring.
        replace (N2 * D1 * B) with (N2 * (D1 * B)) by ring.
        apply Z.mul_lt_mono_pos_r; [nia|done]. }
    assert (A * P1 < 2 * (B * P2)) as H4.
    { apply (Z.mul_lt_mono_pos_l (4503599627370496 * (D1 * D2)));
        [nia|].
      replace (4503599627370496 * (D1 * D2) * (A * P1))
        with (4503599627370496 * (D1 * P1) * D2 * A) by ring.
      replace (4503599627370496 * (D1 * D2) * (2 * (B * P2)))
        with (9007199254740992 * (D2 * P2) * D1 * B) by ring.
      done. }
    rewrite HAP, HBP in H4.
    replace (2 * 2 ^ (E2 - e0)) with (2 ^ (E2 - e0 + 1)) in H4
      by (rewrite Z.pow_add_r by lia; lia).
    apply Z.pow_lt_mono_r_iff in H4; lia.
Qed.
End binary64_round_mono.

Section binary64_value.
Local Open Scope Z_scope.
Import Binary64.

(** On valid finite floats the order is the order of the values. *)
Lemma SF_rank_value (f g : spec_float) :
  valid_binary f = true → valid_binary g = true →
  SF_finite f = true → SF_finite g = true →
  (lex_le (SF_rank f) (SF_rank g) ↔ SF_value f ≤ SF_value g) ∧
  (lex_lt (SF_rank f) (SF_rank g) ↔ SF_value f < SF_value g).
Proof.
  intros Hf Hg Ff Fg. unfold lex_le, lex_lt.
  destruct f as [s1|s1| |s1 m1 e1], g as [s2|s2| |s2 m2 e2]; try done.
  - simpl. lia.
  - apply valid_binary_bounds in Hg as (He2 & _ & _).
    assert (0 < 2 ^ (e2 + 1074)) by (apply Z.pow_pos_nonneg; lia).
    destruct s2; simpl; lia.
  - apply valid_binary_bounds in Hf as (He1 & _ & _).
    assert (0 < 2 ^ (e1 + 1074)) by (apply Z.pow_pos_nonneg; lia).
    destruct s1; simpl; lia.
  - apply valid_binary_bounds in Hf as (He1 & Hm1 & Hn1).
    apply valid_binary_bounds in Hg as (He2 & Hm2 & Hn2).
    change (2 ^ 53) with 9007199254740992 in *.
    change (2 ^ 52) with 4503599627370496 in *.
    assert (0 < 2 ^ (e1 + 1074)) as HX1 by (apply Z.pow_pos_nonneg; lia).
    assert (0 < 2 ^ (e2 + 1074)) as HX2 by (apply Z.pow_pos_nonneg; lia).
    assert ((e1 < e2 ∧
             Z.pos m1 * 2 ^ (e1 + 1074) < Z.pos m2 * 2 ^ (e2 + 1074)) ∨
            (e2 < e1 ∧
             Z.pos m2 * 2 ^ (e2 + 1074) < Z.pos m1 * 2 ^ (e1 + 1074)) ∨
            (e1 = e2 ∧ 2 ^ (e1 + 1074) = 2 ^ (e2 + 1074))) as Hord.
    { destruct (Z.lt_trichotomy e1 e2) as [Hlt|[Heq|Hgt]].
      - left. split; [done|].
        replace (e2 + 1074) with (e1 + 1074 + (e2 - e1)) by lia.
        rewrite (Z.pow_add_r 2 (e1 + 1074) (e2 - e1)) by lia.
        assert (2 ^ 1 ≤ 2 ^ (e2 - e1)) as Hp
          by (apply Z.pow_le_mono_r; lia).
        change (2 ^ 1) with 2 in Hp.
        set (X := 2 ^ (e1 + 1074)) in *. set (P := 2 ^ (e2 - e1)) in *.
        assert (9007199254740992 ≤ Z.pos m2 * P) by nia.
        assert (Z.pos m1 * X < 9007199254740992 * X) by nia.
        nia.
      - right. right. by subst.
      - right. left. split; [done|].
        replace (e1 + 1074) with (e2 + 1074 + (e1 - e2)) by lia.
        rewrite (Z.pow_add_r 2 (e2 + 1074) (e1 - e2)) by lia.
        assert (2 ^ 1 ≤ 2 ^ (e1 - e2)) as Hp
          by (apply Z.pow_le_mono_r; lia).
        change (2 ^ 1) with 2 in Hp.
        set (X := 2 ^ (e2 + 1074)) in *. set (P := 2 ^ (e1 - e2)) in *.
        assert (9007199254740992 ≤ Z.pos m1 * P) by nia.
        assert (Z.pos m2 * X < 9007199254740992 * X) by nia.
        nia. }
    set (X1 := 2 ^ (e1 + 1074)) in *. set (X2 := 2 ^ (e2 + 1074)) in *.
    assert (0 < Z.pos m1 * X1) by nia. assert (0 < Z.pos m2 * X2) by nia.
    destruct Hord as [[He Hv]|[[He Hv]|[He Hv]]].
    + destruct s1, s2; simpl; lia.
    + destruct s1, s2; simpl; lia.
    + rewrite <- Hv in *. subst e2.
      destruct s1, s2; simpl; (split; split; intros; nia).
Qed.

(** Changing the sign reverses the order. *)
Lemma SF_rank_opp (f : spec_float) :
  SF_number f →
  SF_rank (SFopp f) =
    (- (SF_rank f).1.1, - (SF_rank f).1.2, - (SF_rank f).2).
Proof.
  unfold SF_number. destruct f as [s|s| |s m e]; try destruct s; try done.
  - simpl. by rewrite Z.opp_involutive.
Qed.

Lemma SF_of_round_opp (r : Z * Z) :
  SF_of_round true r = SFopp (SF_of_round false r).
Proof.
  unfold SF_of_round. destruct r.1; try done. by destruct (r.2 <=? 971).
Qed.
End binary64_value.

Section binary64_signed_round.
Local Open Scope Z_scope.
Import Binary64.

Lemma lex_le_trans (a b c : Z * Z * Z) :
  lex_le a b → lex_le b c → lex_le a c.
Proof. unfold lex_le. lia. Qed.

Lemma round_pos_fst_nonneg (N D e : Z) :
  0 ≤ N → 0 < D → e ≤ fexp64 (Zdigits2 (N / D) + e) →
  0 ≤ (round_pos N D e).1.
Proof.
  intros HN HD HP.
  destruct (round_pos_norm N D e HN HD HP)
    as (_ & _ & [Hc _] & _ & [Hq _] & ->).
  case_match; simpl; lia.
Qed.

Lemma SF_round_sign (N D e : Z) :
  0 ≤ N → 0 < D → e ≤ fexp64 (Zdigits2 (N / D) + e) →
  SF_number (SF_of_round false (round_pos N D e)) ∧
  SF_number (SF_of_round true (round_pos N D e)) ∧
  lex_le (0, 0, 0) (SF_rank (SF_of_round false (round_pos N D e))) ∧
  lex_le (SF_rank (SF_of_round true (round_pos N D e))) (0, 0, 0).
Proof.
  intros HN HD HP. pose proof (round_pos_fst_nonneg N D e HN HD HP) as Hr.
  destruct (round_pos N D e) as [m F]. simpl in Hr.
  unfold SF_of_round, SF_number, lex_le. cbn [fst snd].
  destruct m as [|p|p]; [simpl; repeat split; (done || lia)| |lia].
  destruct (F <=? 971); simpl; repeat split; (done || lia).
Qed.

(** Rounding a signed fraction is monotone. *)
Lemma Rz_mono (z1 D1 e1 z2 D2 e2 e0 : Z) :
  0 < D1 → (z1 ≠ 0 → e1 ≤ fexp64 (Zdigits2 (Z.abs z1 / D1) + e1)) →
  0 < D2 → (z2 ≠ 0 → e2 ≤ fexp64 (Zdigits2 (Z.abs z2 / D2) + e2)) →
  e0 ≤ e1 → e0 ≤ e2 →
  z1 * D2 * 2 ^ (e1 - e0) ≤ z2 * D1 * 2 ^ (e2 - e0) →
  SF_number (Rz z1 D1 e1) ∧ SF_number (Rz z2 D2 e2) ∧
  lex_le (SF_rank (Rz z1 D1 e1)) (SF_rank (Rz z2 D2 e2)).
Proof.
  intros HD1 HP1 HD2 HP2 He1 He2 Hle.
  assert (0 < 2 ^ (e1 - e0)) as HA by (apply Z.pow_pos_nonneg; lia).
  assert (0 < 2 ^ (e2 - e0)) as HB by (apply Z.pow_pos_nonneg; lia).
  assert (∀ z D e, 0 < D →
            (z ≠ 0 → e ≤ fexp64 (Zdigits2 (Z.abs z / D) + e)) →
            SF_number (Rz z D e) ∧
            (0 ≤ z → lex_le (0, 0, 0) (SF_rank (Rz z D e))) ∧
            (z ≤ 0 → lex_le (SF_rank (Rz z D e)) (0, 0, 0))) as Hsign.
  { intros z D e HD HP. destruct z as [|p|p]; simpl.
    - unfold lex_le. simpl. repeat split; (done || lia).
    - destruct (SF_round_sign (Z.pos p) D e) as (? & ? & ? & ?);
        [lia|done|by apply HP|]. repeat split; (done || lia).
    - destruct (SF_round_sign (Z.pos p) D e) as (? & ? & ? & ?);
        [lia|done|by apply HP|]. repeat split; (done || lia). }
  destruct (Hsign z1 D1 e1 HD1 HP1) as (Hn1 & Hp1 & Hm1).
  destruct (Hsign z2 D2 e2 HD2 HP2) as (Hn2 & Hp2 & Hm2).
  split; [done|]. split; [done|].
  destruct (Z_lt_le_dec z1 0) as [Hz1|Hz1].
  - destruct (Z_lt_le_dec z2 0) as [Hz2|Hz2].
    + destruct z1 as [|p1|p1]; [lia|lia|].
      destruct z2 as [|p2|p2]; [lia|lia|]. simpl.
      rewrite !SF_of_round_opp.
      destruct (SF_round_sign (Z.pos p1) D1 e1) as (Ha & _);
        [lia|done|by apply HP1|].
      destruct (SF_round_sign (Z.pos p2) D2 e2) as (Hb & _);
        [lia|done|by apply HP2|].
      rewrite !SF_rank_opp by done.
      assert (lex_le (SF_rank (SF_of_round false (round_pos (Z.pos p2) D2 e2)))
                     (SF_rank (SF_of_round false (round_pos (Z.pos p1) D1 e1))))
        as Hm.
      { apply (round_pos_mono _ _ _ _ _ _ e0); try done; try lia;
          try (by apply HP1); try (by apply HP2). }
      revert Hm. unfold lex_le. simpl. lia.
    + eapply lex_le_trans; [apply Hm1; lia|apply Hp2; lia].
  - destruct (Z.eq_dec z1 0) as [->|Hne1].
    + apply Hp2. set (B := 2 ^ (e2 - e0)) in *. nia.
    + assert (0 < z2) as Hz2.
      { set (A := 2 ^ (e1 - e0)) in *. set (B := 2 ^ (e2 - e0)) in *. nia. }
      destruct z1 as [|p1|p1]; [lia| |lia].
      destruct z2 as [|p2|p2]; [lia| |lia]. simpl.
      apply (round_pos_mono _ _ _ _ _ _ e0); try done; try lia;
        try (by apply HP1); try (by apply HP2).
Qed.
End binary64_signed_round.

Section binary64_normalize.
Local Open Scope Z_scope.
Import Binary64.

Lemma valid_binary_canonical s m e :
  valid_binary (S754_finite s m e) = true →
  e ≤ 971 ∧ fexp64 (Zdigits2 (Z.pos m) + e) = e.
Proof.
  unfold SpecFloat.valid_binary, bounded, canonical_mantissa.
  intros [Hc%Z.eqb_eq He%Z.leb_le]%andb_prop.
  rewrite fexp_fexp64 in Hc. change (emax - prec) with 971 in He.
  by split.
Qed.

Lemma Rz_pos (z D e : Z) :
  0 < z → Rz z D e = SF_of_round false (round_pos z D e).
Proof. by destruct z. Qed.

Lemma Rz_neg (z D e : Z) :
  z < 0 → Rz z D e = SF_of_round true (round_pos (- z) D e).
Proof. by destruct z. Qed.

Lemma rne_exact (N : Z) : rne N 1 = N.
Proof. unfold rne. by rewrite loc_of_1, Z.div_1_r. Qed.

(** Rounding a float gives the float. *)
Lemma Rz_id s m e :
  valid_binary (S754_finite s m e) = true →
  Rz (cond_Zopp s (Z.pos m)) 1 e = S754_finite s m e.
Proof.
  intros Hv. pose proof (valid_binary_bounds _ _ _ Hv) as (He & Hm & _).
  apply valid_binary_canonical in Hv as [Hmax Hc].
  assert (round_pos (Z.pos m) 1 e = (Z.pos m, e)) as Hr.
  { destruct (round_pos_norm (Z.pos m) 1 e) as (_ & _ & _ & _ & _ & ->);
      [lia|lia|rewrite Z.div_1_r; lia|].
    rewrite Z.div_1_r, Hc, Z.sub_diag. simpl (2 ^ 0). rewrite rne_exact.
    destruct (Z.eqb_spec (Z.pos m) (2 ^ 53)); [lia|done]. }
  destruct s; simpl; rewrite Hr; unfold SF_of_round; cbn [fst snd];
    by destruct (Z.leb_spec e 971); [|lia].
Qed.

Lemma shl_align_min (m : positive) (e e' : Z) :
  Z.pos (shl_align m e e').1 = Z.pos m * 2 ^ (e - Z.min e e') ∧
  (shl_align m e e').2 = Z.min e e'.
Proof.
  destruct (Z_le_gt_dec e e') as [Hle|Hgt].
  - unfold shl_align. replace (Z.min e e') with e by lia.
    rewrite Z.sub_diag. destruct (e' - e) eqn:Hd; simpl; (lia || done).
  - replace (Z.min e e') with e' by lia. split.
    + apply shl_align_spec. lia.
    + unfold shl_align. destruct (e' - e) eqn:Hd; simpl; (lia || done).
Qed.

Lemma Zdigits2_mul_pow2 (q k : Z) :
  0 < q → 0 ≤ k → Zdigits2 (q * 2 ^ k) = Zdigits2 q + k.
Proof.
  intros Hq Hk. pose proof (Zdigits2_bounds q Hq) as [Hlo Hhi].
  pose proof (Zdigits2_pos q Hq) as Hd.
  assert (0 < 2 ^ k) as Hp by (apply Z.pow_pos_nonneg; lia).
  apply Zdigits2_unique; [|nia]. split.
  - replace (Zdigits2 q + k - 1) with (Zdigits2 q - 1 + k) by lia.
    rewrite Z.pow_add_r by lia. nia.
  - rewrite Z.pow_add_r by lia. nia.
Qed.

(** [binary_round] rounds the integer [m * 2^(e - e')] at the exponent [e'],
    the smaller of [e] and the exponent of the format. *)
Lemma binary_round_Rz (s : bool) (m : positive) (e : Z) :
  let e' := Z.min e (fexp64 (Zdigits2 (Z.pos m) + e)) in
  let N := Z.pos m * 2 ^ (e - e') in
  0 < N ∧ e' ≤ fexp64 (Zdigits2 (N / 1) + e') ∧
  binary_round prec emax s m e = SF_of_round s (round_pos N 1 e').
Proof.
  intros e' N.
  assert (0 < 2 ^ (e - e')) as Hp by (apply Z.pow_pos_nonneg; lia).
  assert (0 < N) as HN by (unfold N; nia).
  split; [done|]. split.
  - rewrite Z.div_1_r. unfold N.
    rewrite Zdigits2_mul_pow2 by lia.
    replace (Zdigits2 (Z.pos m) + (e - e') + e')
      with (Zdigits2 (Z.pos m) + e) by lia. lia.
  - unfold binary_round. rewrite fexp_fexp64.
    change (Z.pos (digits2_pos m)) with (Zdigits2 (Z.pos m)).
    pose proof (shl_align_min m e (fexp64 (Zdigits2 (Z.pos m) + e)))
      as [H1 H2].
    destruct (shl_align m e (fexp64 (Zdigits2 (Z.pos m) + e))) as [mz ez].
    simpl in H1, H2. fold e' in H1, H2. fold N in H1. subst ez.
    rewrite H1.
    rewrite <-(binary_round_aux_cell s N 1 e') by lia.
    by rewrite Z.div_1_r, loc_of_1.
Qed.

Lemma binary_normalize_Rz (z e : Z) :
  let e' := Z.min e (fexp64 (Zdigits2 (Z.abs z) + e)) in
  let z' := z * 2 ^ (e - e') in
  (z' ≠ 0 → e' ≤ fexp64 (Zdigits2 (Z.abs z' / 1) + e')) ∧
  binary_normalize prec emax z e false = Rz z' 1 e'.
Proof.
  intros e' z'.
  assert (0 < 2 ^ (e - e')) as Hp by (apply Z.pow_pos_nonneg; lia).
  destruct z as [|m|m].
  - by split.
  - destruct (binary_round_Rz false m e) as (HN & HP & Hr).
    split.
    + intros _. unfold z'. by rewrite Z.abs_eq by lia.
    + simpl binary_normalize. rewrite Hr. by rewrite Rz_pos.
  - destruct (binary_round_Rz true m e) as (HN & HP & Hr).
    split.
    + intros _. unfold z'.
      replace (Z.abs (Z.neg m * 2 ^ (e - e'))) with (Z.pos m * 2 ^ (e - e'))
        by lia. done.
    + simpl binary_normalize. rewrite Hr. rewrite Rz_neg by (unfold z'; nia).
      replace (- z') with (Z.pos m * 2 ^ (e - e')) by (unfold z'; lia).
      done.
Qed.
End binary64_normalize.

Section binary64_add.
Local Open Scope Z_scope.
Import Binary64.

Lemma SF_rank_number (f g : spec_float) :
  SF_rank f = SF_rank g → SF_number g → SF_number f.
Proof.
  unfold SF_number.
  destruct f as [s|s| |s m e], g as [s'|s'| |s' m' e'];
    try destruct s; try destruct s'; simpl; congruence.
Qed.

Lemma SF_rank_bounds (f : spec_float) :
  SF_number f →
  lex_le (-2, 0, 0) (SF_rank f) ∧ lex_le (SF_rank f) (2, 0, 0).
Proof.
  unfold SF_number, lex_le.
  destruct f as [s|s| |s m e]; try destruct s; simpl; (done || lia).
Qed.

Lemma SFsub_add_opp (x y : spec_float) :
  SFsub prec emax x y = SFadd prec emax x (SFopp y).
Proof.
  destruct x as [sx|sx| |sx mx ex], y as [sy|sy| |sy my ey];
    try destruct sx; try destruct sy; try done;
    simpl; f_equal; lia.
Qed.

Lemma SFadd_comm (x y : spec_float) :
  SFadd prec emax x y = SFadd prec emax y x.
Proof.
  destruct x as [sx|sx| |sx mx ex], y as [sy|sy| |sy my ey];
    try destruct sx; try destruct sy; try done;
    simpl; rewrite (Z.min_comm ey ex); f_equal; lia.
Qed.

Lemma valid_binary_opp (f : spec_float) :
  valid_binary (SFopp f) = valid_binary f.
Proof. by destruct f. Qed.

Lemma SF_value_opp (f : spec_float) : SF_value (SFopp f) = - SF_value f.
Proof. destruct f as [s|s| |s m e]; try done. by destruct s; simpl; lia. Qed.

Lemma SF_finite_opp (f : spec_float) : SF_finite (SFopp f) = SF_finite f.
Proof. by destruct f. Qed.

(** The sum of two finite floats is their exact sum, rounded. *)
Lemma SFadd_Rz (a b : spec_float) :
  valid_binary a = true → valid_binary b = true →
  SF_finite a = true → SF_finite b = true →
  ∃ z e : Z,
    -1074 ≤ e ∧ (z ≠ 0 → e ≤ fexp64 (Zdigits2 (Z.abs z / 1) + e)) ∧
    SF_rank (SFadd prec emax a b) = SF_rank (Rz z 1 e) ∧
    z * 2 ^ (e + 1074) = SF_value a + SF_value b.
Proof.
  intros Ha Hb Fa Fb.
  assert (∀ s m e, valid_binary (S754_finite s m e) = true →
            -1074 ≤ e ∧
            (cond_Zopp s (Z.pos m) ≠ 0 →
             e ≤ fexp64 (Zdigits2 (Z.abs (cond_Zopp s (Z.pos m)) / 1) + e)) ∧
            SF_rank (S754_finite s m e) =
              SF_rank (Rz (cond_Zopp s (Z.pos m)) 1 e) ∧
            cond_Zopp s (Z.pos m) * 2 ^ (e + 1074) =
              SF_value (S754_finite s m e)) as Hid.
  { intros s m e Hv. pose proof (valid_binary_bounds _ _ _ Hv) as (He & _).
    pose proof (valid_binary_canonical _ _ _ Hv) as [_ Hc].
    split; [done|]. split; [|split].
    - intros _. rewrite Z.div_1_r.
      replace (Z.abs (cond_Zopp s (Z.pos m))) with (Z.pos m)
        by (destruct s; simpl; lia). lia.
    - by rewrite Rz_id.
    - destruct s; simpl; lia. }
  destruct a as [sa|sa| |sa ma ea], b as [sb|sb| |sb mb eb]; try done.
  - exists 0, (-1074). split; [lia|]. split; [done|].
    split; [by destruct sa, sb|done].
  - exists (cond_Zopp sb (Z.pos mb)), eb.
    destruct (Hid sb mb eb Hb) as (? & ? & ? & ?). by destruct sa.
  - exists (cond_Zopp sa (Z.pos ma)), ea.
    destruct (Hid sa ma ea Ha) as (? & ? & ? & Hv).
    repeat split; try done. rewrite Hv. simpl. lia.
  - pose proof (valid_binary_bounds _ _ _ Ha) as (Hea & _).
    pose proof (valid_binary_bounds _ _ _ Hb) as (Heb & _).
    cbn [SFadd].
    set (ez := Z.min ea eb).
    pose proof (shl_align_spec ma ea ez ltac:(lia)) as HA.
    pose proof (shl_align_spec mb eb ez ltac:(lia)) as HB.
    set (A := Z.pos (shl_align ma ea ez).1) in *.
    set (B := Z.pos (shl_align mb eb ez).1) in *.
    set (Z0 := cond_Zopp sa A + cond_Zopp sb B).
    destruct (binary_normalize_Rz Z0 ez) as [HP Hr].
    set (e' := Z.min ez (fexp64 (Zdigits2 (Z.abs Z0) + ez))) in *.
    exists (Z0 * 2 ^ (ez - e')), e'.
    split; [unfold e', fexp64; lia|]. split; [done|].
    split; [by rewrite Hr|].
    rewrite <-Z.mul_assoc, <-Z.pow_add_r by (unfold e', fexp64; lia).
    replace (ez - e' + (e' + 1074)) with (ez + 1074) by lia.
    assert (A * 2 ^ (ez + 1074) = Z.pos ma * 2 ^ (ea + 1074)) as HA'.
    { rewrite HA, <-Z.mul_assoc, <-Z.pow_add_r by lia. do 2 f_equal. lia. }
    assert (B * 2 ^ (ez + 1074) = Z.pos mb * 2 ^ (eb + 1074)) as HB'.
    { rewrite HB, <-Z.mul_assoc, <-Z.pow_add_r by lia. do 2 f_equal. lia. }
    unfold Z0. simpl SF_value. destruct sa, sb; simpl; lia.
Qed.

Lemma SFadd_mono_finite (a b a' b' : spec_float) :
  valid_binary a = true → valid_binary b = true →
  SF_finite a = true → SF_finite b = true →
  valid_binary a' = true → valid_binary b' = true →
  SF_finite a' = true → SF_finite b' = true →
  SF_value a + SF_value b ≤ SF_value a' + SF_value b' →
  SF_number (SFadd prec emax a b) ∧ SF_number (SFadd prec emax a' b') ∧
  lex_le (SF_rank (SFadd prec emax a b)) (SF_rank (SFadd prec emax a' b')).
Proof.
  intros Ha Hb Fa Fb Ha' Hb' Fa' Fb' Hle.
  destruct (SFadd_Rz a b Ha Hb Fa Fb) as (z & e & He & HP & Hr & Hv).
  destruct (SFadd_Rz a' b' Ha' Hb' Fa' Fb')
    as (z' & e' & He' & HP' & Hr' & Hv').
  destruct (Rz_mono z 1 e z' 1 e' (-1074)) as (Hn & Hn' & Hm);
    try done; try lia.
  { replace (e - -1074) with (e + 1074) by lia.
    replace (e' - -1074) with (e' + 1074) by lia. lia. }
  rewrite Hr, Hr'. split; [by eapply SF_rank_number|].
  split; [by eapply SF_rank_number|done].
Qed.

(** Adding a finite float on the left is monotone. *)
Lemma SFadd_mono (c x y : spec_float) :
  valid_binary c = true → valid_binary x = true → valid_binary y = true →
  SF_finite c = true → SF_number x → SF_number y →
  lex_le (SF_rank x) (SF_rank y) →
  SF_number (SFadd prec emax c x) ∧ SF_number (SFadd prec emax c y) ∧
  lex_le (SF_rank (SFadd prec emax c x)) (SF_rank (SFadd prec emax c y)).
Proof.
  intros Hc Hx Hy Fc Nx Ny Hle.
  destruct (SF_finite x) eqn:Fx, (SF_finite y) eqn:Fy.
  - apply SFadd_mono_finite; try done.
    apply (SF_rank_value x y) in Hle; try done. lia.
  - destruct (SFadd_mono_finite c x c x) as (Hn & _ & _); try done; try lia.
    assert (y = S754_infinity false) as ->.
    { revert Hle Ny Fx Fy. unfold lex_le, SF_number.
      destruct x as [s|s| |s m e], y as [s'|s'| |s' m' e'];
        try destruct s; try destruct s'; simpl; (done || lia). }
    assert (SFadd prec emax c (S754_infinity false) = S754_infinity false)
      as -> by (by destruct c).
    split; [done|]. split; [done|]. by apply SF_rank_bounds.
  - destruct (SFadd_mono_finite c y c y) as (Hn & _ & _); try done; try lia.
    assert (x = S754_infinity true) as ->.
    { revert Hle Nx Fx Fy. unfold lex_le, SF_number.
      destruct x as [s|s| |s m e], y as [s'|s'| |s' m' e'];
        try destruct s; try destruct s'; simpl; (done || lia). }
    assert (SFadd prec emax c (S754_infinity true) = S754_infinity true)
      as -> by (by destruct c).
    split; [done|]. split; [done|]. by apply SF_rank_bounds.
  - revert Hle Nx Ny Fx Fy Fc. unfold lex_le, SF_number.
    destruct c as [sc|sc| |sc mc ec], x as [s|s| |s m e],
      y as [s'|s'| |s' m' e'];
      try destruct s; try destruct s'; simpl; (done || lia).
Qed.
End binary64_add.

Section binary64_mul_div.
Local Open Scope Z_scope.
Import Binary64.

Lemma Zdigits2_lower (q k : Z) : 0 ≤ k → 2 ^ k ≤ q → k + 1 ≤ Zdigits2 q.
Proof.
  intros Hk Hq.
  assert (0 < 2 ^ k) as Hp by (apply Z.pow_pos_nonneg; lia).
  pose proof (Zdigits2_bounds q ltac:(lia)) as [_ Hhi].
  pose proof (Zdigits2_pos q ltac:(lia)) as Hd.
  assert (k < Zdigits2 q); [|lia].
  apply (Z.pow_lt_mono_r_iff 2); lia.
Qed.

Lemma Zdigits2_nonneg (q : Z) : 0 ≤ Zdigits2 q.
Proof. destruct q; simpl; lia. Qed.

Lemma Zdigits2_mul (a b : Z) :
  0 < a → 0 < b → Zdigits2 a + Zdigits2 b - 1 ≤ Zdigits2 (a * b).
Proof.
  intros Ha Hb.
  pose proof (Zdigits2_bounds a Ha) as [Hla _].
  pose proof (Zdigits2_bounds b Hb) as [Hlb _].
  pose proof (Zdigits2_pos a Ha). pose proof (Zdigits2_pos b Hb).
  assert (2 ^ (Zdigits2 a - 1 + (Zdigits2 b - 1)) ≤ a * b) as Hl.
  { rewrite Z.pow_add_r by lia.
    assert (0 < 2 ^ (Zdigits2 a - 1)) by (apply Z.pow_pos_nonneg; lia).
    assert (0 < 2 ^ (Zdigits2 b - 1)) by (apply Z.pow_pos_nonneg; lia).
    nia. }
  apply Zdigits2_lower in Hl; lia.
Qed.

Lemma Zdigits2_div (N D : Z) :
  0 < N → 0 < D → Zdigits2 N - Zdigits2 D ≤ Zdigits2 (N / D).
Proof.
  intros HN HD.
  pose proof (Zdigits2_bounds N HN) as [HlN _].
  pose proof (Zdigits2_bounds D HD) as [_ HhD].
  pose proof (Zdigits2_pos N HN). pose proof (Zdigits2_pos D HD).
  pose proof (Zdigits2_nonneg (N / D)).
  destruct (Z_le_gt_dec (Zdigits2 N - Zdigits2 D) 0) as [?|Hk]; [lia|].
  assert (2 ^ (Zdigits2 N - Zdigits2 D - 1) ≤ N / D) as Hl.
  { apply Z.div_le_lower_bound; [done|].
    assert (0 < 2 ^ (Zdigits2 N - Zdigits2 D - 1))
      by (apply Z.pow_pos_nonneg; lia).
    assert (2 ^ Zdigits2 D * 2 ^ (Zdigits2 N - Zdigits2 D - 1) =
            2 ^ (Zdigits2 N - 1)) as Hpow.
    { rewrite <-Z.pow_add_r by lia. f_equal. lia. }
    nia. }
  apply Zdigits2_lower in Hl; lia.
Qed.

Lemma new_location_loc_of (N D : Z) :
  0 < D → new_location D (N mod D) = loc_of N D.
Proof.
  intros HD. pose proof (Z.mod_pos_bound N D HD) as Hr.
  unfold new_location, new_location_even, new_location_odd, loc_of.
  destruct (Z.even D) eqn:Hev; [done|].
  destruct (Z.eqb_spec (N mod D) 0); [done|]. f_equal.
  assert (Z.odd D = true) as [j Hj]%Z.odd_spec
    by (by rewrite <-Z.negb_even, Hev).
  destruct (Z.compare_spec (2 * (N mod D) + 1) D),
    (Z.compare_spec (2 * (N mod D)) D); (done || lia).
Qed.

(** The quotient, the exponent and the remainder that [SFdiv] rounds. *)
Lemma SFdiv_core_cell (mx : positive) (ex : Z) (mr : positive) (er : Z) :
  let e' := Z.min (fexp64 (Zdigits2 (Z.pos mx) + ex
                           - (Zdigits2 (Z.pos mr) + er))) (ex - er) in
  let N := Z.pos mx * 2 ^ (ex - er - e') in
  SFdiv_core_binary prec emax (Z.pos mx) ex (Z.pos mr) er =
    (N / Z.pos mr, e', loc_of N (Z.pos mr)).
Proof.
  intros e' N. unfold SFdiv_core_binary. rewrite fexp_fexp64. fold e'.
  assert (0 ≤ ex - er - e') as Hs by lia.
  assert (match ex - er - e' with
          | 0 => Z.pos mx
          | Z.pos _ => Z.pos mx ≪ (ex - er - e')
          | Z.neg _ => 0
          end = N) as ->.
  { unfold N. destruct (ex - er - e') as [|k|k] eqn:Hk.
    - simpl. lia.
    - by rewrite Z.shiftl_mul_pow2.
    - lia. }
  lazymatch goal with
  | |- context [IntDef.Z.div_eucl ?a ?b] =>
      change (IntDef.Z.div_eucl a b) with (Z.div_eucl a b)
  end.
  rewrite <-new_location_loc_of by done.
  unfold Z.div, Z.modulo. by destruct (Z.div_eucl N (Z.pos mr)).
Qed.
End binary64_mul_div.

Section binary64_mul_div_mono.
Local Open Scope Z_scope.
Import Binary64.

(** The product of a finite float and a positive one is the exact product,
    rounded. *)
Lemma SFmul_Rz (x : spec_float) (mc : positive) (ec : Z) :
  valid_binary x = true → SF_finite x = true →
  valid_binary (S754_finite false mc ec) = true →
  ∃ z e : Z,
    -2148 ≤ e ∧ (z ≠ 0 → e ≤ fexp64 (Zdigits2 (Z.abs z / 1) + e)) ∧
    SF_rank (SFmul prec emax x (S754_finite false mc ec)) =
      SF_rank (Rz z 1 e) ∧
    z * 2 ^ (e + 2148) = SF_value x * (Z.pos mc * 2 ^ (ec + 1074)).
Proof.
  intros Hx Fx Hc.
  destruct x as [sx|sx| |sx mx ex]; try done.
  - exists 0, (-2148). by repeat split.
  - pose proof (valid_binary_bounds _ _ _ Hx) as (Hex & _).
    pose proof (valid_binary_bounds _ _ _ Hc) as (Hec & _).
    pose proof (valid_binary_canonical _ _ _ Hx) as [_ Hcx].
    pose proof (valid_binary_canonical _ _ _ Hc) as [_ Hcc].
    pose proof (Zdigits2_mul (Z.pos mx) (Z.pos mc)) as Hd.
    pose proof (Zdigits2_pos (Z.pos mx)). pose proof (Zdigits2_pos (Z.pos mc)).
    exists (cond_Zopp sx (Z.pos mx * Z.pos mc)), (ex + ec).
    split; [lia|].
    assert (ex + ec ≤ fexp64 (Zdigits2 (Z.pos mx * Z.pos mc / 1) + (ex + ec)))
      as HP.
    { rewrite Z.div_1_r. unfold fexp64 in *. lia. }
    split; [|split].
    + intros _.
      by replace (Z.abs (cond_Zopp sx (Z.pos mx * Z.pos mc)))
        with (Z.pos mx * Z.pos mc) by (destruct sx; simpl; lia).
    + cbn [SFmul].
      change (Z.pos (mx * mc)) with (Z.pos mx * Z.pos mc).
      rewrite <-(Z.div_1_r (Z.pos mx * Z.pos mc)) at 1.
      rewrite <-(loc_of_1 (Z.pos mx * Z.pos mc)).
      rewrite binary_round_aux_cell by lia.
      by destruct sx.
    + replace (ex + ec + 2148) with ((ex + 1074) + (ec + 1074)) by lia.
      rewrite Z.pow_add_r by lia. destruct sx; simpl; lia.
Qed.

(** Multiplying by a positive finite float is monotone. *)
Lemma SFmul_mono (x y : spec_float) (mc : positive) (ec : Z) :
  valid_binary x = true → valid_binary y = true →
  valid_binary (S754_finite false mc ec) = true →
  SF_number x → SF_number y →
  lex_le (SF_rank x) (SF_rank y) →
  SF_number (SFmul prec emax x (S754_finite false mc ec)) ∧
  SF_number (SFmul prec emax y (S754_finite false mc ec)) ∧
  lex_le (SF_rank (SFmul prec emax x (S754_finite false mc ec)))
         (SF_rank (SFmul prec emax y (S754_finite false mc ec))).
Proof.
  intros Hx Hy Hc Nx Ny Hle.
  pose proof (valid_binary_bounds _ _ _ Hc) as (Hec & _).
  assert (0 < Z.pos mc * 2 ^ (ec + 1074)) as HC.
  { assert (0 < 2 ^ (ec + 1074)) by (apply Z.pow_pos_nonneg; lia). nia. }
  assert (∀ a b, valid_binary a = true → valid_binary b = true →
            SF_finite a = true → SF_finite b = true →
            SF_value a ≤ SF_value b →
            SF_number (SFmul prec emax a (S754_finite false mc ec)) ∧
            SF_number (SFmul prec emax b (S754_finite false mc ec)) ∧
            lex_le (SF_rank (SFmul prec emax a (S754_finite false mc ec)))
                   (SF_rank (SFmul prec emax b (S754_finite false mc ec))))
    as Hfin.
  { intros a b Ha Hb Fa Fb Hv.
    destruct (SFmul_Rz a mc ec Ha Fa Hc) as (z & e & He & HP & Hr & Hz).
    destruct (SFmul_Rz b mc ec Hb Fb Hc) as (z' & e' & He' & HP' & Hr' & Hz').
    destruct (Rz_mono z 1 e z' 1 e' (-2148)) as (Hn & Hn' & Hm);
      try done; try lia.
    { replace (e - -2148) with (e + 2148) by lia.
      replace (e' - -2148) with (e' + 2148) by lia. nia. }
    rewrite Hr, Hr'. split; [by eapply SF_rank_number|].
    split; [by eapply SF_rank_number|done]. }
  destruct (SF_finite x) eqn:Fx, (SF_finite y) eqn:Fy.
  - apply Hfin; try done. apply (SF_rank_value x y) in Hle; try done.
  - destruct (Hfin x x) as (Hn & _ & _); try done; try lia.
    assert (y = S754_infinity false) as ->.
    { revert Hle Ny Fx Fy. unfold lex_le, SF_number.
      destruct x as [s|s| |s m e], y as [s'|s'| |s' m' e'];
        try destruct s; try destruct s'; simpl; (done || lia). }
    split; [done|]. split; [done|]. by apply SF_rank_bounds.
  - destruct (Hfin y y) as (Hn & _ & _); try done; try lia.
    assert (x = S754_infinity true) as ->.
    { revert Hle Nx Fx Fy. unfold lex_le, SF_number.
      destruct x as [s|s| |s m e], y as [s'|s'| |s' m' e'];
        try destruct s; try destruct s'; simpl; (done || lia). }
    split; [done|]. split; [done|]. by apply SF_rank_bounds.
  - revert Hle Nx Ny Fx Fy. unfold lex_le, SF_number.
    destruct x as [s|s| |s m e], y as [s'|s'| |s' m' e'];
      try destruct s; try destruct s'; simpl; (done || lia).
Qed.

(** The quotient of a finite float by a positive one is the exact quotient,
    rounded. *)
Lemma SFdiv_Rz (x : spec_float) (mr : positive) (er : Z) :
  valid_binary x = true → SF_finite x = true →
  valid_binary (S754_finite false mr er) = true →
  ∃ z e : Z,
    -3000 ≤ e ∧
    (z ≠ 0 → e ≤ fexp64 (Zdigits2 (Z.abs z / Z.pos mr) + e)) ∧
    SF_rank (SFdiv prec emax x (S754_finite false mr er)) =
      SF_rank (Rz z (Z.pos mr) e) ∧
    z * 2 ^ (e + 3000) = SF_value x * 2 ^ (1926 - er).
Proof.
  intros Hx Fx Hr.
  destruct x as [sx|sx| |sx mx ex]; try done.
  - exists 0, (-3000). by repeat split.
  - pose proof (valid_binary_bounds _ _ _ Hx) as (Hex & _).
    pose proof (valid_binary_bounds _ _ _ Hr) as (Her & _).
    pose proof (valid_binary_canonical _ _ _ Hx) as [Hxmax _].
    pose proof (valid_binary_canonical _ _ _ Hr) as [Hrmax _].
    cbn [SFdiv]. rewrite SFdiv_core_cell.
    set (e' := Z.min (fexp64 (Zdigits2 (Z.pos mx) + ex
                              - (Zdigits2 (Z.pos mr) + er))) (ex - er)).
    set (N := Z.pos mx * 2 ^ (ex - er - e')).
    assert (0 < 2 ^ (ex - er - e')) as Hp
      by (apply Z.pow_pos_nonneg; unfold e'; lia).
    assert (0 < N) as HN by (unfold N; nia).
    exists (cond_Zopp sx N), e'.
    split; [unfold e', fexp64; lia|].
    assert (Z.abs (cond_Zopp sx N) = N) as Habs
      by (destruct sx; simpl; lia).
    split; [|split].
    + intros _. rewrite Habs.
      pose proof (Zdigits2_div N (Z.pos mr) HN ltac:(lia)) as Hd.
      unfold N in Hd at 1.
      rewrite Zdigits2_mul_pow2 in Hd by (unfold e'; lia).
      unfold fexp64 in *. lia.
    + rewrite binary_round_aux_cell by lia.
      destruct sx; simpl xorb; simpl cond_Zopp.
      * rewrite Rz_neg by lia. by rewrite Z.opp_involutive.
      * by rewrite Rz_pos.
    + assert (N * 2 ^ (e' + 3000) =
              Z.pos mx * 2 ^ (ex + 1074) * 2 ^ (1926 - er)) as HNv.
      { unfold N. rewrite <-!Z.mul_assoc, <-!Z.pow_add_r
          by (unfold e', fexp64; lia).
        do 2 f_equal. lia. }
      destruct sx; simpl; lia.
Qed.

(** Dividing by a positive finite float is monotone. *)
Lemma SFdiv_mono (x y : spec_float) (mr : positive) (er : Z) :
  valid_binary x = true → valid_binary y = true →
  valid_binary (S754_finite false mr er) = true →
  SF_number x → SF_number y →
  lex_le (SF_rank x) (SF_rank y) →
  SF_number (SFdiv prec emax x (S754_finite false mr er)) ∧
  SF_number (SFdiv prec emax y (S754_finite false mr er)) ∧
  lex_le (SF_rank (SFdiv prec emax x (S754_finite false mr er)))
         (SF_rank (SFdiv prec emax y (S754_finite false mr er))).
Proof.
  intros Hx Hy Hr Nx Ny Hle.
  pose proof (valid_binary_canonical _ _ _ Hr) as [Hrmax _].
  assert (0 < 2 ^ (1926 - er)) as HC by (apply Z.pow_pos_nonneg; lia).
  assert (∀ a b, valid_binary a = true → valid_binary b = true →
            SF_finite a = true → SF_finite b = true →
            SF_value a ≤ SF_value b →
            SF_number (SFdiv prec emax a (S754_finite false mr er)) ∧
            SF_number (SFdiv prec emax b (S754_finite false mr er)) ∧
            lex_le (SF_rank (SFdiv prec emax a (S754_finite false mr er)))
                   (SF_rank (SFdiv prec emax b (S754_finite false mr er))))
    as Hfin.
  { intros a b Ha Hb Fa Fb Hv.
    destruct (SFdiv_Rz a mr er Ha Fa Hr) as (z & e & He & HP & Hq & Hz).
    destruct (SFdiv_Rz b mr er Hb Fb Hr) as (z' & e' & He' & HP' & Hq' & Hz').
    destruct (Rz_mono z (Z.pos mr) e z' (Z.pos mr) e' (-3000))
      as (Hn & Hn' & Hm); try done; try lia.
    { replace (e - -3000) with (e + 3000) by lia.
      replace (e' - -3000) with (e' + 3000) by lia.
      assert (z * 2 ^ (e + 3000) ≤ z' * 2 ^ (e' + 3000)) as Hzz
        by (rewrite Hz, Hz'; nia).
      rewrite <-(Z.mul_assoc z), (Z.mul_comm (Z.pos mr)), (Z.mul_assoc z).
      rewrite <-(Z.mul_assoc z'), (Z.mul_comm (Z.pos mr) (2 ^ (e' + 3000))),
        (Z.mul_assoc z').
      apply Z.mul_le_mono_nonneg_r; lia. }
    rewrite Hq, Hq'. split; [by eapply SF_rank_number|].
    split; [by eapply SF_rank_number|done]. }
  destruct (SF_finite x) eqn:Fx, (SF_finite y) eqn:Fy.
  - apply Hfin; try done. apply (SF_rank_value x y) in Hle; try done.
  - destruct (Hfin x x) as (Hn & _ & _); try done; try lia.
    assert (y = S754_infinity false) as ->.
    { revert Hle Ny Fx Fy. unfold lex_le, SF_number.
      destruct x as [s|s| |s m e], y as [s'|s'| |s' m' e'];
        try destruct s; try destruct s'; simpl; (done || lia). }
    split; [done|]. split; [done|]. by apply SF_rank_bounds.
  - destruct (Hfin y y) as (Hn & _ & _); try done; try lia.
    assert (x = S754_infinity true) as ->.
    { revert Hle Nx Fx Fy. unfold lex_le, SF_number.
      destruct x as [s|s| |s m e], y as [s'|s'| |s' m' e'];
        try destruct s; try destruct s'; simpl; (done || lia). }
    split; [done|]. split; [done|]. by apply SF_rank_bounds.
  - revert Hle Nx Ny Fx Fy. unfold lex_le, SF_number.
    destruct x as [s|s| |s m e], y as [s'|s'| |s' m' e'];
      try destruct s; try destruct s'; simpl; (done || lia).
Qed.
End binary64_mul_div_mono.

Section binary64_monotone_laws.
Import Binary64 ArithLaws.

Lemma binary64_sub_mono (x y m : float) :
  PrimFloat.leb x y → PrimFloat.is_finite m →
  PrimFloat.leb (x - m) (y - m).
Proof.
  rewrite !binary64_leb, binary64_is_finite, !FloatAxioms.sub_spec.
  intros (Nx & Ny & Hle) Fm. unfold SF64sub.
  rewrite !SFsub_add_opp, !(SFadd_comm _ (SFopp (Prim2SF m))).
  apply SFadd_mono; try done; try apply Prim2SF_valid.
  - rewrite valid_binary_opp. apply Prim2SF_valid.
  - rewrite SF_finite_opp. by apply Is_true_true.
Qed.

Lemma binary64_add_mono (x y c : float) :
  PrimFloat.leb x y → PrimFloat.is_finite c →
  PrimFloat.leb (c + x) (c + y).
Proof.
  rewrite !binary64_leb, binary64_is_finite, !FloatAxioms.add_spec.
  intros (Nx & Ny & Hle) Fc. unfold SF64add.
  apply SFadd_mono; try done; try apply Prim2SF_valid.
  by apply Is_true_true.
Qed.

Lemma binary64_mul_mono (x y c : float) :
  PrimFloat.leb x y → PrimFloat.is_finite c → PrimFloat.ltb PrimFloat.zero c →
  PrimFloat.leb (x * c) (y * c).
Proof.
  intros Hle Fc Hc. destruct (binary64_positive c Fc Hc) as (mc & ec & Hm).
  revert Hle. rewrite !binary64_leb, !FloatAxioms.mul_spec, Hm.
  intros (Nx & Ny & Hle). unfold SF64mul.
  apply SFmul_mono; try done; try apply Prim2SF_valid.
  rewrite <-Hm. apply Prim2SF_valid.
Qed.

Lemma binary64_div_mono (x y r : float) :
  PrimFloat.leb x y → PrimFloat.is_finite r → PrimFloat.ltb PrimFloat.zero r →
  PrimFloat.leb (x / r) (y / r).
Proof.
  intros Hle Fr Hr. destruct (binary64_positive r Fr Hr) as (mr & er & Hm).
  revert Hle. rewrite !binary64_leb, !FloatAxioms.div_spec, Hm.
  intros (Nx & Ny & Hle). unfold SF64div.
  apply SFdiv_mono; try done; try apply Prim2SF_valid.
  rewrite <-Hm. apply Prim2SF_valid.
Qed.

(** Binary64 arithmetic, rounding to nearest with ties to even, is
    monotone. *)
Lemma binary64_monotone : Monotone binary64.
Proof.
  split.
  - apply binary64_sub_mono.
  - apply binary64_div_mono.
  - apply binary64_mul_mono.
  - apply binary64_add_mono.
Qed.
End binary64_monotone_laws.

(** ** The depth track, for every arithmetic that keeps the laws *)

Section track_special.
Import Arith ArithLaws DepthTrack.
Context {A : Arith.ops} (HS : SpecialValues A).
Implicit Types (data : list (Point A)) (d x y : val A).
Local Open Scope arith_scope.

Lemma track_plotHeight : plotHeight = lit 500 :> val A.
Proof. apply (height_500 A HS). Qed.

Lemma track_range_finite data :
  finite (depthRange data) → finite (maxDepth data) ∧ finite (minDepth data).
Proof. apply (sub_finite A HS). Qed.

Lemma track_scale_top data :
  lit 0 <? depthRange data → finite (depthRange data) →
  scaleDepth data (minDepth data) = padding_top.
Proof.
  intros Hpos Hfin. destruct (track_range_finite data Hfin) as [_ Hm].
  unfold scaleDepth. rewrite (sub_self A HS) by done.
  rewrite (div_zero A HS), track_plotHeight by done.
  rewrite (mul_0_500 A HS). apply (add_40_0 A HS).
Qed.

Lemma track_scale_bottom data :
  lit 0 <? depthRange data → finite (depthRange data) →
  scaleDepth data (maxDepth data) = chartHeight - padding_bottom.
Proof.
  intros Hpos Hfin. unfold scaleDepth.
  change (maxDepth data - minDepth data) with (depthRange data).
  rewrite (div_self A HS), track_plotHeight by done.
  rewrite (mul_1_500 A HS). apply (bottom_540 A HS).
Qed.
End track_special.

Section track_sort.
Import Arith ArithLaws DepthTrack.
Context {A : Arith.ops} (HO : Ordered A).
Implicit Types (p q : Point A) (l data : list (Point A)) (x y : val A).
Local Open Scope arith_scope.

Lemma track_insert_perm p l : insert_sorted p l ≡ₚ p :: l.
Proof.
  induction l as [|q l IH]; [done|]. simpl.
  destruct (lit 0 <? by_depth p q); [|done].
  by rewrite IH, Permutation_swap.
Qed.

Lemma track_sort_perm l : Array_sort l ≡ₚ l.
Proof.
  induction l as [|p l IH]; [done|]. simpl.
  by rewrite track_insert_perm, IH.
Qed.

Lemma track_insert_sorted p l :
  finite_depth p → Forall finite_depth l →
  StronglySorted depth_le l →
  StronglySorted depth_le (insert_sorted p l).
Proof.
  intros Hp Hl Hs. induction Hs as [|q l Hs IH Hq]; simpl.
  { repeat constructor. }
  apply Forall_cons in Hl as [Hfq Hl]. unfold by_depth.
  rewrite (sub_sign A HO) by done.
  destruct (depth q <? depth p) eqn:Hlt.
  - constructor; [by apply IH|].
    rewrite track_insert_perm. constructor; [|done].
    apply (ltb_leb A HO). by rewrite Hlt.
  - assert (depth_le p q) as Hpq.
    { apply (leb_total A HO); [done..|]. rewrite Hlt. simpl. tauto. }
    constructor; [by constructor|]. constructor; [done|].
    eapply Forall_impl; [exact Hq|]. intros r Hr.
    by eapply (leb_trans A HO).
Qed.

Lemma track_sort_sorted l :
  Forall finite_depth l → StronglySorted depth_le (Array_sort l).
Proof.
  induction l as [|p l IH]; [constructor|].
  intros [Hp Hl]%Forall_cons. simpl.
  apply track_insert_sorted; [done| |by apply IH].
  by rewrite track_sort_perm.
Qed.

Lemma track_sorted_lookup data i j p q :
  Forall finite_depth data → (i ≤ j)%nat →
  sortedData data !! i = Some p → sortedData data !! j = Some q →
  depth p <=? depth q.
Proof.
  intros Hfin Hij Hi Hj.
  destruct (decide (i = j)) as [->|Hne].
  { assert (p = q) as -> by congruence.
    apply (leb_refl A HO).
    assert (q ∈ data) as Hq.
    { rewrite <-(track_sort_perm data). by eapply list_elem_of_lookup_2. }
    by apply (proj1 (Forall_forall _ _) Hfin). }
  assert (i < j)%nat as Hlt by lia. clear Hij Hne.
  pose proof (track_sort_sorted data Hfin) as Hs. unfold sortedData in *.
  revert i j Hi Hj Hlt.
  induction Hs as [|x l Hs IH Hx]; [done|].
  intros [|i] [|j] Hi Hj Hij; simplify_eq/=; try lia.
  - rewrite Forall_forall in Hx. apply Hx. by eapply list_elem_of_lookup_2.
  - apply (IH i j); [done..|lia].
Qed.

(** [Math.min] and [Math.max] of finite numbers. *)
Lemma track_Math_min x (xs : list (val A)) :
  Forall (λ y, finite y) (x :: xs) →
  Math_min (x :: xs) ∈ x :: xs ∧
  Forall (λ y, Math_min (x :: xs) <=? y) (x :: xs).
Proof.
  revert x. induction xs as [|x' xs IH]; intros x.
  - intros [Hx _]%Forall_cons. unfold Math_min. simpl.
    rewrite (min2_pinf A HO) by done. split; [left|].
    constructor; [|constructor]. by apply (leb_refl A HO).
  - intros [Hx Hxs]%Forall_cons.
    destruct (IH x' Hxs) as [Hin Hle].
    change (Math_min (x :: x' :: xs))
      with (min2 x (Math_min (x' :: xs))).
    set (m := Math_min (x' :: xs)) in *.
    assert (finite m) as Hm by (by apply (proj1 (Forall_forall _ _) Hxs)).
    destruct (min2_cases A HO x m Hx Hm) as (Hcase & Hlx & Hlm). split.
    + destruct Hcase as [-> | ->]; [left|by right].
    + constructor; [done|]. eapply Forall_impl; [exact Hle|].
      intros y Hy. exact (leb_trans A HO _ m y Hlm Hy).
Qed.

Lemma track_Math_max x (xs : list (val A)) :
  Forall (λ y, finite y) (x :: xs) →
  Math_max (x :: xs) ∈ x :: xs ∧
  Forall (λ y, y <=? Math_max (x :: xs)) (x :: xs).
Proof.
  revert x. induction xs as [|x' xs IH]; intros x.
  - intros [Hx _]%Forall_cons. unfold Math_max. simpl.
    rewrite (max2_ninf A HO) by done. split; [left|].
    constructor; [|constructor]. by apply (leb_refl A HO).
  - intros [Hx Hxs]%Forall_cons.
    destruct (IH x' Hxs) as [Hin Hle].
    change (Math_max (x :: x' :: xs))
      with (max2 x (Math_max (x' :: xs))).
    set (m := Math_max (x' :: xs)) in *.
    assert (finite m) as Hm by (by apply (proj1 (Forall_forall _ _) Hxs)).
    destruct (max2_cases A HO x m Hx Hm) as (Hcase & Hlx & Hlm). split.
    + destruct Hcase as [-> | ->]; [left|by right].
    + constructor; [done|]. eapply Forall_impl; [exact Hle|].
      intros y Hy. exact (leb_trans A HO y m _ Hy Hlm).
Qed.

(** The range of the depths of a non-empty data set. *)
Lemma track_range data :
  data ≠ [] → Forall finite_depth data →
  (∃ p, p ∈ data ∧ minDepth data = depth p) ∧
  (∃ p, p ∈ data ∧ maxDepth data = depth p) ∧
  ∀ p, p ∈ data →
    minDepth data <=? depth p ∧ depth p <=? maxDepth data.
Proof.
  intros Hne Hfin. unfold minDepth, maxDepth, sortedData.
  pose proof (track_sort_perm data) as Hperm.
  destruct (Array_sort data) as [|p0 l] eqn:Hs.
  { destruct Hne. by apply Permutation_nil. }
  assert (Forall (λ y : val A, finite y) (depth <$> p0 :: l)) as Hfin'.
  { rewrite Forall_fmap, Hperm. exact Hfin. }
  rewrite fmap_cons in Hfin' |- *.
  destruct (track_Math_min _ _ Hfin') as [Hmin Hmin_le].
  destruct (track_Math_max _ _ Hfin') as [Hmax Hmax_le].
  rewrite <-fmap_cons in Hmin, Hmax, Hmin_le, Hmax_le.
  apply list_elem_of_fmap in Hmin as (pm & Hpm & Hin_m).
  apply list_elem_of_fmap in Hmax as (pM & HpM & Hin_M).
  rewrite Forall_fmap, Forall_forall in Hmin_le, Hmax_le.
  rewrite <-fmap_cons.
  split; [exists pm; by rewrite <-Hperm|].
  split; [exists pM; by rewrite <-Hperm|].
  intros p Hp. rewrite <-Hperm in Hp.
  split; [by apply Hmin_le|by apply Hmax_le].
Qed.
End track_sort.

Section track_scale.
Import Arith ArithLaws DepthTrack.
Context {A : Arith.ops}
  (HS : SpecialValues A) (HO : Ordered A) (HM : Monotone A).
Implicit Types (p q : Point A) (data : list (Point A)) (d x y : val A).
Implicit Types (bar : Bar A) (bars : list (Bar A)).
Local Open Scope arith_scope.

(** A range with [minDepth < maxDepth] is positive. *)
Lemma track_range_positive data :
  minDepth data <? maxDepth data → finite (depthRange data) →
  lit 0 <? depthRange data.
Proof.
  intros Hlt Hfin. destruct (track_range_finite HS data Hfin) as [HM' Hm].
  unfold depthRange. by rewrite (sub_sign A HO).
Qed.

Lemma track_scale_mono data d1 d2 :
  lit 0 <? depthRange data → finite (depthRange data) →
  d1 <=? d2 → scaleDepth data d1 <=? scaleDepth data d2.
Proof.
  intros Hpos Hfin Hd. destruct (track_range_finite HS data Hfin) as [_ Hm].
  unfold scaleDepth. rewrite (track_plotHeight HS).
  apply (add_mono A HM); [|apply (finite_40 A HS)].
  apply (mul_mono A HM); [|apply (finite_500 A HS)|apply (positive_500 A HS)].
  apply (div_mono A HM); [|done..].
  by apply (sub_mono A HM).
Qed.

(** Between the two ends of the range the scale stays between the two
    edges of the plot, and is finite. *)
Lemma track_scale_bounds data d :
  lit 0 <? depthRange data → finite (depthRange data) →
  minDepth data <=? d → d <=? maxDepth data →
  padding_top <=? scaleDepth data d ∧
  scaleDepth data d <=? chartHeight - padding_bottom ∧
  finite (scaleDepth data d).
Proof.
  intros Hpos Hfin Hlo Hhi.
  pose proof (track_scale_mono data _ _ Hpos Hfin Hlo) as H1.
  pose proof (track_scale_mono data _ _ Hpos Hfin Hhi) as H2.
  rewrite (track_scale_top HS) in H1 by done.
  rewrite (track_scale_bottom HS) in H2 by done.
  split; [done|]. split; [done|].
  eapply (leb_finite A HO); [| |exact H1|exact H2].
  - apply (finite_40 A HS).
  - apply (finite_bottom A HS).
Qed.

(** The shallowest record is drawn at the top edge. *)
Lemma track_scale_head data p0 :
  Forall finite_depth data →
  lit 0 <? depthRange data → finite (depthRange data) →
  sortedData data !! 0%nat = Some p0 →
  scaleDepth data (depth p0) = scaleDepth data (minDepth data).
Proof.
  intros Hdata Hpos Hfin H0.
  assert (data ≠ []) as Hne.
  { intros ->. done. }
  destruct (track_range HO data Hne Hdata) as ((pm & Hpm & Hm) & _ & Hin).
  assert (p0 ∈ data) as Hp0.
  { rewrite <-(track_sort_perm data). by eapply list_elem_of_lookup_2. }
  destruct (Hin p0 Hp0) as [Hlo Hhi].
  assert (depth p0 <=? minDepth data) as Hle.
  { rewrite Hm. rewrite <-(track_sort_perm data) in Hpm.
    apply list_elem_of_lookup_1 in Hpm as [j Hj].
    eapply (track_sorted_lookup HO data 0 j); [done|lia|done..]. }
  rewrite (track_scale_top HS) by done.
  apply (leb_antisym A HO).
  - apply (positive_40 A HS).
  - rewrite <-(track_scale_top HS data) by done.
    by apply track_scale_mono.
  - by apply track_scale_bounds.
Qed.

(** The two ends of a bar are finite and in order. *)
Lemma track_bar_ordered data i p :
  Forall finite_depth data →
  lit 0 <? depthRange data → finite (depthRange data) →
  sortedData data !! i = Some p →
  finite (y1 (rockBar data i p)) ∧ finite (y2 (rockBar data i p)) ∧
  y1 (rockBar data i p) <=? y2 (rockBar data i p).
Proof.
  intros Hdata Hpos Hfin Hi.
  assert (data ≠ []) as Hne.
  { intros ->. done. }
  destruct (track_range HO data Hne Hdata) as (_ & _ & Hin).
  assert (∀ j q, sortedData data !! j = Some q →
            minDepth data <=? depth q ∧ depth q <=? maxDepth data) as Hin'.
  { intros j q Hq. apply Hin. rewrite <-(track_sort_perm data).
    by eapply list_elem_of_lookup_2. }
  destruct (Hin' i p Hi) as [Hlo Hhi].
  destruct (track_scale_bounds data (depth p) Hpos Hfin Hlo Hhi)
    as (_ & Hbot & Hfy1).
  unfold rockBar. cbn [y1 y2]. split; [done|].
  destruct (sortedData data !! (i + 1)%nat) as [next|] eqn:Hnext.
  - destruct (Hin' _ next Hnext) as [Hlo' Hhi'].
    destruct (track_scale_bounds data (depth next) Hpos Hfin Hlo' Hhi')
      as (_ & _ & Hfy2).
    split; [done|]. apply track_scale_mono; [done..|].
    eapply (track_sorted_lookup HO data i (i + 1)); [done|lia|done..].
  - split; [apply (finite_bottom A HS)|done].
Qed.

Lemma track_bar_height data i p :
  Forall finite_depth data →
  lit 0 <? depthRange data → finite (depthRange data) →
  sortedData data !! i = Some p →
  lit 0 <=? barHeight (rockBar data i p).
Proof.
  intros Hdata Hpos Hfin Hi.
  destruct (track_bar_ordered data i p Hdata Hpos Hfin Hi)
    as (Hf1 & Hf2 & Hle).
  change (barHeight (rockBar data i p))
    with (y2 (rockBar data i p) - y1 (rockBar data i p)).
  rewrite <-(sub_self A HS (y1 (rockBar data i p))) by done.
  by apply (sub_mono A HM).
Qed.
End track_scale.

Section track_tiling.
Import Arith ArithLaws DepthTrack.
Context {A : Arith.ops} (HO : Ordered A).
Implicit Types (top bottom y : val A) (bar : Bar A) (bars : list (Bar A)).
Local Open Scope arith_scope.

Lemma track_tiles_intro bars top bottom :
  y1 <$> head bars = Some top →
  y2 <$> last bars = Some bottom →
  (∀ i bar, bars !! i = Some bar → y1 bar <=? y2 bar) →
  (∀ i bar next,
     bars !! i = Some bar → bars !! S i = Some next → y2 bar = y1 next) →
  tiles top bottom bars.
Proof.
  revert top. induction bars as [|bar rest IH]; intros top; [done|].
  intros [= Htop] Hlast Hle Hchain. simpl.
  split; [done|]. split; [by apply (Hle 0%nat)|].
  destruct rest as [|next rest].
  { injection Hlast as <-. done. }
  apply IH.
  - simpl. f_equal. symmetry. by apply (Hchain 0%nat).
  - by rewrite last_cons_cons in Hlast.
  - intros i b. apply (Hle (S i)).
  - intros i b b'. apply (Hchain (S i)).
Qed.

Lemma track_tiles_start_le bars top bottom j bar :
  Forall (λ b, finite (y1 b)) bars →
  tiles top bottom bars → bars !! j = Some bar → top <=? y1 bar.
Proof.
  revert top j. induction bars as [|b rest IH]; intros top j; [done|].
  intros [Hb Hrest']%Forall_cons (<- & Hle & Hrest) Hj.
  destruct j as [|j]; simplify_eq/=.
  - by apply (leb_refl A HO).
  - eapply (leb_trans A HO); [exact Hle|]. by eapply IH.
Qed.

(** No gaps: every coordinate from [top] to below [bottom] lies in a
    bar. *)
Lemma track_tiles_cover bars top bottom y :
  Forall (λ b, finite (y2 b)) bars → finite y →
  tiles top bottom bars → top <=? y → y <? bottom →
  ∃ i bar, bars !! i = Some bar ∧ y1 bar <=? y ∧ y <? y2 bar.
Proof.
  intros Hfin Hy. revert top. induction Hfin as [|b rest Hb Hfin IH]; intros top.
  - simpl. intros -> Hle Hlt. destruct (ltb_not_leb A HO _ _ Hlt Hle).
  - intros (<- & Hle & Hrest) Hty Hlt.
    destruct (y <? y2 b) eqn:Hin.
    + exists 0%nat, b. by rewrite Hin.
    + assert (y2 b <=? y) as Hout.
      { apply (leb_total A HO); [done..|]. rewrite Hin. simpl. tauto. }
      destruct (IH _ Hrest Hout Hlt) as (i & bar & Hi & Hbar).
      by exists (S i), bar.
Qed.

(** No overlaps: a bar ends before any later bar starts. *)
Lemma track_tiles_disjoint bars top bottom i j bar later :
  Forall (λ b, finite (y1 b)) bars →
  tiles top bottom bars → (i < j)%nat →
  bars !! i = Some bar → bars !! j = Some later →
  y2 bar <=? y1 later.
Proof.
  intros Hfin. revert top i j.
  induction Hfin as [|b rest Hb Hfin IH]; intros top i j; [done|].
  intros (<- & Hle & Hrest) Hij Hi Hj.
  destruct j as [|j]; [lia|]. destruct i as [|i]; simplify_eq/=.
  - by eapply track_tiles_start_le.
  - eapply (IH _ i j); [done|lia|done..].
Qed.
End track_tiling.

Section track_bars.
Import Arith ArithLaws DepthTrack.
Context {A : Arith.ops}.
Implicit Types (data : list (Point A)).
Local Open Scope arith_scope.

Lemma track_bars_lookup data i :
  rock_bars data !! i = rockBar data i <$> sortedData data !! i.
Proof. apply list_lookup_imap. Qed.

Lemma track_bars_length data : length (rock_bars data) = length data.
Proof.
  unfold rock_bars. by rewrite length_imap, (track_sort_perm data).
Qed.

Lemma track_bars_last data :
  data ≠ [] →
  y2 <$> last (rock_bars data) = Some (chartHeight - padding_bottom).
Proof.
  intros Hne. rewrite last_lookup, track_bars_lookup.
  unfold rock_bars. rewrite length_imap.
  destruct (sortedData data !! pred (length (sortedData data)))
    as [p|] eqn:Hp.
  - simpl. unfold rockBar. cbn [y2].
    rewrite (proj2 (lookup_ge_None _ _)); [done|].
    apply lookup_lt_Some in Hp. lia.
  - apply lookup_ge_None in Hp.
    pose proof (Permutation_length (track_sort_perm data)) as Hlen.
    unfold sortedData in Hp. destruct data; [done|simpl in *; lia].
Qed.

Lemma track_bars_chain data i bar next :
  rock_bars data !! i = Some bar → rock_bars data !! S i = Some next →
  y2 bar = y1 next.
Proof.
  rewrite !track_bars_lookup. intros Hi HS.
  destruct (sortedData data !! i) as [p|]; [|done].
  destruct (sortedData data !! S i) as [q|] eqn:Hq; [|done].
  injection Hi as <-. injection HS as <-.
  unfold rockBar. cbn [y1 y2]. by rewrite Nat.add_1_r, Hq.
Qed.
End track_bars.

(** ** The exact numbers keep the laws *)

Section exact_laws.
Import Arith ArithLaws.
Local Open Scope arith_scope.

Lemma exact_leb (x y : number) :
  Is_true (leb (A:=exact) x y) ↔ (x ≤ y)%js.
Proof. apply bool_decide_spec. Qed.

Lemma exact_ltb (x y : number) :
  Is_true (ltb (A:=exact) x y) ↔ (x < y)%js.
Proof. apply bool_decide_spec. Qed.

Lemma exact_special : SpecialValues exact.
Proof.
  split.
  - intros [a| | |] [b| | |]; by simpl.
  - intros [a| | |]; simpl; try done. intros _.
    apply (f_equal Fin). rewrite Qcplus_opp_r. compute_done.
  - intros [r| | |] Hf Hr%exact_ltb; try done. simpl in *.
    destruct (decide (r = 0)) as [->|Hne]; [done|].
    apply (f_equal Fin). unfold Qcdiv.
    replace (Qc_of_Z 0) with 0%Qc by compute_done. by rewrite Qcmult_0_l.
  - intros [r| | |] Hf Hr%exact_ltb; try done. simpl in *.
    destruct (decide (r = 0)) as [->|Hne]; [done|].
    apply (f_equal Fin). unfold Qcdiv.
    rewrite Qcmult_inv_r by done. compute_done.
  - compute_done.
  - compute_done.
  - compute_done.
  - compute_done.
  - compute_done.
  - done.
  - done.
  - done.
  - by vm_compute.
  - by vm_compute.
Qed.

Lemma exact_ordered : Ordered exact.
Proof.
  split.
  - intros x. rewrite exact_leb. destruct x; simpl; try done.
  - intros x y z. rewrite !exact_leb. apply le_trans.
  - intros x y. rewrite exact_leb, exact_ltb.
    destruct x, y; simpl; try done. apply Qclt_le_weak.
  - intros x y. rewrite exact_leb, exact_ltb. intros H1 H2.
    by destruct (lt_le_False x y).
  - intros x y. rewrite exact_leb, exact_ltb.
    destruct x as [a| | |], y as [b| | |]; simpl; try done.
    intros _ _. apply Qcnot_lt_le.
  - intros a x b. rewrite !exact_leb.
    destruct a, x, b; simpl; try done.
  - intros x c. rewrite exact_ltb, !exact_leb.
    destruct x as [a| | |], c as [b| | |]; simpl; try done.
    intros _ H1 H2. apply (f_equal Fin). by apply Qcle_antisym.
  - intros [a| | |] [b| | |]; simpl; try done. intros _ _.
    apply bool_decide_ext. simpl.
    replace (Qc_of_Z 0) with 0%Qc by compute_done. apply Qc_sub_gt_0.
  - by intros [a| | |].
  - by intros [a| | |].
  - intros x y. rewrite !exact_leb.
    destruct x as [a| | |], y as [b| | |]; simpl; try done. intros _ _.
    unfold JS.min2. simpl.
    destruct (decide (a ≤ b)) as [H|H%Qcnot_le_lt%Qclt_le_weak]; simpl;
      auto using Qcle_refl.
  - intros x y. rewrite !exact_leb.
    destruct x as [a| | |], y as [b| | |]; simpl; try done. intros _ _.
    unfold JS.max2. simpl.
    destruct (decide (a ≤ b)) as [H|H%Qcnot_le_lt%Qclt_le_weak]; simpl;
      auto using Qcle_refl.
Qed.

Lemma exact_monotone : Monotone exact.
Proof.
  split.
  - intros x y m. rewrite !exact_leb.
    destruct m as [m| | |]; simpl; try done. intros H _.
    destruct x as [a| | |], y as [b| | |]; simpl in *; try done.
    by apply Qcplus_le_mono_r.
  - intros x y r. rewrite !exact_leb, exact_ltb.
    destruct r as [r| | |]; simpl; try done. intros H _ Hr.
    replace (Qc_of_Z 0) with 0%Qc in Hr by compute_done.
    assert (r ≠ 0) as Hne by (intros ->; done).
    assert (¬ r < 0) as Hpos by (by apply Qcle_not_lt, Qclt_le_weak).
    destruct x as [a| | |], y as [b| | |]; simpl in *; try done;
      repeat case_decide; try done.
    unfold Qcdiv. apply Qcmult_le_mono_nonneg_r; [|done].
    by apply Qclt_le_weak, Qcinv_pos.
  - intros x y c. rewrite !exact_leb, exact_ltb.
    destruct c as [c| | |]; simpl; try done. intros H _ Hc.
    replace (Qc_of_Z 0) with 0%Qc in Hc by compute_done.
    assert (sgn c = Gt) as Hs by (by apply Qcgt_alt).
    destruct x as [a| | |], y as [b| | |]; simpl in *; rewrite ?Hs;
      try done.
    apply Qcmult_le_mono_nonneg_r; [|done]. by apply Qclt_le_weak.
  - intros x y c. rewrite !exact_leb.
    destruct c as [c| | |]; simpl; try done. intros H _.
    destruct x as [a| | |], y as [b| | |]; simpl in *; try done.
    by apply Qcplus_le_mono_l.
Qed.
End exact_laws.

(** ** The depth scale and the rock bars in binary64 *)

Section track_claims.
Import Arith ArithLaws DepthTrack.
Local Open Scope arith_scope.

(** In binary64 the heights are rounded.  Of four records at the depths
    0, 1, 4 and 75 the second one spans 3/75 of the 500 units of the plot,
    which is 20; the component computes 20.000000000000007 and draws the
    text of the bar, at 56.66666666666667. *)
Example rounded_bar_heights :
  @barHeight binary64 <$> rock_bars float_four_points
    = [0x1.aaaaaaaaaaaa8p+2; 0x1.4000000000002p+4;
       0x1.d955555555555p+8; 0]%float ∧
  @text_y binary64 <$> rock_bars float_four_points
    = [None; Some 0x1.c555555555556p+5; Some 0x1.2f55555555555p+8;
       None]%float.
Proof. split; vm_compute; reflexivity. Qed.

(** C7. In the binary64 numbers of JavaScript: when the smallest depth is
    below the largest one and their difference [maxDepth - minDepth], the
    depth range, is finite, the depth scale sends the smallest depth to
    the top of the plot area ([padding.top], 40) and the largest depth to
    its bottom ([chartHeight - padding.bottom], 540). *)
Theorem scaleDepth_endpoints (data : list (Point binary64)) :
  minDepth data <? maxDepth data → finite (depthRange data) →
  scaleDepth data (minDepth data) = padding_top ∧
  scaleDepth data (maxDepth data) = chartHeight - padding_bottom ∧
  @padding_top binary64 = 40%float ∧
  @chartHeight binary64 - padding_bottom = 540%float.
Proof.
  intros Hlt Hfin.
  pose proof (track_range_positive binary64_special binary64_ordered
                data Hlt Hfin) as Hpos.
  split; [by apply (track_scale_top binary64_special)|].
  split; [by apply (track_scale_bottom binary64_special)|].
  by vm_compute.
Qed.

Lemma scaleDepth_endpoints_witness :
  depthRange float_two_points = 100%float ∧
  scaleDepth float_two_points (minDepth float_two_points) = 40%float ∧
  scaleDepth float_two_points (maxDepth float_two_points) = 540%float.
Proof.
  assert (Is_true (minDepth float_two_points <? maxDepth float_two_points))
    as Hlt by (vm_compute; exact I).
  assert (Is_true (finite (depthRange float_two_points))) as Hfin
    by (vm_compute; exact I).
  destruct (scaleDepth_endpoints float_two_points Hlt Hfin)
    as (Htop & Hbot & Ht & Hb).
  split; [vm_compute; reflexivity|].
  split; [by rewrite Htop|by rewrite Hbot].
Defined.

(** C7 as stated fails when the depth range overflows.  For the depths
    [-2^1023] and [2^1023] the smallest depth is below the largest one,
    their difference is [Infinity], and the scale sends the largest depth
    to NaN, not to the bottom of the plot area. *)
Lemma scaleDepth_endpoints_overflow :
  overflow_points ≠ [] ∧
  minDepth overflow_points <? maxDepth overflow_points ∧
  depthRange overflow_points = infinity ∧
  scaleDepth overflow_points (minDepth overflow_points) = 40%float ∧
  scaleDepth overflow_points (maxDepth overflow_points) = nan ∧
  scaleDepth overflow_points (maxDepth overflow_points)
    ≠ chartHeight - padding_bottom.
Proof.
  split; [done|]. split; [vm_compute; exact I|].
  split; [vm_compute; reflexivity|]. split; [vm_compute; reflexivity|].
  split; [vm_compute; reflexivity|].
  intros H. apply (f_equal PrimFloat.is_nan) in H. vm_compute in H.
  discriminate H.
Qed.

(** The depth scale is monotone and the bars have non-negative heights,
    for every arithmetic that keeps the laws. *)
Lemma track_monotone (A : Arith.ops) (data : list (Point A)) :
  SpecialValues A → Ordered A → Monotone A →
  Forall finite_depth data →
  minDepth data <? maxDepth data → finite (depthRange data) →
  (∀ d1 d2 : val A,
     d1 <=? d2 → scaleDepth data d1 <=? scaleDepth data d2) ∧
  (∀ bar, bar ∈ rock_bars data →
     barHeight bar = y2 bar - y1 bar ∧ lit 0 <=? barHeight bar).
Proof.
  intros HS HO HM Hdata Hlt Hfin.
  pose proof (track_range_positive HS HO data Hlt Hfin) as Hpos.
  split.
  - intros d1 d2. by apply track_scale_mono.
  - intros bar (i & p & -> & Hi)%elem_of_lookup_imap. split; [done|].
    by apply track_bar_height.
Qed.

(** C10. In the binary64 numbers of JavaScript: when the largest depth
    exceeds the smallest one and the depth range is finite, the depth scale
    is monotone non-decreasing, and every rock bar of a data set of finite
    depths, whose height is its end coordinate minus its start coordinate,
    has a non-negative height.  Nothing is assumed of the rounding: that
    each operation is monotone is [binary64_monotone]. *)
Theorem scaleDepth_monotone (data : list (Point binary64)) :
  Forall finite_depth data →
  minDepth data <? maxDepth data → finite (depthRange data) →
  (∀ d1 d2 : float,
     PrimFloat.leb d1 d2 →
     PrimFloat.leb (scaleDepth data d1) (scaleDepth data d2)) ∧
  (∀ bar, bar ∈ rock_bars data →
     barHeight bar = (y2 bar - y1 bar)%float ∧
     PrimFloat.leb 0 (barHeight bar)).
Proof.
  intros Hdata Hlt Hfin.
  destruct (track_monotone binary64 data binary64_special binary64_ordered
              binary64_monotone Hdata Hlt Hfin) as [Hmono Hbars].
  split; [exact Hmono|]. intros bar Hbar. by apply Hbars.
Qed.

Lemma scaleDepth_monotone_witness :
  PrimFloat.leb (scaleDepth float_four_points 1%float)
                (scaleDepth float_four_points 4%float) ∧
  Forall (λ bar : Bar binary64, PrimFloat.leb 0 (barHeight bar))
    (rock_bars float_four_points).
Proof.
  assert (Forall finite_depth float_four_points) as Hdata
    by (repeat constructor; vm_compute; exact I).
  assert (Is_true (minDepth float_four_points <? maxDepth float_four_points))
    as Hlt by (vm_compute; exact I).
  assert (Is_true (finite (depthRange float_four_points))) as Hfin
    by (vm_compute; exact I).
  destruct (scaleDepth_monotone float_four_points Hdata Hlt Hfin)
    as [Hmono Hbars].
  split.
  - apply Hmono. vm_compute. exact I.
  - apply Forall_forall. intros bar Hbar. by apply Hbars.
Defined.

(** The same in the exact numbers, which keep the three groups of laws. *)
Lemma scaleDepth_monotone_exact (data : list (Point exact)) :
  Forall finite_depth data →
  minDepth data <? maxDepth data → finite (depthRange data) →
  (∀ d1 d2 : val exact,
     d1 <=? d2 → scaleDepth data d1 <=? scaleDepth data d2) ∧
  (∀ bar, bar ∈ rock_bars data →
     barHeight bar = y2 bar - y1 bar ∧ lit 0 <=? barHeight bar).
Proof.
  apply track_monotone;
    [apply exact_special|apply exact_ordered|apply exact_monotone].
Qed.

(** C10 as stated fails when the depth range overflows.  For the depths
    [-2^1023] and [2^1023] the largest depth exceeds the smallest one,
    but the scale sends the smallest depth to 40 and the largest one to
    NaN, which is not above 40, and the heights of the two bars are NaN,
    which is not a non-negative number. *)
Lemma scaleDepth_monotone_overflow :
  minDepth overflow_points <? maxDepth overflow_points ∧
  minDepth overflow_points <=? maxDepth overflow_points ∧
  ¬ (scaleDepth overflow_points (minDepth overflow_points)
     <=? scaleDepth overflow_points (maxDepth overflow_points)) ∧
  @barHeight binary64 <$> rock_bars overflow_points = [nan; nan] ∧
  Forall (λ bar, ¬ (lit 0 <=? barHeight bar)) (rock_bars overflow_points).
Proof.
  split; [vm_compute; exact I|]. split; [vm_compute; exact I|].
  split; [vm_compute; tauto|]. split; [vm_compute; reflexivity|].
  repeat constructor; vm_compute; tauto.
Qed.

(** The rock bars tile the plot, for every arithmetic that keeps the
    laws. *)
Lemma track_tiling (A : Arith.ops) (data : list (Point A)) :
  data ≠ [] →
  let bars := rock_bars data in
  let bottom := chartHeight - padding_bottom in
  length bars = length data ∧
  (∀ i p, sortedData data !! i = Some p →
     ∃ bar, bars !! i = Some bar ∧
       y1 bar = scaleDepth data (depth p) ∧
       y2 bar = match sortedData data !! (i + 1)%nat with
                | Some next => scaleDepth data (depth next)
                | None => bottom
                end) ∧
  y2 <$> last bars = Some bottom ∧
  (SpecialValues A → Ordered A → Monotone A →
   Forall finite_depth data →
   minDepth data <? maxDepth data → finite (depthRange data) →
     let top := scaleDepth data (minDepth data) in
     tiles top bottom bars ∧
     (∀ y, top <=? y → y <? bottom →
        ∃ i bar, bars !! i = Some bar ∧ y1 bar <=? y ∧ y <? y2 bar) ∧
     (∀ i j bar later,
        (i < j)%nat → bars !! i = Some bar → bars !! j = Some later →
        y2 bar <=? y1 later)).
Proof.
  intros Hne bars bottom. subst bars bottom.
  split; [apply track_bars_length|]. split.
  { intros i p Hi. exists (rockBar data i p).
    by rewrite track_bars_lookup, Hi. }
  split; [by apply track_bars_last|].
  intros HS HO HM Hdata Hlt Hfin top. subst top.
  pose proof (track_range_positive HS HO data Hlt Hfin) as Hpos.
  assert (∀ i bar, rock_bars data !! i = Some bar →
            finite (y1 bar) ∧ finite (y2 bar) ∧ y1 bar <=? y2 bar) as Hbar.
  { intros i bar. rewrite track_bars_lookup. intros Hi.
    destruct (sortedData data !! i) as [p|] eqn:Hp; [|done].
    injection Hi as <-. by apply track_bar_ordered. }
  assert (Forall (λ b, finite (y1 b)) (rock_bars data)) as Hf1.
  { apply Forall_lookup. intros i bar Hi. by destruct (Hbar i bar Hi). }
  assert (Forall (λ b, finite (y2 b)) (rock_bars data)) as Hf2.
  { apply Forall_lookup. intros i bar Hi.
    by destruct (Hbar i bar Hi) as (_ & ? & _). }
  assert (tiles (scaleDepth data (minDepth data))
            (chartHeight - padding_bottom) (rock_bars data)) as Htiles.
  { apply track_tiles_intro.
    - destruct (sortedData data !! 0%nat) as [p0|] eqn:H0.
      + rewrite head_lookup, track_bars_lookup, H0. simpl. f_equal.
        by apply track_scale_head.
      + apply lookup_ge_None in H0.
        pose proof (Permutation_length (track_sort_perm data)) as Hlen.
        unfold sortedData in H0. destruct data; [done|simpl in *; lia].
    - by apply track_bars_last.
    - intros i bar Hi. by destruct (Hbar i bar Hi) as (_ & _ & ?).
    - apply track_bars_chain. }
  split; [done|]. split.
  - intros y Hy Hlt'. eapply (track_tiles_cover HO); [done| |done..].
    rewrite (track_scale_top HS) in Hy by done.
    eapply (leb_finite A HO); [| |exact Hy|by apply (ltb_leb A HO)].
    + apply (finite_40 A HS).
    + apply (finite_bottom A HS).
  - intros i j bar later Hij. by eapply (track_tiles_disjoint HO).
Qed.

(** C5. In the binary64 numbers of JavaScript: for a non-empty data set
    there is one rock bar for each record; the bar of the [i]-th sorted
    record starts at the depth scale of that record and ends at the depth
    scale of the next sorted record, or at the bottom edge of the plot,
    540, for the last one.  When the depths are finite, the smallest depth
    is below the largest one and the depth range is finite, the scaled
    smallest depth is the top of the plot, 40, and the bars tile the plot
    from there to the bottom edge, without gap and without overlap.
    Nothing is assumed of the rounding. *)
Theorem rock_bars_tile (data : list (Point binary64)) :
  data ≠ [] →
  let bars := rock_bars data in
  let bottom := @chartHeight binary64 - padding_bottom in
  length bars = length data ∧
  (∀ i p, sortedData data !! i = Some p →
     ∃ bar, bars !! i = Some bar ∧
       y1 bar = scaleDepth data (depth p) ∧
       y2 bar = match sortedData data !! (i + 1)%nat with
                | Some next => scaleDepth data (depth next)
                | None => bottom
                end) ∧
  y2 <$> last bars = Some bottom ∧
  bottom = 540%float ∧
  (Forall finite_depth data →
   minDepth data <? maxDepth data → finite (depthRange data) →
     let top := scaleDepth data (minDepth data) in
     top = 40%float ∧
     tiles top bottom bars ∧
     (∀ y : float, PrimFloat.leb top y → PrimFloat.ltb y bottom →
        ∃ i bar, bars !! i = Some bar ∧
          PrimFloat.leb (y1 bar) y ∧ PrimFloat.ltb y (y2 bar)) ∧
     (∀ i j bar later,
        (i < j)%nat → bars !! i = Some bar → bars !! j = Some later →
        PrimFloat.leb (y2 bar) (y1 later))).
Proof.
  intros Hne bars bottom.
  destruct (track_tiling binary64 data Hne) as (Hlen & Hbar & Hlast & Htiles).
  split; [exact Hlen|]. split; [exact Hbar|]. split; [exact Hlast|].
  split; [by vm_compute|].
  intros Hdata Hlt Hfin top.
  destruct (Htiles binary64_special binary64_ordered binary64_monotone
              Hdata Hlt Hfin) as (Ht & Hcover & Hdisj).
  pose proof (track_range_positive binary64_special binary64_ordered
                data Hlt Hfin) as Hpos.
  split; [|by repeat split].
  unfold top. rewrite (track_scale_top binary64_special) by done.
  by vm_compute.
Qed.

Lemma rock_bars_tile_witness :
  length (rock_bars float_four_points) = 4%nat ∧
  @tiles binary64 40%float 540%float (rock_bars float_four_points).
Proof.
  assert (float_four_points ≠ []) as Hne by discriminate.
  assert (Forall finite_depth float_four_points) as Hdata
    by (repeat constructor; vm_compute; exact I).
  assert (Is_true (minDepth float_four_points <? maxDepth float_four_points))
    as Hlt by (vm_compute; exact I).
  assert (Is_true (finite (depthRange float_four_points))) as Hfin
    by (vm_compute; exact I).
  destruct (rock_bars_tile float_four_points Hne)
    as (Hlen & _ & _ & Hbot & Htiles).
  split; [exact Hlen|].
  destruct (Htiles Hdata Hlt Hfin) as (Htop & Ht & _ & _).
  rewrite Htop, Hbot in Ht. exact Ht.
Defined.

(** The same in the exact numbers, which keep the three groups of laws. *)
Lemma rock_bars_tile_exact (data : list (Point exact)) :
  data ≠ [] →
  Forall finite_depth data →
  minDepth data <? maxDepth data → finite (depthRange data) →
  length (rock_bars data) = length data ∧
  tiles (scaleDepth data (minDepth data)) (chartHeight - padding_bottom)
    (rock_bars data).
Proof.
  intros Hne Hdata Hlt Hfin.
  destruct (track_tiling exact data Hne) as (Hlen & _ & _ & Htiles).
  split; [exact Hlen|].
  by destruct (Htiles exact_special exact_ordered exact_monotone Hdata Hlt
                 Hfin) as (Ht & _ & _).
Qed.

(** C5 as stated fails on a single record, whose bar starts at NaN, and
    when the depth range overflows: for the depths [-2^1023] and [2^1023]
    the first bar goes from 40 to NaN and the second one from NaN to 540,
    so neither spans an interval and the column is not tiled. *)
Lemma rock_bars_tile_fails :
  float_one_point ≠ [] ∧
  @y1 binary64 <$> rock_bars float_one_point = [nan] ∧
  ¬ tiles (scaleDepth float_one_point (minDepth float_one_point))
          (chartHeight - padding_bottom) (rock_bars float_one_point) ∧
  overflow_points ≠ [] ∧
  minDepth overflow_points <? maxDepth overflow_points ∧
  (λ bar : Bar binary64, (y1 bar, y2 bar)) <$> rock_bars overflow_points
    = [(40%float, nan); (nan, 540%float)] ∧
  ¬ tiles (scaleDepth overflow_points (minDepth overflow_points))
          (chartHeight - padding_bottom) (rock_bars overflow_points).
Proof.
  split; [done|]. split; [vm_compute; reflexivity|]. split.
  { intros (_ & Hle & _). vm_compute in Hle. exact Hle. }
  split; [done|]. split; [vm_compute; exact I|].
  split; [vm_compute; reflexivity|].
  intros (_ & Hle & _). vm_compute in Hle. exact Hle.
Qed.

(** X18. In binary64: when the depths are finite, the smallest depth is
    below the largest one and the depth range is finite, every rock bar
    starts and ends at a finite coordinate of the plot area: the start is
    not less than the top edge, 40, the end is not greater than the bottom
    edge, 540, and the start is not greater than the end. *)
Theorem rock_bars_within_plot (data : list (Point binary64)) :
  Forall finite_depth data →
  minDepth data <? maxDepth data → finite (depthRange data) →
  ∀ bar, bar ∈ rock_bars data →
    PrimFloat.is_finite (y1 bar) ∧ PrimFloat.is_finite (y2 bar) ∧
    PrimFloat.leb 40 (y1 bar) ∧ PrimFloat.leb (y1 bar) (y2 bar) ∧
    PrimFloat.leb (y2 bar) 540.
Proof.
  intros Hdata Hlt Hfin bar (i & p & -> & Hi)%elem_of_lookup_imap.
  pose proof (track_range_positive binary64_special binary64_ordered
                data Hlt Hfin) as Hpos.
  assert (data ≠ []) as Hne.
  { intros ->. vm_compute in Hlt. exact Hlt. }
  destruct (track_range binary64_ordered data Hne Hdata) as (_ & _ & Hin).
  assert (∀ j q, sortedData data !! j = Some q →
            PrimFloat.leb 40 (scaleDepth data (depth q)) ∧
            PrimFloat.leb (scaleDepth data (depth q)) 540) as Hscale.
  { intros j q Hq.
    assert (q ∈ data) as Hqd.
    { rewrite <-(track_sort_perm data). by eapply list_elem_of_lookup_2. }
    destruct (Hin q Hqd) as [Hlo Hhi].
    destruct (track_scale_bounds binary64_special binary64_ordered
                binary64_monotone data (depth q) Hpos Hfin Hlo Hhi)
      as (H1 & H2 & _).
    split; [exact H1|exact H2]. }
  destruct (track_bar_ordered binary64_special binary64_ordered
              binary64_monotone data i p Hdata Hpos Hfin Hi)
    as (Hf1 & Hf2 & Hle).
  split; [exact Hf1|]. split; [exact Hf2|].
  split; [by apply (Hscale i p)|]. split; [exact Hle|].
  unfold rockBar. cbn [y2].
  destruct (sortedData data !! (i + 1)%nat) as [next|] eqn:Hnext.
  - by apply (Hscale (i + 1)%nat next).
  - by vm_compute.
Qed.

Lemma rock_bars_within_plot_witness :
  Forall (λ bar : Bar binary64,
            PrimFloat.leb 40 (y1 bar) ∧ PrimFloat.leb (y2 bar) 540)
    (rock_bars float_four_points).
Proof.
  assert (Forall finite_depth float_four_points) as Hdata
    by (repeat constructor; vm_compute; exact I).
  assert (Is_true (minDepth float_four_points <? maxDepth float_four_points))
    as Hlt by (vm_compute; exact I).
  assert (Is_true (finite (depthRange float_four_points))) as Hfin
    by (vm_compute; exact I).
  apply Forall_forall. intros bar Hbar.
  destruct (rock_bars_within_plot float_four_points Hdata Hlt Hfin bar Hbar)
    as (_ & _ & H1 & _ & H2).
  by split.
Defined.
End track_claims.
